(** * The graph execution engine of [backend/executor/manager.py]

    A shallow embedding of the executor: the data-flow resolver
    ([_enqueue_next_nodes]), input validation ([validate_exec]), the node
    executor ([execute_node]), the execution manager ([add_execution],
    [cancel_execution]) and the graph scheduler ([_on_graph_execution]).

    Python code with effects is written in a state-and-exception monad over
    a [World] (the store behind [DatabaseManager], the notification queue,
    the credential locks).  The scheduler, which shares variables with a
    cancel-watcher thread and with pool callbacks, is a labelled transition
    system whose labels are the moves of the threads.

    Logging, wall-clock and cpu-time statistics and JSON size accounting are
    left out: no property below reads them. *)

From Stdlib Require Import ZArith Lia.
From stdpp Require Import base option list strings gmap fin_maps pretty infinite.

Local Open Scope Z_scope.
Set Warnings "-register-all".
Set Default Proof Using "Type".

(** ** Python values *)

(** The JSON-like values that travel on pins.  [PNone] is Python's [None]. *)
Inductive pyval : Type :=
| PNone
| PBool (b : bool)
| PInt (n : Z)
| PStr (s : string)
| PList (l : list pyval)
| PDict (d : list (string * pyval)).

(** [bool(value)]: Python truthiness. *)
Definition truthy (v : pyval) : bool :=
  match v with
  | PNone => false
  | PBool b => b
  | PInt n => negb (n =? 0)
  | PStr s => negb (String.eqb s "")
  | PList l => match l with [] => false | _ :: _ => true end
  | PDict d => match d with [] => false | _ :: _ => true end
  end.

(** Type objects: the builtin classes of the values above, and any other
    class an annotation may name (a pydantic model, a generic alias, ...),
    which is never the class of a [pyval]. *)
Inductive pytype : Type :=
| TNoneType | TBool | TInt | TStr | TList | TDict
| TDeclared (name : string).

#[global] Instance pytype_eq_dec : EqDecision pytype.
Proof. solve_decision. Defined.

(** [type(value)] *)
Definition type_of (v : pyval) : pytype :=
  match v with
  | PNone => TNoneType
  | PBool _ => TBool
  | PInt _ => TInt
  | PStr _ => TStr
  | PList _ => TList
  | PDict _ => TDict
  end.

(** [BlockInput = dict[str, Any]] *)
Abbreviation BlockInput := (gmap string pyval).

(** [data.get(name)]: [None] when the key is absent. *)
Definition py_get (data : BlockInput) (name : string) : pyval :=
  default PNone (data !! name).

(** A dict carried as a value, as in [{..., "data": input_data}]. *)
Definition as_pydict (data : BlockInput) : pyval := PDict (map_to_list data).

(** [not x] for [x : BlockInput | None]: [None] and the empty dict are falsy. *)
Definition falsy_input (x : option BlockInput) : bool :=
  match x with
  | None => true
  | Some d => bool_decide (d = ∅)
  end.

(** ** Data model *)

Inductive ExecutionStatus : Type :=
| INCOMPLETE | QUEUED | RUNNING | COMPLETED | FAILED | TERMINATED.

#[global] Instance ExecutionStatus_eq_dec : EqDecision ExecutionStatus.
Proof. solve_decision. Defined.

Inductive BlockType : Type :=
| STANDARD | INPUT | OUTPUT | NOTE | WEBHOOK | WEBHOOK_MANUAL | AGENT.

#[global] Instance BlockType_eq_dec : EqDecision BlockType.
Proof. solve_decision. Defined.

Record Link : Type := {
  source_id : string;
  sink_id : string;
  source_name : string;
  sink_name : string;
  is_static : bool;
}.

Record Node : Type := {
  n_id : string;
  node_block_id : string;
  input_default : BlockInput;
  input_links : list Link;
  output_links : list Link;
  webhook_id : option string;
}.

(** Exceptions.  [BlockFailure] stands for whatever [Exception] a block's
    own code raises. *)
Inductive exn : Type :=
| ValueError (msg : string)
| KeyError (key : string)
| TypeError (msg : string)
| InsufficientBalanceError (msg : string) (balance amount : Z)
| BlockFailure (msg : string).

(** [str(e)] *)
Definition exn_str (e : exn) : string :=
  match e with
  | ValueError msg => msg
  | KeyError key => "'" +:+ key +:+ "'"
  | TypeError msg => msg
  | InsufficientBalanceError msg _ _ => msg
  | BlockFailure msg => msg
  end.

(** [BlockSchema]: the class methods the executor calls on a block's input
    schema.  The schema classes live in [backend.data.block]; the executor
    sees them through these methods only, so they are fields here. *)
Record BlockSchema : Type := {
  annotations : list (string * pytype);            (* [__annotations__.items()] *)
  get_missing_links : BlockInput → list Link → list string;
  get_input_defaults : BlockInput → BlockInput;
  get_missing_input : BlockInput → list string;
  get_mismatch_error : BlockInput → option string;
  get_credentials_fields : list string;            (* the keys, in order *)
}.

(** A block.  [execute input kwargs] is the lazy output sequence: the
    outputs produced, then the exception that ended the sequence, if any. *)
Record Block : Type := {
  block_name : string;
  block_type : BlockType;
  input_schema : BlockSchema;
  is_agent_executor : bool;                        (* [isinstance(_, AgentExecutorBlock)] *)
  execute : BlockInput → BlockInput → list (string * pyval) * option exn;
}.

Record NodeExecutionEntry : Type := {
  user_id : string;
  graph_exec_id : string;
  graph_id : string;
  node_exec_id : string;
  node_id : string;
  block_id : string;
  data : BlockInput;
}.

(** A row of the node-execution table ([NodeExecutionResult]). *)
Record NodeExecutionResult : Type := {
  r_node_exec_id : string;
  r_graph_exec_id : string;
  r_graph_id : string;
  r_node_id : string;
  r_block_id : string;
  r_status : ExecutionStatus;
  r_input_data : BlockInput;
}.

Record GraphExecutionStats : Type := {
  node_count : Z;
  node_error_count : Z;
  cost : Z;
  stats_error : string;
}.

Definition GraphExecutionStats_new : GraphExecutionStats :=
  {| node_count := 0; node_error_count := 0; cost := 0; stats_error := "" |}.

(** [NodeExecutionStats.error]: nothing, an exception, or a string. *)
Inductive StatsError : Type :=
| NoError
| ErrorException (e : exn)
| ErrorString (s : string).

(** [NodeExecutionStats], as far as the scheduler reads it. *)
Record NodeExecutionStats : Type := {
  nes_error : StatsError;
}.

(** A row of the graph-execution table. *)
Record GraphExecutionMeta : Type := {
  ge_graph_id : string;
  ge_user_id : string;
  ge_status : ExecutionStatus;
  ge_stats : option GraphExecutionStats;
}.

Record GraphExecutionEntry : Type := {
  g_user_id : string;
  g_graph_exec_id : string;
  g_graph_id : string;
  g_graph_version : Z;
  start_node_execs : list NodeExecutionEntry;
}.

Record GraphModel : Type := {
  gm_id : string;
  gm_version : Z;
  gm_name : string;
  gm_nodes : list Node;
  starting_nodes : list Node;
  validate_graph : option exn;                     (* what [validate_graph(for_run=True)] raises *)
}.

Inductive NotificationType : Type := AGENT_RUN | LOW_BALANCE.

#[global] Instance NotificationType_eq_dec : EqDecision NotificationType.
Proof. solve_decision. Defined.

Record LowBalanceData : Type := {
  current_balance : Z;
  billing_page_link : string;
  shortfall : Z;
  lb_agent_name : string;
}.

Record AgentRunData : Type := {
  ar_agent_name : string;
  credits_used : Z;
  ar_graph_id : string;
  ar_node_count : Z;
}.

Inductive NotificationData : Type :=
| LowBalance (d : LowBalanceData)
| AgentRun (d : AgentRunData).

Record NotificationEventDTO : Type := {
  n_user_id : string;
  n_type : NotificationType;
  n_data : NotificationData;
}.

(** What [send_execution_update] broadcasts. *)
Inductive ExecutionUpdate : Type :=
| NodeUpdate (r : NodeExecutionResult)
| GraphUpdate (graph_exec_id : string) (m : GraphExecutionMeta).

(** Stored credentials, as far as the manager inspects them. *)
Record Credentials : Type := {
  cred_id : string;
  provider : string;
  cred_type : string;
}.

(** ** The world the executor acts on *)

Record World : Type := {
  graphs : gmap string GraphModel;
  nodes : list Node;
  node_executions : list NodeExecutionResult;      (* in creation order *)
  execution_outputs : list (string * (string * pyval)); (* (node_exec_id, (pin, value)), append-only *)
  graph_executions : gmap string GraphExecutionMeta;
  sent_updates : list ExecutionUpdate;
  notifications : list NotificationEventDTO;
  credentials_store : list (string * Credentials); (* (user_id, credentials) *)
  held_locks : list (string * string);             (* credential locks this worker holds, as (user_id, credentials_id) *)
  block_runs : list string;                        (* node_exec_ids whose block was invoked *)
  credits : Z;                                     (* the user's balance *)
  yielded : list NodeExecutionEntry;               (* what a generator has yielded so far *)
  intake_queue : list GraphExecutionEntry;         (* [ExecutionManager.queue] *)
}.

Definition with_node_executions (f : list NodeExecutionResult → list NodeExecutionResult)
    (w : World) : World :=
  {| graphs := graphs w; nodes := nodes w; node_executions := f (node_executions w);
     execution_outputs := execution_outputs w; graph_executions := graph_executions w;
     sent_updates := sent_updates w; notifications := notifications w;
     credentials_store := credentials_store w; held_locks := held_locks w;
     block_runs := block_runs w; credits := credits w; yielded := yielded w;
     intake_queue := intake_queue w |}.

Definition with_execution_outputs
    (f : list (string * (string * pyval)) → list (string * (string * pyval)))
    (w : World) : World :=
  {| graphs := graphs w; nodes := nodes w; node_executions := node_executions w;
     execution_outputs := f (execution_outputs w); graph_executions := graph_executions w;
     sent_updates := sent_updates w; notifications := notifications w;
     credentials_store := credentials_store w; held_locks := held_locks w;
     block_runs := block_runs w; credits := credits w; yielded := yielded w;
     intake_queue := intake_queue w |}.

Definition with_graph_executions
    (f : gmap string GraphExecutionMeta → gmap string GraphExecutionMeta)
    (w : World) : World :=
  {| graphs := graphs w; nodes := nodes w; node_executions := node_executions w;
     execution_outputs := execution_outputs w; graph_executions := f (graph_executions w);
     sent_updates := sent_updates w; notifications := notifications w;
     credentials_store := credentials_store w; held_locks := held_locks w;
     block_runs := block_runs w; credits := credits w; yielded := yielded w;
     intake_queue := intake_queue w |}.

Definition with_sent_updates (f : list ExecutionUpdate → list ExecutionUpdate)
    (w : World) : World :=
  {| graphs := graphs w; nodes := nodes w; node_executions := node_executions w;
     execution_outputs := execution_outputs w; graph_executions := graph_executions w;
     sent_updates := f (sent_updates w); notifications := notifications w;
     credentials_store := credentials_store w; held_locks := held_locks w;
     block_runs := block_runs w; credits := credits w; yielded := yielded w;
     intake_queue := intake_queue w |}.

Definition with_notifications (f : list NotificationEventDTO → list NotificationEventDTO)
    (w : World) : World :=
  {| graphs := graphs w; nodes := nodes w; node_executions := node_executions w;
     execution_outputs := execution_outputs w; graph_executions := graph_executions w;
     sent_updates := sent_updates w; notifications := f (notifications w);
     credentials_store := credentials_store w; held_locks := held_locks w;
     block_runs := block_runs w; credits := credits w; yielded := yielded w;
     intake_queue := intake_queue w |}.

Definition with_held_locks (f : list (string * string) → list (string * string))
    (w : World) : World :=
  {| graphs := graphs w; nodes := nodes w; node_executions := node_executions w;
     execution_outputs := execution_outputs w; graph_executions := graph_executions w;
     sent_updates := sent_updates w; notifications := notifications w;
     credentials_store := credentials_store w; held_locks := f (held_locks w);
     block_runs := block_runs w; credits := credits w; yielded := yielded w;
     intake_queue := intake_queue w |}.

Definition with_block_runs (f : list string → list string) (w : World) : World :=
  {| graphs := graphs w; nodes := nodes w; node_executions := node_executions w;
     execution_outputs := execution_outputs w; graph_executions := graph_executions w;
     sent_updates := sent_updates w; notifications := notifications w;
     credentials_store := credentials_store w; held_locks := held_locks w;
     block_runs := f (block_runs w); credits := credits w; yielded := yielded w;
     intake_queue := intake_queue w |}.

Definition with_credits (f : Z → Z) (w : World) : World :=
  {| graphs := graphs w; nodes := nodes w; node_executions := node_executions w;
     execution_outputs := execution_outputs w; graph_executions := graph_executions w;
     sent_updates := sent_updates w; notifications := notifications w;
     credentials_store := credentials_store w; held_locks := held_locks w;
     block_runs := block_runs w; credits := f (credits w); yielded := yielded w;
     intake_queue := intake_queue w |}.

Definition with_yielded (f : list NodeExecutionEntry → list NodeExecutionEntry)
    (w : World) : World :=
  {| graphs := graphs w; nodes := nodes w; node_executions := node_executions w;
     execution_outputs := execution_outputs w; graph_executions := graph_executions w;
     sent_updates := sent_updates w; notifications := notifications w;
     credentials_store := credentials_store w; held_locks := held_locks w;
     block_runs := block_runs w; credits := credits w; yielded := f (yielded w);
     intake_queue := intake_queue w |}.

Definition with_intake_queue (f : list GraphExecutionEntry → list GraphExecutionEntry)
    (w : World) : World :=
  {| graphs := graphs w; nodes := nodes w; node_executions := node_executions w;
     execution_outputs := execution_outputs w; graph_executions := graph_executions w;
     sent_updates := sent_updates w; notifications := notifications w;
     credentials_store := credentials_store w; held_locks := held_locks w;
     block_runs := block_runs w; credits := credits w; yielded := yielded w;
     intake_queue := f (intake_queue w) |}.

(** ** A state-and-exception monad

    A Python statement either completes with a value or raises; what it did
    to the world before raising stays done. *)

Inductive result (A : Type) : Type :=
| Ok (a : A)
| Raised (e : exn).
Arguments Ok {A} a.
Arguments Raised {A} e.

Definition M (A : Type) : Type := World → World * result A.

Definition ret {A} (a : A) : M A := λ w, (w, Ok a).

Definition bind {A B} (m : M A) (k : A → M B) : M B :=
  λ w, match m w with
       | (w', Ok a) => k a w'
       | (w', Raised e) => (w', Raised e)
       end.

Definition raise {A} (e : exn) : M A := λ w, (w, Raised e).

Definition modify (f : World → World) : M unit := λ w, (f w, Ok ()).

Definition gets {A} (f : World → A) : M A := λ w, (w, Ok (f w)).

#[global] Instance M_ret : MRet M := @ret.
#[global] Instance M_bind : MBind M := λ A B k m, bind m k.

(** [try: body / except Exception as e: handler e] *)
Definition try_except {A} (body : M A) (handler : exn → M A) : M A :=
  λ w, match body w with
       | (w', Ok a) => (w', Ok a)
       | (w', Raised e) => handler e w'
       end.

(** [try: body / finally: fin], for a [fin] that holds no [return]: [fin]
    runs on every exit of [body]; the outcome of [body] stands unless [fin]
    itself raises. *)
Definition try_finally {A} (body : M A) (fin : M unit) : M A :=
  λ w, match body w with
       | (w', r) =>
           match fin w' with
           | (w'', Ok _) => (w'', r)
           | (w'', Raised e) => (w'', Raised e)
           end
       end.

(** [for x in xs: body x] *)
Fixpoint for_each {A} (xs : list A) (body : A → M unit) : M unit :=
  match xs with
  | [] => ret ()
  | x :: xs' => body x;; for_each xs' body
  end.

(** [[y for x in xs for y in f x]] *)
Fixpoint concat_map_M {A B} (xs : list A) (f : A → M (list B)) : M (list B) :=
  match xs with
  | [] => ret []
  | x :: xs' => ys ← f x; zs ← concat_map_M xs' f; ret (ys ++ zs)
  end.

(** [yield e] inside a generator. *)
Definition yield_ (e : NodeExecutionEntry) : M unit :=
  modify (with_yielded (λ ys, ys ++ [e])).

(** ** External collaborators

    Pure helpers the executor imports from modules outside this file
    ([backend.data.block.get_block], [backend.util.type.convert],
    [backend.data.execution], [backend.executor.utils], [Settings]).  They
    are parameters: every theorem holds for whatever they compute. *)
Record Externals : Type := {
  get_block : string → option Block;
  convert : pyval → pytype → pyval;
  parse_execution_output : string * pyval → string → pyval;
  merge_execution_input : BlockInput → BlockInput;
  block_usage_cost : Block → BlockInput → Z * BlockInput;
  execution_usage_cost : Z → Z * Z;
  frontend_base_url : string;
  platform_base_url : string;
}.

(** ** The store ([DatabaseManager]) *)

Definition row_with (status : ExecutionStatus) (input : option BlockInput)
    (r : NodeExecutionResult) : NodeExecutionResult :=
  {| r_node_exec_id := r_node_exec_id r; r_graph_exec_id := r_graph_exec_id r;
     r_graph_id := r_graph_id r; r_node_id := r_node_id r; r_block_id := r_block_id r;
     r_status := status; r_input_data := default (r_input_data r) input |}.

Definition has_id (node_exec_id : string) (r : NodeExecutionResult) : bool :=
  bool_decide (r_node_exec_id r = node_exec_id).

Definition of_run (node_id graph_exec_id : string) (r : NodeExecutionResult) : bool :=
  bool_decide (r_node_id r = node_id) && bool_decide (r_graph_exec_id r = graph_exec_id).

(** Modelled from the spec: [DatabaseManager.get_node] is not in this file;
    it returns the node definition for an id (§6), and an unknown id is an
    error. *)
Definition get_node (node_id : string) : M Node :=
  λ w, match List.find (λ n, bool_decide (n_id n = node_id)) (nodes w) with
       | Some n => (w, Ok n)
       | None => (w, Raised (ValueError ("Node " +:+ node_id +:+ " not found.")))
       end.

(** Modelled from the spec: [DatabaseManager.update_node_execution_status]
    is not in this file; it sets the status (and, when given, the resolved
    input) of the execution with that id and returns the updated row. *)
Definition update_node_execution_status (node_exec_id : string)
    (status : ExecutionStatus) (input : option BlockInput) : M NodeExecutionResult :=
  λ w, match List.find (has_id node_exec_id) (node_executions w) with
       | None =>
           (w, Raised (ValueError ("Execution " +:+ node_exec_id +:+ " not found.")))
       | Some r =>
           (with_node_executions
              (map (λ x, if has_id node_exec_id x then row_with status input x else x)) w,
            Ok (row_with status input r))
       end.

(** Modelled from the spec: [DatabaseManager.update_node_execution_status_batch]
    is not in this file; it sets the status of every listed execution. *)
Definition update_node_execution_status_batch (ids : list string)
    (status : ExecutionStatus) : M unit :=
  modify (with_node_executions
            (map (λ x, if bool_decide (r_node_exec_id x ∈ ids)
                       then row_with status None x else x))).

(** Modelled from the spec: [DatabaseManager.send_execution_update] is not
    in this file; it broadcasts the row to the observers. *)
Definition send_execution_update (u : ExecutionUpdate) : M unit :=
  modify (with_sent_updates (λ us, us ++ [u])).

(** Modelled from the spec: [DatabaseManager.upsert_execution_output] is
    not in this file; output values of a pin are append-only and ordered by
    production time (§3). *)
Definition upsert_execution_output (node_exec_id output_name : string)
    (output_data : pyval) : M unit :=
  modify (with_execution_outputs (λ os, os ++ [(node_exec_id, (output_name, output_data))])).

Fixpoint attach_input (cand : NodeExecutionResult → bool) (name : string) (v : pyval)
    (rows : list NodeExecutionResult)
    : option (NodeExecutionResult * list NodeExecutionResult) :=
  match rows with
  | [] => None
  | r :: rs =>
      if cand r then
        let r' := row_with (r_status r) (Some (<[name := v]> (r_input_data r))) r in
        Some (r', r' :: rs)
      else
        match attach_input cand name v rs with
        | Some (r', rs') => Some (r', r :: rs')
        | None => None
        end
  end.

(** Modelled from the spec: [DatabaseManager.upsert_execution_input] is not
    in this file; it attaches the value to the earliest execution of the
    sink that is still INCOMPLETE and is missing the pin, and otherwise
    creates a new INCOMPLETE execution with just this input (§4.1 step 2). *)
Definition upsert_execution_input (node_id graph_exec_id input_name : string)
    (input_data : pyval) : M (string * BlockInput) :=
  λ w,
    let cand r := of_run node_id graph_exec_id r
                  && bool_decide (r_status r = INCOMPLETE)
                  && bool_decide (r_input_data r !! input_name = None) in
    match attach_input cand input_name input_data (node_executions w) with
    | Some (r', rows') =>
        (with_node_executions (λ _, rows') w, Ok (r_node_exec_id r', r_input_data r'))
    | None =>
        let new_id := fresh (map r_node_exec_id (node_executions w)) in
        let r' := {| r_node_exec_id := new_id; r_graph_exec_id := graph_exec_id;
                     r_graph_id := default "" (ge_graph_id <$> graph_executions w !! graph_exec_id);
                     r_node_id := node_id;
                     r_block_id := default ""
                       (node_block_id <$> List.find (λ n, bool_decide (n_id n = node_id)) (nodes w));
                     r_status := INCOMPLETE;
                     r_input_data := {[ input_name := input_data ]} |} in
        (with_node_executions (λ rows, rows ++ [r']) w, Ok (new_id, r_input_data r'))
    end.

(** Modelled from the spec: [DatabaseManager.get_latest_node_execution] is
    not in this file; it is the most recent completed execution of the node
    within the run (the static cache, §4.1 step 3). *)
Definition get_latest_node_execution (node_id graph_exec_id : string)
    : M (option NodeExecutionResult) :=
  gets (λ w, last (filter (λ r, of_run node_id graph_exec_id r = true
                                ∧ r_status r = COMPLETED) (node_executions w))).

(** Modelled from the spec: [DatabaseManager.get_incomplete_node_executions]
    is not in this file; it lists the INCOMPLETE executions of the node
    within the run. *)
Definition get_incomplete_node_executions (node_id graph_exec_id : string)
    : M (list NodeExecutionResult) :=
  gets (λ w, filter (λ r, of_run node_id graph_exec_id r = true
                          ∧ r_status r = INCOMPLETE) (node_executions w)).

(** Modelled from the spec: [DatabaseManager.get_node_execution_results] is
    not in this file; with [statuses] it lists the executions of the run
    whose status is one of them. *)
Definition get_node_execution_results (graph_exec_id : string)
    (statuses : list ExecutionStatus) : M (list NodeExecutionResult) :=
  gets (λ w, filter (λ r, r_graph_exec_id r = graph_exec_id ∧ r_status r ∈ statuses)
                    (node_executions w)).

(** Modelled from the spec: [DatabaseManager.update_graph_execution_stats]
    is not in this file; it persists the status (and the stats, when given)
    of the graph execution and returns the updated row, or [None] when
    there is none. *)
Definition update_graph_execution_stats (graph_exec_id : string)
    (status : ExecutionStatus) (stats : option GraphExecutionStats)
    : M (option GraphExecutionMeta) :=
  λ w, match graph_executions w !! graph_exec_id with
       | None => (w, Ok None)
       | Some m =>
           let m' := {| ge_graph_id := ge_graph_id m; ge_user_id := ge_user_id m;
                        ge_status := status;
                        ge_stats := match stats with Some s => Some s | None => ge_stats m end |} in
           (with_graph_executions (<[graph_exec_id := m']>) w, Ok (Some m'))
       end.

(** Modelled from the spec: [DatabaseManager.update_node_execution_stats]
    is not in this file; it stores the statistics with the execution of
    that id, and, like [update_node_execution_status], fails for an id the
    table does not hold.  The statistics themselves are not part of the
    world: nothing in this file reads them back. *)
Definition update_node_execution_stats (node_exec_id : string)
    (stats : NodeExecutionStats) : M unit :=
  λ w, match List.find (has_id node_exec_id) (node_executions w) with
       | None =>
           (w, Raised (ValueError ("Execution " +:+ node_exec_id +:+ " not found.")))
       | Some _ => (w, Ok ())
       end.

(** Modelled from the spec: [DatabaseManager.get_graph_metadata] is not in
    this file; it returns the graph's metadata, of which the executor reads
    the name. *)
Definition get_graph_metadata (graph_id : string) : M (option GraphModel) :=
  gets (λ w, graphs w !! graph_id).

(** Modelled from the spec: [DatabaseManager.spend_credits] is not in this
    file; it debits the user (§4.4) and raises [InsufficientBalanceError],
    carrying the balance and the amount asked, when the balance does not
    cover the amount. *)
Definition spend_credits (user : string) (amount : Z) : M unit :=
  λ w, if credits w <? amount
       then (w, Raised (InsufficientBalanceError
                          ("Insufficient balance of " +:+ pretty (credits w)
                           +:+ ", where this will cost " +:+ pretty amount)
                          (credits w) amount))
       else (with_credits (λ c, c - amount) w, Ok ()).

(** Modelled from the spec: [NotificationManager.queue_notification] is not
    in this file; it queues the event (§6). *)
Definition queue_notification (ev : NotificationEventDTO) : M unit :=
  modify (with_notifications (λ ns, ns ++ [ev])).

(** ** Credential locks ([IntegrationCredentialsManager]) *)

(** Modelled from the spec: [IntegrationCredentialsManager.acquire] is not
    in this file; it takes the lock on [(user_id, credentials_id)] and
    returns the credentials with the lock (§6).  The lock object is
    identified with its key. *)
Definition acquire (user cid : string) : M (pyval * (string * string)) :=
  λ w, (with_held_locks (λ ls, ls ++ [(user, cid)]) w, Ok (PStr cid, (user, cid))).

Fixpoint remove_first (lock : string * string) (ls : list (string * string))
    : list (string * string) :=
  match ls with
  | [] => []
  | l :: ls' => if bool_decide (l = lock) then ls' else l :: remove_first lock ls'
  end.

(** [if creds_lock and creds_lock.locked(): creds_lock.release()] *)
Definition release_creds_lock (creds_lock : option (string * string)) : M unit :=
  match creds_lock with
  | None => ret ()
  | Some lock =>
      locked ← gets (λ w, bool_decide (lock ∈ held_locks w));
      if locked : bool then modify (with_held_locks (remove_first lock)) else ret ()
  end.

(** [CredentialsMetaInput], built from a dict value as on lines 214 and
    1126: the value must be a dict with strings under the keys id, provider
    and type. *)
Definition dict_str (d : list (string * pyval)) (key : string) : option string :=
  match List.find (λ kv, String.eqb (fst kv) key) d with
  | Some (_, PStr s) => Some s
  | _ => None
  end.

Definition credentials_meta (v : pyval) : option Credentials :=
  match v with
  | PDict d =>
      i ← dict_str d "id"; p ← dict_str d "provider"; t ← dict_str d "type";
      Some {| cred_id := i; provider := p; cred_type := t |}
  | _ => None
  end.

(** Python's rendering of a set of names in an error message. *)
Definition show_names (names : list string) : string :=
  "{" +:+ String.concat ", " (map (λ n, "'" +:+ n +:+ "'") names) +:+ "}".

Section Engine.

Variable X : Externals.

(** ** Input validation (manager.py, lines 403-454) *)

(** Lines 429-431: the loop that converts values whose type is not the
    annotated one.  It writes [data[name]] only. *)
Definition coerce_inputs (anns : list (string * pytype)) (data : BlockInput) : BlockInput :=
  foldl (λ data '(name, data_type),
           let value := py_get data name in
           if truthy value && negb (bool_decide (type_of value = data_type))
           then <[name := convert X value data_type]> data
           else data)
        data anns.

(** The dict handed to [get_missing_input] and [get_mismatch_error]
    (lines 439-442). *)
Definition merged_input (schema : BlockSchema) (node : Node) (data : BlockInput)
    (resolve_input : bool) : BlockInput :=
  let input_default := get_input_defaults schema (input_default node) in
  let data := data ∪ input_default in          (* [{**input_default, **data}] *)
  if resolve_input then merge_execution_input X data else data.

Definition validate_exec (node : Node) (data : BlockInput) (resolve_input : bool)
    : option BlockInput * string :=
  match get_block X (node_block_id node) with
  | None => (None, "Block for " +:+ node_block_id node +:+ " not found.")
  | Some node_block =>
      let schema := input_schema node_block in
      let data := coerce_inputs (annotations schema) data in
      let error_prefix :=
        "Input data missing or mismatch for `" +:+ block_name node_block +:+ "`:" in
      match get_missing_links schema data (input_links node) with
      | (_ :: _) as missing_links =>
          (None, error_prefix +:+ " unpopulated links " +:+ show_names missing_links)
      | [] =>
          let data := merged_input schema node data resolve_input in
          match get_missing_input schema data with
          | (_ :: _) as missing_input =>
              (None, error_prefix +:+ " missing input " +:+ show_names missing_input)
          | [] =>
              match get_mismatch_error schema data with
              | Some error =>
                  if String.eqb error "" then (Some data, block_name node_block)
                  else (None, error_prefix +:+ " " +:+ error)
              | None => (Some data, block_name node_block)
              end
          end
      end
  end.

(** ** The data-flow resolver (manager.py, lines 276-400) *)

Section Resolver.

Variables (node : Node) (output : string * pyval).
Variables (user graph_exec graph : string).

Definition add_enqueued_execution (node_exec_id node_id block_id : string)
    (data : BlockInput) : M NodeExecutionEntry :=
  exec_update ← update_node_execution_status node_exec_id QUEUED (Some data);
  send_execution_update (NodeUpdate exec_update);;
  ret {| user_id := user; graph_exec_id := graph_exec; graph_id := graph;
         node_exec_id := node_exec_id; node_id := node_id; block_id := block_id;
         data := data |}.

(** [{link.sink_name for link in next_node.input_links
      if link.is_static and link.sink_name not in input}] *)
Definition static_link_names (next_node : Node) (input : BlockInput) : list string :=
  map sink_name
      (List.filter (λ link, is_static link && bool_decide (input !! sink_name link = None))
                   (input_links next_node)).

(** Lines 377-378: [idata[input_name] = next_node_input[input_name]]; the
    subscript raises [KeyError] on a missing key. *)
Fixpoint fill_static (names : list string) (next_node_input idata : BlockInput)
    : M BlockInput :=
  match names with
  | [] => ret idata
  | input_name :: names' =>
      match next_node_input !! input_name with
      | None => raise (KeyError input_name)
      | Some v => fill_static names' next_node_input (<[input_name := v]> idata)
      end
  end.

(** Lines 366-393, one pass of the loop over the incomplete executions. *)
Definition complete_static (node_link : Link) (next_node : Node)
    (next_node_input : BlockInput) (iexec : NodeExecutionResult)
    : M (list NodeExecutionEntry) :=
  let idata := r_input_data iexec in
  idata ← fill_static (static_link_names next_node idata) next_node_input idata;
  let '(idata, msg) := validate_exec next_node idata true in
  match idata with
  | None => ret []
  | Some idata =>
      if bool_decide (idata = ∅) then ret []
      else
        e ← add_enqueued_execution (r_node_exec_id iexec) (sink_id node_link)
              (node_block_id next_node) idata;
        ret [e]
  end.

(** Lines 332-338: the static pins still missing are read from the latest
    execution, when there is one. *)
Definition use_latest (names : list string) (latest_execution : option NodeExecutionResult)
    (next_node_input : BlockInput) : BlockInput :=
  match latest_execution with
  | Some latest =>
      foldl (λ d name, <[name := py_get (r_input_data latest) name]> d)
            next_node_input names
  | None => next_node_input
  end.

(** Lines 340-394: validate the accumulated input; enqueue the execution
    when it is complete and, for a static link, complete the executions
    that were waiting for it. *)
Definition enqueue_complete (node_link : Link) (next_node : Node)
    (next_node_exec_id : string) (next_node_input : BlockInput)
    : M (list NodeExecutionEntry) :=
  let '(next_node_input, validation_msg) := validate_exec next_node next_node_input true in
  match next_node_input with
  | None => ret []                       (* Incomplete input data, skip queueing. *)
  | Some next_node_input =>
      if bool_decide (next_node_input = ∅) then ret []
      else
        e ← add_enqueued_execution next_node_exec_id (sink_id node_link)
              (node_block_id next_node) next_node_input;
        (* Next execution stops here if the link is not static. *)
        if negb (is_static node_link) then ret [e]
        else
          iexecs ← get_incomplete_node_executions (sink_id node_link) graph_exec;
          rest ← concat_map_M iexecs (complete_static node_link next_node next_node_input);
          ret (e :: rest)
  end.

(** Lines 312-338, for a link that carries a value.  The body runs under
    [synchronized("upsert_input-...")]; with one resolver at a time the lock
    is always free, and is left out. *)
Definition deliver (node_link : Link) (next_data : pyval) : M (list NodeExecutionEntry) :=
  next_node ← get_node (sink_id node_link);
  '(next_node_exec_id, next_node_input) ←
     upsert_execution_input (sink_id node_link) graph_exec (sink_name node_link) next_data;
  let names := static_link_names next_node next_node_input in
  latest_execution ←
    (match names with
     | [] => ret None
     | _ :: _ => get_latest_node_execution (sink_id node_link) graph_exec
     end);
  enqueue_complete node_link next_node next_node_exec_id
    (use_latest names latest_execution next_node_input).

Definition register_next_executions (node_link : Link) : M (list NodeExecutionEntry) :=
  match parse_execution_output X output (source_name node_link) with
  | PNone => ret []
  | next_data => deliver node_link next_data
  end.

Definition _enqueue_next_nodes : M (list NodeExecutionEntry) :=
  concat_map_M (output_links node) register_next_executions.

End Resolver.

(** ** The node executor (manager.py, lines 127-273) *)

(** [node.block] *)
Definition node_block_of (node : Node) : M Block :=
  match get_block X (node_block_id node) with
  | Some b => ret b
  | None => raise (ValueError ("Block " +:+ node_block_id node +:+ " not found."))
  end.

Definition update_execution_status (node_exec_id : string) (status : ExecutionStatus)
    : M NodeExecutionResult :=
  exec_update ← update_node_execution_status node_exec_id status None;
  send_execution_update (NodeUpdate exec_update);;
  ret exec_update.

Definition push_output (node_exec_id output_name : string) (output_data : pyval) : M unit :=
  upsert_execution_output node_exec_id output_name output_data.

(** Lines 211-216: the loop over the credential fields.  [creds_lock] is one
    variable, assigned on every pass. *)
Fixpoint acquire_credentials (user : string) (input_data : BlockInput)
    (fields : list string) (extra_exec_kwargs : BlockInput)
    (creds_lock : option (string * string))
    : M (BlockInput * option (string * string)) :=
  match fields with
  | [] => ret (extra_exec_kwargs, creds_lock)
  | field_name :: fields' =>
      match input_data !! field_name with
      | None => raise (KeyError field_name)
      | Some v =>
          match credentials_meta v with
          | None => raise (ValueError ("Invalid credentials input " +:+ field_name))
          | Some credentials_meta =>
              '(credentials, lock) ← acquire user (cred_id credentials_meta);
              acquire_credentials user input_data fields'
                (<[field_name := credentials]> extra_exec_kwargs) (Some lock)
          end
      end
  end.

(** What [execute_node] holds once the block is about to run. *)
Record Prepared : Type := {
  p_node : Node;
  p_block : Block;
  p_input : BlockInput;
  p_kwargs : BlockInput;
  p_lock : option (string * string);
}.

(** Lines 146-216: up to the block invocation.  [None] is the early
    [return] of a failed validation. *)
Definition execute_node_start (e : NodeExecutionEntry) : M (option Prepared) :=
  node ← get_node (node_id e);
  node_block ← node_block_of node;
  (* Sanity check: validate the execution input. *)
  let '(input_data, error) := validate_exec node (data e) false in
  match input_data with
  | None =>
      push_output (node_exec_id e) "error" (PStr error);;
      update_execution_status (node_exec_id e) FAILED;;
      ret None
  | Some input_data =>
      (* Re-shape the input data for agent block. *)
      let input_data :=
        if is_agent_executor node_block
        then <["data" := as_pydict input_data]> (input_default node)
        else input_data in
      update_execution_status (node_exec_id e) RUNNING;;
      let extra_exec_kwargs : BlockInput :=
        {[ "graph_id" := PStr (graph_id e); "node_id" := PStr (node_id e);
           "graph_exec_id" := PStr (graph_exec_id e);
           "node_exec_id" := PStr (node_exec_id e); "user_id" := PStr (user_id e) ]} in
      '(extra_exec_kwargs, creds_lock) ←
         acquire_credentials (user_id e) input_data
           (get_credentials_fields (input_schema node_block)) extra_exec_kwargs None;
      ret (Some {| p_node := node; p_block := node_block; p_input := input_data;
                   p_kwargs := extra_exec_kwargs; p_lock := creds_lock |})
  end.

(** Lines 224-238, the body of the loop over the block's outputs: the
    output is persisted and resolved, and its successors are yielded. *)
Definition process_output (node : Node) (e : NodeExecutionEntry)
    (o : string * pyval) : M unit :=
  let '(output_name, output_data) := o in
  push_output (node_exec_id e) output_name output_data;;
  execs ← _enqueue_next_nodes node (output_name, output_data)
            (user_id e) (graph_exec_id e) (graph_id e);
  for_each execs yield_.

(** Line 240 when the output sequence ends normally; the exception that
    ended it otherwise. *)
Definition end_of_outputs (e : NodeExecutionEntry) (failure : option exn) : M unit :=
  match failure with
  | Some err => raise err
  | None => update_execution_status (node_exec_id e) COMPLETED;; ret ()
  end.

(** Lines 242-258: the [except Exception as e] clause. *)
Definition on_exception (node : Node) (e : NodeExecutionEntry) (err : exn) : M unit :=
  let error_msg := exn_str err in
  push_output (node_exec_id e) "error" (PStr error_msg);;
  update_execution_status (node_exec_id e) FAILED;;
  execs ← _enqueue_next_nodes node ("error", PStr error_msg)
            (user_id e) (graph_exec_id e) (graph_id e);
  for_each execs yield_;;
  raise err.

(** Lines 219-265: the [try] statement around the block. *)
Definition run_block (e : NodeExecutionEntry) (p : Prepared) : M unit :=
  try_finally
    (try_except
       (modify (with_block_runs (λ rs, rs ++ [node_exec_id e]));;
        let '(outs, failure) := execute (p_block p) (p_input p) (p_kwargs p) in
        for_each outs (process_output (p_node p) e);;
        end_of_outputs e failure)
       (on_exception (p_node p) e))
    (* Ensure credentials are released even if execution fails *)
    (release_creds_lock (p_lock p)).

Definition execute_node (e : NodeExecutionEntry) : M unit :=
  p ← execute_node_start e;
  match p with
  | None => ret ()
  | Some p => run_block e p
  end.

(** [Executor._on_node_execution] (lines 556-585): the consumer of the
    generator.  Every yielded entry goes to the queue; an exception ends up
    in [stats.error]. *)
Definition _on_node_execution (node_exec : NodeExecutionEntry) : M (option exn) :=
  try_except (execute_node node_exec;; ret None) (λ err, ret (Some err)).

(** Lines 544-552 of [Executor.on_node_execution], once
    [_on_node_execution] has returned with [err] in [stats.error]. *)
Definition report_node_execution (node_exec : NodeExecutionEntry) (err : option exn)
    : M NodeExecutionStats :=
  (* [stats.error = e], line 585 *)
  let execution_stats :=
    {| nes_error := match err with Some e => ErrorException e | None => NoError end |} in
  (* [if isinstance(execution_stats.error, Exception): ... = str(...)] *)
  let execution_stats :=
    match nes_error execution_stats with
    | ErrorException e => {| nes_error := ErrorString (exn_str e) |}
    | _ => execution_stats
    end in
  update_node_execution_stats (node_exec_id node_exec) execution_stats;;
  ret execution_stats.

(** [Executor.on_node_execution] (lines 524-552), the function a task of
    the pool runs, without its decorator. *)
Definition on_node_execution (node_exec : NodeExecutionEntry) : M NodeExecutionStats :=
  err ← _on_node_execution node_exec;
  report_node_execution node_exec err.

(** Modelled from the spec: the decorator [error_logged] of
    [backend.util.decorator] is not in this file; it wraps the entry points
    of the workers so that an exception is logged and not raised (§7): the
    call then returns [None], and the task completes without a stats
    result (§4.3). *)
Definition error_logged {A} (f : M A) : M (option A) :=
  try_except (a ← f; ret (Some a)) (λ _, ret None).

(** Runs a generator from a state in which nothing has been yielded, and
    hands back what it yielded. *)
Definition run_generator {A} (g : M A) (w : World)
    : World * list NodeExecutionEntry * result A :=
  let '(w', r) := g (with_yielded (λ _, []) w) in
  (w', yielded w', r).

(** ** The execution manager (manager.py, lines 930-1151) *)

(** Modelled from the spec: [DatabaseManager.get_graph] is not in this
    file; it loads the graph, or [None] when there is none (§4.5 step 1). *)
Definition get_graph (graph : string) : M (option GraphModel) :=
  gets (λ w, graphs w !! graph).

(** Seed rows, each under an id the table does not hold yet. *)
Fixpoint seed_rows (graph_exec : string) (g : GraphModel)
    (nodes_input : list (string * BlockInput)) (rows : list NodeExecutionResult)
    : list NodeExecutionResult :=
  match nodes_input with
  | [] => []
  | (nid, input) :: rest =>
      let r := {| r_node_exec_id := fresh (map r_node_exec_id rows);
                  r_graph_exec_id := graph_exec; r_graph_id := gm_id g; r_node_id := nid;
                  r_block_id := default ""
                    (node_block_id <$> List.find (λ n, bool_decide (n_id n = nid)) (gm_nodes g));
                  r_status := QUEUED; r_input_data := input |} in
      r :: seed_rows graph_exec g rest (rows ++ [r])
  end.

(** Modelled from the spec: [DatabaseManager.create_graph_execution] is not
    in this file; it persists a GraphExecution with one seed NodeExecution
    per [(node_id, input)] and returns it with those executions (§4.5
    step 5). *)
Definition create_graph_execution (g : GraphModel) (nodes_input : list (string * BlockInput))
    (user : string) : M (string * GraphExecutionMeta * list NodeExecutionResult) :=
  λ w,
    let new_id := fresh (elements (dom (graph_executions w))) in
    let m := {| ge_graph_id := gm_id g; ge_user_id := user; ge_status := QUEUED;
                ge_stats := None |} in
    let rows := seed_rows new_id g nodes_input (node_executions w) in
    (with_node_executions (λ rs, rs ++ rows)
       (with_graph_executions (<[new_id := m]>) w),
     Ok (new_id, m, rows)).

(** [IntegrationCredentialsStore.get_creds_by_id] *)
Definition get_creds_by_id (user cid : string) : M (option Credentials) :=
  gets (λ w, snd <$> List.find (λ uc, bool_decide (fst uc = user)
                                    && bool_decide (cred_id (snd uc) = cid))
                               (credentials_store w)).

(** Lines 1112-1151. *)
Definition _validate_node_input_credentials (g : GraphModel) (user : string) : M unit :=
  for_each (gm_nodes g) (λ node,
    block ← node_block_of node;
    for_each (get_credentials_fields (input_schema block)) (λ field_name,
      match input_default node !! field_name with
      | None => raise (KeyError field_name)
      | Some v =>
          match credentials_meta v with
          | None => raise (ValueError ("Invalid credentials input " +:+ field_name))
          | Some credentials_meta =>
              credentials ← get_creds_by_id user (cred_id credentials_meta);
              match credentials with
              | None =>
                  raise (ValueError ("Unknown credentials #" +:+ cred_id credentials_meta
                                     +:+ " for node #" +:+ n_id node
                                     +:+ " input '" +:+ field_name +:+ "'"))
              | Some credentials =>
                  if negb (String.eqb (provider credentials) (provider credentials_meta))
                     || negb (String.eqb (cred_type credentials) (cred_type credentials_meta))
                  then raise (ValueError ("Invalid credentials #" +:+ cred_id credentials
                                          +:+ " for node #" +:+ n_id node
                                          +:+ ": type/provider mismatch"))
                  else ret ()
              end
          end
      end)).

Definition no_starting_nodes_msg : string :=
  "No starting nodes found for the graph, make sure an AgentInput or blocks with no inbound links are present as starting nodes.".

(** Lines 1004-1033, the body of the loop over [graph.starting_nodes]:
    [None] is the [continue] of a NOTE block, [Some] the pair appended to
    [nodes_input]. *)
Definition starting_node_input (data : BlockInput) (node : Node)
    : M (option (string * BlockInput)) :=
  block ← node_block_of node;
  (* Note block should never be executed. *)
  if bool_decide (block_type block = NOTE) then ret None
  else
    (* Extract request input data, and assign it to the input pin. *)
    input_data ←
      (if bool_decide (block_type block = INPUT) then
         match py_get (input_default node) "name" with
         | PStr input_name =>
             match data !! input_name with
             | Some v => if String.eqb input_name "" then ret (∅ : BlockInput)
                         else ret ({[ "value" := v ]} : BlockInput)
             | None => ret ∅
             end
         | (PList (_ :: _) | PDict (_ :: _)) => raise (TypeError "unhashable type")
         | _ => ret ∅
         end
       else ret ∅);
    (* Extract webhook payload, and assign it to the input pin *)
    input_data ←
      (match webhook_id node with
       | Some wid =>
           if (bool_decide (block_type block = WEBHOOK)
               || bool_decide (block_type block = WEBHOOK_MANUAL))
              && negb (String.eqb wid "")
           then
             match data !! ("webhook_" +:+ wid +:+ "_payload") with
             | None => raise (ValueError ("Node " +:+ block_name block +:+ " #" +:+ n_id node
                                          +:+ " webhook payload is missing"))
             | Some v => ret ({[ "payload" := v ]} : BlockInput)
             end
           else ret input_data
       | None => ret input_data
       end);
    let '(input_data, error) := validate_exec node input_data true in
    match input_data with
    | None => raise (ValueError error)
    | Some input_data => ret (Some (n_id node, input_data))
    end.

Fixpoint collect_nodes_input (data : BlockInput) (starting : list Node)
    : M (list (string * BlockInput)) :=
  match starting with
  | [] => ret []
  | node :: rest =>
      r ← starting_node_input data node;
      rs ← collect_nodes_input data rest;
      ret (match r with Some p => p :: rs | None => rs end)
  end.

Definition add_execution (graph : string) (data : BlockInput) (user : string)
    (graph_version : option Z) : M GraphExecutionEntry :=
  g ← get_graph graph;
  match g with
  | None => raise (ValueError ("Graph #" +:+ graph +:+ " not found."))
  | Some g =>
      match validate_graph g with Some err => raise err | None => ret () end;;
      _validate_node_input_credentials g user;;
      nodes_input ← collect_nodes_input data (starting_nodes g);
      match nodes_input with
      | [] => raise (ValueError no_starting_nodes_msg)
      | _ :: _ =>
          '(graph_exec, m, rows) ← create_graph_execution g nodes_input user;
          send_execution_update (GraphUpdate graph_exec m);;
          let graph_exec_entry :=
            {| g_user_id := user; g_graph_id := graph;
               g_graph_version := default 0 graph_version;
               g_graph_exec_id := graph_exec;
               start_node_execs :=
                 map (λ node_exec,
                        {| user_id := user; graph_exec_id := r_graph_exec_id node_exec;
                           graph_id := r_graph_id node_exec;
                           node_exec_id := r_node_exec_id node_exec;
                           node_id := r_node_id node_exec;
                           block_id := r_block_id node_exec;
                           data := r_input_data node_exec |}) rows |} in
          modify (with_intake_queue (λ q, q ++ [graph_exec_entry]));;
          ret graph_exec_entry
      end
  end.

(** An entry of [active_graph_runs]: whether the cancel event is already
    set, and what the world goes through while [future.result()] waits for
    the graph worker to return. *)
Record ActiveRun : Type := {
  cancel_is_set : bool;
  future_result : M unit;
}.

(** Lines 1080-1089. *)
Definition await_cancelled (active : option ActiveRun) : M unit :=
  match active with
  | None => ret ()
  | Some run => if cancel_is_set run then ret () else future_result run
  end.

Definition cancel_execution (graph_exec : string) (active : option ActiveRun) : M unit :=
  await_cancelled active;;
  (* Update the status of the graph & node executions *)
  update_graph_execution_stats graph_exec TERMINATED None;;
  node_execs ← get_node_execution_results graph_exec [QUEUED; RUNNING; INCOMPLETE];
  update_node_execution_status_batch (map r_node_exec_id node_execs) TERMINATED;;
  for_each node_execs (λ node_exec,
    send_execution_update (NodeUpdate (row_with TERMINATED None node_exec))).

(** ** The graph scheduler (manager.py, lines 620-927) *)

Definition add_cost (c : Z) (s : GraphExecutionStats) : GraphExecutionStats :=
  {| node_count := node_count s; node_error_count := node_error_count s;
     cost := cost s + c; stats_error := stats_error s |}.

(** [Executor._charge_usage] (lines 653-698).  [execution_stats] is an
    object updated in place, so what was added to it before a debit raised
    stays added: the stats are handed back on every exit. *)
Definition _charge_usage (node_exec : NodeExecutionEntry) (execution_count : Z)
    (execution_stats : GraphExecutionStats) (w : World)
    : World * GraphExecutionStats * result Z :=
  match get_block X (block_id node_exec) with
  | None => (w, execution_stats, Ok execution_count)
  | Some block =>
      let '(cost1, matching_filter) := block_usage_cost X block (data node_exec) in
      match (if 0 <? cost1 then spend_credits (user_id node_exec) cost1 w else (w, Ok ())) with
      | (w, Raised err) => (w, execution_stats, Raised err)
      | (w, Ok _) =>
          let execution_stats :=
            if 0 <? cost1 then add_cost cost1 execution_stats else execution_stats in
          let '(cost2, execution_count) := execution_usage_cost X execution_count in
          match (if 0 <? cost2 then spend_credits (user_id node_exec) cost2 w
                 else (w, Ok ())) with
          | (w, Raised err) => (w, execution_stats, Raised err)
          | (w, Ok _) =>
              (w, if 0 <? cost2 then add_cost cost2 execution_stats else execution_stats,
               Ok execution_count)
          end
      end
  end.

(** [Executor._handle_low_balance_notif] (lines 903-927); [balance] and
    [amount] are the fields of the [InsufficientBalanceError]. *)
Definition _handle_low_balance_notif (user graph : string)
    (exec_stats : GraphExecutionStats) (balance amount : Z) : M unit :=
  let shortfall := balance - amount in
  metadata ← get_graph_metadata graph;
  let base_url :=
    if String.eqb (frontend_base_url X) "" then platform_base_url X
    else frontend_base_url X in
  queue_notification
    {| n_user_id := user; n_type := LOW_BALANCE;
       n_data := LowBalance
         {| current_balance := cost exec_stats;
            billing_page_link := base_url +:+ "/profile/credits";
            shortfall := shortfall;
            lb_agent_name := match metadata with
                             | Some m => gm_name m
                             | None => "Unknown Agent"
                             end |} |}.

(** [Executor._handle_agent_run_notif] (lines 866-901), without the named
    outputs of the payload. *)
Definition _handle_agent_run_notif (graph_exec : GraphExecutionEntry)
    (exec_stats : GraphExecutionStats) : M unit :=
  metadata ← get_graph_metadata (g_graph_id graph_exec);
  queue_notification
    {| n_user_id := g_user_id graph_exec; n_type := AGENT_RUN;
       n_data := AgentRun
         {| ar_agent_name := match metadata with
                             | Some m => gm_name m
                             | None => "Unknown Agent"
                             end;
            credits_used := cost exec_stats;
            ar_graph_id := g_graph_id graph_exec;
            ar_node_count := node_count exec_stats |} |}.

(** *** Tasks of the node-worker pool *)

(** A task is one [apply_async(on_node_execution, (queue, exec_data))].  Its
    worker runs [execute_node] one stretch at a time: [Pending] before the
    worker starts, [Streaming] while the block's remaining outputs are
    consumed, [Done] once the result is set and the callback has run; the
    argument of [Done] is the exception [_on_node_execution] caught, if any.
    [Killed] is a task whose pool was terminated: its result is never set. *)
Inductive TaskState : Type :=
| Pending
| Streaming (p : Prepared) (outs : list (string * pyval)) (failure : option exn)
| Done (err : option exn)
| Killed.

Record Task : Type := {
  t_entry : NodeExecutionEntry;
  t_state : TaskState;
  t_result : option NodeExecutionStats;        (* the value of the [AsyncResult], when it is a [NodeExecutionStats] *)
}.

(** [AsyncResult.ready()] *)
Definition ready (t : Task) : bool :=
  match t_state t with Done _ => true | _ => false end.

(** One stretch of the worker of entry [e]: the new task state, in the
    world the stretch leaves, with the entries it yielded. *)
Definition worker_stretch (e : NodeExecutionEntry) (st : TaskState) (w : World)
    : option (World * list NodeExecutionEntry * TaskState) :=
  match st with
  | Pending =>
      match run_generator (execute_node_start e) w with
      | (w', ys, Raised err) => Some (w', ys, Done (Some err))
      | (w', ys, Ok None) => Some (w', ys, Done None)
      | (w', ys, Ok (Some p)) =>
          let '(outs, failure) := execute (p_block p) (p_input p) (p_kwargs p) in
          Some (with_block_runs (λ rs, rs ++ [node_exec_id e]) w', ys,
                Streaming p outs failure)
      end
  | Streaming p (o :: outs) failure =>
      match run_generator (process_output (p_node p) e o) w with
      | (w', ys, Ok _) => Some (w', ys, Streaming p outs failure)
      | (w', ys, Raised err) =>
          match try_finally (on_exception (p_node p) e err)
                            (release_creds_lock (p_lock p)) w' with
          | (w'', Ok _) => Some (w'', yielded w'', Done None)
          | (w'', Raised err') => Some (w'', yielded w'', Done (Some err'))
          end
      end
  | Streaming p [] failure =>
      match run_generator
              (try_finally (try_except (end_of_outputs e failure)
                                       (on_exception (p_node p) e))
                           (release_creds_lock (p_lock p))) w with
      | (w', ys, Ok _) => Some (w', ys, Done None)
      | (w', ys, Raised err) => Some (w', ys, Done (Some err))
      end
  | Done _ | Killed => None
  end.

(** *** The scheduler's variables *)

Inductive MainPc : Type :=
| AtLoop                                       (* line 774: [while not queue.empty()] *)
| AtWaitSame (e : NodeExecutionEntry) (t : nat) (* line 788: inside [execution.wait()] *)
| AtCharge (e : NodeExecutionEntry)            (* lines 790-821 *)
| AtSubmit (e : NodeExecutionEntry)            (* lines 823-827 *)
| AtIdle                                       (* line 830 *)
| AtIdleFor (items : list (string * nat))      (* lines 834-843 *)
| AtFinally                                    (* lines 849-856 *)
| AtFinished                                   (* lines 858-860 *)
| AtJoin                                       (* lines 861-862 *)
| AtReturn                                     (* line 864, back in [on_graph_execution] *)
| Exited.

(** The cancel-watcher thread, [cancel_handler] (lines 720-730). *)
Inductive WatcherPc : Type :=
| WWait                                        (* lines 723-724 *)
| WCheck                                       (* line 725 *)
| WSet                                         (* line 727 *)
| WTerminate                                   (* line 728 *)
| WInit                                        (* line 730 *)
| WDone.

Record Sched : Type := {
  world : World;
  queue : list NodeExecutionEntry;
  running_executions : gmap string nat;        (* node_id ↦ the task, by index in [tasks] *)
  tasks : list Task;                           (* every task submitted, in order *)
  pool_up : bool;                              (* [cls.executor] is a running pool *)
  execution_stats : GraphExecutionStats;
  execution_status : ExecutionStatus;
  error : option exn;
  finished : bool;
  cancel : bool;
  exec_cost_counter : Z;
  returned : option ExecutionStatus;           (* the status [_on_graph_execution] returned *)
  pc : MainPc;
  watcher : WatcherPc;
}.

Definition set_pc (x : MainPc) (s : Sched) : Sched :=
  {| world := world s; queue := queue s; running_executions := running_executions s;
     tasks := tasks s; pool_up := pool_up s; execution_stats := execution_stats s;
     execution_status := execution_status s; error := error s; finished := finished s;
     cancel := cancel s; exec_cost_counter := exec_cost_counter s;
     returned := returned s; pc := x; watcher := watcher s |}.

Definition set_watcher (x : WatcherPc) (s : Sched) : Sched :=
  {| world := world s; queue := queue s; running_executions := running_executions s;
     tasks := tasks s; pool_up := pool_up s; execution_stats := execution_stats s;
     execution_status := execution_status s; error := error s; finished := finished s;
     cancel := cancel s; exec_cost_counter := exec_cost_counter s;
     returned := returned s; pc := pc s; watcher := x |}.

Definition set_world (x : World) (s : Sched) : Sched :=
  {| world := x; queue := queue s; running_executions := running_executions s;
     tasks := tasks s; pool_up := pool_up s; execution_stats := execution_stats s;
     execution_status := execution_status s; error := error s; finished := finished s;
     cancel := cancel s; exec_cost_counter := exec_cost_counter s;
     returned := returned s; pc := pc s; watcher := watcher s |}.

Definition set_queue (x : list NodeExecutionEntry) (s : Sched) : Sched :=
  {| world := world s; queue := x; running_executions := running_executions s;
     tasks := tasks s; pool_up := pool_up s; execution_stats := execution_stats s;
     execution_status := execution_status s; error := error s; finished := finished s;
     cancel := cancel s; exec_cost_counter := exec_cost_counter s;
     returned := returned s; pc := pc s; watcher := watcher s |}.

Definition set_running_executions (x : gmap string nat) (s : Sched) : Sched :=
  {| world := world s; queue := queue s; running_executions := x;
     tasks := tasks s; pool_up := pool_up s; execution_stats := execution_stats s;
     execution_status := execution_status s; error := error s; finished := finished s;
     cancel := cancel s; exec_cost_counter := exec_cost_counter s;
     returned := returned s; pc := pc s; watcher := watcher s |}.

Definition set_tasks (x : list Task) (s : Sched) : Sched :=
  {| world := world s; queue := queue s; running_executions := running_executions s;
     tasks := x; pool_up := pool_up s; execution_stats := execution_stats s;
     execution_status := execution_status s; error := error s; finished := finished s;
     cancel := cancel s; exec_cost_counter := exec_cost_counter s;
     returned := returned s; pc := pc s; watcher := watcher s |}.

Definition set_pool_up (x : bool) (s : Sched) : Sched :=
  {| world := world s; queue := queue s; running_executions := running_executions s;
     tasks := tasks s; pool_up := x; execution_stats := execution_stats s;
     execution_status := execution_status s; error := error s; finished := finished s;
     cancel := cancel s; exec_cost_counter := exec_cost_counter s;
     returned := returned s; pc := pc s; watcher := watcher s |}.

Definition set_execution_stats (x : GraphExecutionStats) (s : Sched) : Sched :=
  {| world := world s; queue := queue s; running_executions := running_executions s;
     tasks := tasks s; pool_up := pool_up s; execution_stats := x;
     execution_status := execution_status s; error := error s; finished := finished s;
     cancel := cancel s; exec_cost_counter := exec_cost_counter s;
     returned := returned s; pc := pc s; watcher := watcher s |}.

Definition set_execution_status (x : ExecutionStatus) (s : Sched) : Sched :=
  {| world := world s; queue := queue s; running_executions := running_executions s;
     tasks := tasks s; pool_up := pool_up s; execution_stats := execution_stats s;
     execution_status := x; error := error s; finished := finished s;
     cancel := cancel s; exec_cost_counter := exec_cost_counter s;
     returned := returned s; pc := pc s; watcher := watcher s |}.

Definition set_error (x : option exn) (s : Sched) : Sched :=
  {| world := world s; queue := queue s; running_executions := running_executions s;
     tasks := tasks s; pool_up := pool_up s; execution_stats := execution_stats s;
     execution_status := execution_status s; error := x; finished := finished s;
     cancel := cancel s; exec_cost_counter := exec_cost_counter s;
     returned := returned s; pc := pc s; watcher := watcher s |}.

Definition set_finished (x : bool) (s : Sched) : Sched :=
  {| world := world s; queue := queue s; running_executions := running_executions s;
     tasks := tasks s; pool_up := pool_up s; execution_stats := execution_stats s;
     execution_status := execution_status s; error := error s; finished := x;
     cancel := cancel s; exec_cost_counter := exec_cost_counter s;
     returned := returned s; pc := pc s; watcher := watcher s |}.

Definition set_cancel (x : bool) (s : Sched) : Sched :=
  {| world := world s; queue := queue s; running_executions := running_executions s;
     tasks := tasks s; pool_up := pool_up s; execution_stats := execution_stats s;
     execution_status := execution_status s; error := error s; finished := finished s;
     cancel := x; exec_cost_counter := exec_cost_counter s;
     returned := returned s; pc := pc s; watcher := watcher s |}.

Definition set_exec_cost_counter (x : Z) (s : Sched) : Sched :=
  {| world := world s; queue := queue s; running_executions := running_executions s;
     tasks := tasks s; pool_up := pool_up s; execution_stats := execution_stats s;
     execution_status := execution_status s; error := error s; finished := finished s;
     cancel := cancel s; exec_cost_counter := x;
     returned := returned s; pc := pc s; watcher := watcher s |}.

Definition set_returned (x : option ExecutionStatus) (s : Sched) : Sched :=
  {| world := world s; queue := queue s; running_executions := running_executions s;
     tasks := tasks s; pool_up := pool_up s; execution_stats := execution_stats s;
     execution_status := execution_status s; error := error s; finished := finished s;
     cancel := cancel s; exec_cost_counter := exec_cost_counter s;
     returned := x; pc := pc s; watcher := watcher s |}.

(** *** The moves of the threads *)

Section Scheduler.

Variable graph_exec : GraphExecutionEntry.

Definition task_ready (s : Sched) (t : nat) : bool :=
  match tasks s !! t with
  | Some task => ready task
  | None => false
  end.

(** [make_exec_callback(exec_data)] (lines 743-772), applied to the
    result the pool hands over: [None] stands for a result that is not a
    [NodeExecutionStats]. *)
Definition callback_on (exec_data : NodeExecutionEntry) (result : option NodeExecutionStats)
    (s : Sched) : Sched :=
  let s := set_running_executions (delete (node_id exec_data) (running_executions s)) s in
  match result with
  | None => s
  | Some result =>
      let stats := execution_stats s in
      let stats := {| node_count := node_count stats + 1;
                      node_error_count :=
                        match nes_error result with
                        | ErrorException _ => node_error_count stats + 1
                        | _ => node_error_count stats
                        end;
                      cost := cost stats; stats_error := stats_error stats |} in
      let '(w, r) := update_graph_execution_stats (graph_exec_id exec_data)
                       (execution_status s) (Some stats) (world s) in
      let w := match r with
               | Ok (Some m) =>
                   fst (send_execution_update (GraphUpdate (graph_exec_id exec_data) m) w)
               | _ => w
               end in
      set_world w (set_execution_stats stats s)
  end.

(** The callback on statistics that carry no error. *)
Definition callback (exec_data : NodeExecutionEntry) (s : Sched) : Sched :=
  callback_on exec_data (Some {| nes_error := NoError |}) s.

(** What a task hands to the pool once [_on_node_execution] has returned
    with [err]: the rest of [on_node_execution] runs under [error_logged]. *)
Definition task_result (exec_data : NodeExecutionEntry) (err : option exn) (w : World)
    : World * option NodeExecutionStats :=
  match error_logged (report_node_execution exec_data err) w with
  | (w', Ok result) => (w', result)
  | (w', Raised _) => (w', None)
  end.

(** A worker process runs one stretch of task [t]; what it yields goes to
    the queue; when the worker returns, the pool sets the result of the
    task and runs its callback. *)
Definition work (t : nat) (s : Sched) : option Sched :=
  match tasks s !! t with
  | None => None
  | Some task =>
      match worker_stretch (t_entry task) (t_state task) (world s) with
      | None => None
      | Some (w, ys, st) =>
          let '(w, result) := match st with
                              | Done err => task_result (t_entry task) err w
                              | _ => (w, None)
                              end in
          let s := set_world w
                     (set_queue (queue s ++ ys)
                        (set_tasks (<[t := {| t_entry := t_entry task; t_state := st;
                                              t_result := result |}]>
                                      (tasks s)) s)) in
          Some (match st with
                | Done _ => callback_on (t_entry task) result s
                | _ => s
                end)
      end
  end.

(** Lines 801-821, after [str(error)] went to the error pin and
    [execution_status] was set. *)
Definition fail_low_balance (exec_data : NodeExecutionEntry)
    (execution_stats : GraphExecutionStats) (balance amount : Z) : M unit :=
  exec_update ← update_node_execution_status (node_exec_id exec_data) FAILED None;
  send_execution_update (NodeUpdate exec_update);;
  _handle_low_balance_notif (g_user_id graph_exec) (g_graph_id graph_exec)
    execution_stats balance amount.

(** The tail of [on_graph_execution] (lines 640-651). *)
Definition persist_result (status : ExecutionStatus) (exec_stats : GraphExecutionStats)
    (error : option exn) : M unit :=
  let exec_stats :=
    {| node_count := node_count exec_stats; node_error_count := node_error_count exec_stats;
       cost := cost exec_stats;
       stats_error := match error with Some e => exn_str e | None => "None" end |} in
  graph_exec_result ← update_graph_execution_stats (g_graph_exec_id graph_exec) status
                        (Some exec_stats);
  match graph_exec_result with
  | Some m => send_execution_update (GraphUpdate (g_graph_exec_id graph_exec) m)
  | None => ret ()
  end;;
  _handle_agent_run_notif graph_exec exec_stats.

(** The scheduler thread, [_on_graph_execution], from one program point to
    the next.  [None]: the thread is blocked, or has exited. *)
Definition main_step (s : Sched) : option Sched :=
  match pc s with
  | AtLoop =>
      match queue s with
      | [] => Some (set_pc AtFinally s)
      | exec_data :: rest =>
          if cancel s then
            (* [return] inside [try]: the [finally] clause runs next *)
            Some (set_pc AtFinally (set_execution_status TERMINATED s))
          else
            let s := set_queue rest s in
            (* Avoid parallel execution of the same node. *)
            match running_executions s !! node_id exec_data with
            | Some t =>
                if task_ready s t then Some (set_pc (AtCharge exec_data) s)
                else Some (set_pc (AtWaitSame exec_data t) s)
            | None => Some (set_pc (AtCharge exec_data) s)
            end
      end
  | AtWaitSame exec_data t =>
      if task_ready s t then Some (set_pc (AtCharge exec_data) s) else None
  | AtCharge exec_data =>
      match _charge_usage exec_data (exec_cost_counter s + 1) (execution_stats s) (world s) with
      | (w, stats, Ok count) =>
          Some (set_pc (AtSubmit exec_data)
                  (set_exec_cost_counter count (set_execution_stats stats (set_world w s))))
      | (w, stats, Raised (InsufficientBalanceError msg balance amount as err)) =>
          let '(w, _) := upsert_execution_output (node_exec_id exec_data) "error"
                           (PStr (exn_str err)) w in
          let s := set_execution_status FAILED (set_execution_stats stats s) in
          match fail_low_balance exec_data stats balance amount w with
          | (w, Ok _) => Some (set_pc AtFinally (set_error (Some err) (set_world w s)))
          | (w, Raised err') => Some (set_pc AtFinally (set_error (Some err') (set_world w s)))
          end
      | (w, stats, Raised err) =>
          Some (set_pc AtFinally
                  (set_error (Some err) (set_execution_stats stats (set_world w s))))
      end
  | AtSubmit exec_data =>
      if pool_up s then
        Some (set_pc AtIdle
                (set_running_executions
                   (<[node_id exec_data := length (tasks s)]> (running_executions s))
                   (set_tasks (tasks s ++ [{| t_entry := exec_data; t_state := Pending;
                                              t_result := None |}]) s)))
      else
        Some (set_pc AtFinally (set_error (Some (ValueError "Pool not running")) s))
  | AtIdle =>
      (* Avoid terminating graph execution when some nodes are still running. *)
      match queue s with
      | [] => if bool_decide (running_executions s = ∅) then Some (set_pc AtLoop s)
              else Some (set_pc (AtIdleFor (map_to_list (running_executions s))) s)
      | _ :: _ => Some (set_pc AtLoop s)
      end
  | AtIdleFor [] => Some (set_pc AtIdle s)
  | AtIdleFor ((nid, t) :: items) =>
      if cancel s then Some (set_pc AtFinally (set_execution_status TERMINATED s))
      else
        match queue s with
        | _ :: _ => Some (set_pc AtIdle s)         (* [break] *)
        | [] => Some (set_pc (AtIdleFor items) s)  (* [execution.wait(3)] *)
        end
  | AtFinally =>
      Some (set_pc AtFinished
              (set_execution_status (match error s with
                                     | Some _ => FAILED
                                     | None => COMPLETED
                                     end) s))
  | AtFinished =>
      if cancel s then Some (set_pc AtJoin s)
      else Some (set_pc AtJoin (set_cancel true (set_finished true s)))
  | AtJoin =>
      match watcher s with
      | WDone => Some (set_pc AtReturn (set_returned (Some (execution_status s)) s))
      | _ => None
      end
  | AtReturn =>
      match returned s with
      | Some status =>
          let '(w, _) := persist_result status (execution_stats s) (error s) (world s) in
          Some (set_pc Exited (set_world w s))
      | None => None
      end
  | Exited => None
  end.

(** [Pool.terminate()] leaves the unfinished tasks without a result. *)
Definition kill (t : Task) : Task :=
  {| t_entry := t_entry t;
     t_state := match t_state t with Done err => Done err | _ => Killed end;
     t_result := t_result t |}.

(** The cancel-watcher thread, [cancel_handler]. *)
Definition watcher_step (s : Sched) : option Sched :=
  match watcher s with
  | WWait => if cancel s then Some (set_watcher WCheck s) else None
  | WCheck => Some (set_watcher (if finished s then WDone else WSet) s)
  | WSet => Some (set_watcher WTerminate (set_execution_status TERMINATED s))
  | WTerminate => Some (set_watcher WInit (set_pool_up false (set_tasks (map kill (tasks s)) s)))
  | WInit => Some (set_watcher WDone (set_pool_up true s))
  | WDone => None
  end.

Inductive label : Type :=
| Main                  (* the scheduler thread moves *)
| Watch                 (* the cancel-watcher thread moves *)
| Work (t : nat)        (* the worker of task [t] moves *)
| SetCancel.            (* [cancel_event.set()], from [cancel_execution] *)

Definition step (l : label) (s : Sched) : option Sched :=
  match l with
  | Main => main_step s
  | Watch => watcher_step s
  | Work t => work t s
  | SetCancel => Some (set_cancel true s)
  end.

Fixpoint run (ls : list label) (s : Sched) : option Sched :=
  match ls with
  | [] => Some s
  | l :: ls' =>
      match step l s with
      | Some s' => run ls' s'
      | None => None
      end
  end.

(** The state in which [_on_graph_execution] enters its loop (lines
    714-741): the queue holds the starting executions. *)
Definition init (w : World) : Sched :=
  {| world := w; queue := start_node_execs graph_exec; running_executions := ∅;
     tasks := []; pool_up := true; execution_stats := GraphExecutionStats_new;
     execution_status := RUNNING; error := None; finished := false; cancel := false;
     exec_cost_counter := 0; returned := None; pc := AtLoop; watcher := WWait |}.

End Scheduler.

End Engine.

(** ** A small catalog and graph, for the examples *)

Module Demo.

(** A schema in the style of the block catalog: every linked pin must have
    arrived, the required fields and the credential fields must be present,
    the typed fields must hold values of their type and the credential
    fields well-formed credentials meta values. *)
Definition schema (required : list string) (types : list (string * pytype))
    (creds : list string) : BlockSchema :=
  {| annotations := types;
     get_missing_links := λ data links,
       List.filter (λ n, bool_decide (data !! n = None)) (map sink_name links);
     get_input_defaults := λ d, d;
     get_missing_input := λ data,
       List.filter (λ n, bool_decide (data !! n = None)) (creds ++ required);
     get_mismatch_error := λ data,
       match List.find (λ n, match data !! n ≫= credentials_meta with
                             | Some _ => false
                             | None => true
                             end) creds with
       | Some n => Some ("'" +:+ n +:+ "' is not a credentials input")
       | None =>
           match List.find (λ '(n, t), match data !! n with
                                       | Some v => negb (bool_decide (type_of v = t))
                                       | None => false
                                       end) types with
           | Some (n, _) => Some ("'" +:+ n +:+ "' has the wrong type")
           | None => None
           end
       end;
     get_credentials_fields := creds |}.

Definition emit (outs : list (string * pyval)) (failure : option exn)
    : BlockInput → BlockInput → list (string * pyval) * option exn :=
  λ _ _, (outs, failure).

Definition producer : Block :=
  {| block_name := "Producer"; block_type := STANDARD; input_schema := schema [] [] [];
     is_agent_executor := false; execute := emit [("out", PInt 7)] None |}.

Definition consumer : Block :=
  {| block_name := "Consumer"; block_type := STANDARD;
     input_schema := schema ["x"; "cfg"] [("x", TInt)] [];
     is_agent_executor := false; execute := emit [("out", PStr "done")] None |}.

Definition failing : Block :=
  {| block_name := "Failing"; block_type := STANDARD; input_schema := schema [] [] [];
     is_agent_executor := false; execute := emit [] (Some (BlockFailure "nope")) |}.

Definition note : Block :=
  {| block_name := "Note"; block_type := NOTE; input_schema := schema [] [] [];
     is_agent_executor := false; execute := emit [] None |}.

Definition needy : Block :=
  {| block_name := "Needy"; block_type := STANDARD; input_schema := schema ["x"] [] [];
     is_agent_executor := false; execute := emit [] None |}.

Definition mailer : Block :=
  {| block_name := "Mailer"; block_type := STANDARD;
     input_schema := schema [] [] ["credentials_a"; "credentials_b"];
     is_agent_executor := false; execute := emit [("out", PStr "sent")] None |}.

Definition paid : Block :=
  {| block_name := "Paid"; block_type := STANDARD; input_schema := schema [] [] [];
     is_agent_executor := false; execute := emit [("out", PInt 1)] None |}.

Definition catalog : list (string * Block) :=
  [("producer", producer); ("consumer", consumer); ("failing", failing);
   ("note", note); ("needy", needy); ("mailer", mailer); ("paid", paid)].

Definition X : Externals :=
  {| get_block := λ bid, snd <$> List.find (λ kb, String.eqb (fst kb) bid) catalog;
     convert := λ v _, v;
     parse_execution_output := λ output name,
       if String.eqb (fst output) name then snd output else PNone;
     merge_execution_input := λ d, d;
     block_usage_cost := λ b _, (if String.eqb (block_name b) "Paid" then 10 else 0, ∅);
     execution_usage_cost := λ count, (0, count);
     frontend_base_url := "https://app.example";
     platform_base_url := "https://api.example" |}.

Definition link (src sink src_pin sink_pin : string) (static : bool) : Link :=
  {| source_id := src; sink_id := sink; source_name := src_pin; sink_name := sink_pin;
     is_static := static |}.

(** [B.out → C.x] is dynamic, [A.out → C.cfg] is static. *)
Definition link_x : Link := link "B" "C" "out" "x" false.
Definition link_cfg : Link := link "A" "C" "out" "cfg" true.
Definition link_err : Link := link "F" "D" "error" "x" false.

Definition node (nid bid : string) (ins outs : list Link) : Node :=
  {| n_id := nid; node_block_id := bid; input_default := ∅; input_links := ins;
     output_links := outs; webhook_id := None |}.

Definition node_A : Node := node "A" "producer" [] [link_cfg].
Definition node_B : Node := node "B" "producer" [] [link_x].
Definition node_C : Node := node "C" "consumer" [link_x; link_cfg] [].
Definition node_F : Node := node "F" "failing" [] [link_err].
Definition node_D : Node := node "D" "needy" [link_err] [].
Definition node_N : Node := node "N" "note" [] [].
Definition node_M : Node :=
  {| n_id := "M"; node_block_id := "mailer";
     input_default :=
       {[ "credentials_a" := PDict [("id", PStr "cred-a"); ("provider", PStr "smtp");
                                    ("type", PStr "api_key")];
          "credentials_b" := PDict [("id", PStr "cred-b"); ("provider", PStr "imap");
                                    ("type", PStr "api_key")] ]};
     input_links := []; output_links := []; webhook_id := None |}.
Definition node_P : Node := node "P" "paid" [] [].
Definition node_U : Node := node "U" "needy" [] [].

Definition graph (gid : string) (all starting : list Node) : GraphModel :=
  {| gm_id := gid; gm_version := 1; gm_name := "Demo agent"; gm_nodes := all;
     starting_nodes := starting; validate_graph := None |}.

Definition world0 : World :=
  {| graphs := {[ "g" := graph "g" [node_A; node_B; node_C] [node_A; node_B];
                  "notes" := graph "notes" [node_N] [node_N];
                  "needy" := graph "needy" [node_U] [node_U];
                  "paid" := graph "paid" [node_P] [node_P] ]};
     nodes := [node_A; node_B; node_C; node_F; node_D; node_N; node_M; node_P; node_U];
     node_executions := []; execution_outputs := [];
     graph_executions := {[ "run" := {| ge_graph_id := "g"; ge_user_id := "u";
                                        ge_status := RUNNING; ge_stats := None |} ]};
     sent_updates := []; notifications := [];
     credentials_store := [("u", {| cred_id := "cred-a"; provider := "smtp";
                                    cred_type := "api_key" |});
                           ("u", {| cred_id := "cred-b"; provider := "imap";
                                    cred_type := "api_key" |})];
     held_locks := []; block_runs := []; credits := 5; yielded := [];
     intake_queue := [] |}.

Definition row (eid nid bid : string) (st : ExecutionStatus) (input : BlockInput)
    : NodeExecutionResult :=
  {| r_node_exec_id := eid; r_graph_exec_id := "run"; r_graph_id := "g"; r_node_id := nid;
     r_block_id := bid; r_status := st; r_input_data := input |}.

Definition entry (eid nid bid : string) (input : BlockInput) : NodeExecutionEntry :=
  {| user_id := "u"; graph_exec_id := "run"; graph_id := "g"; node_exec_id := eid;
     node_id := nid; block_id := bid; data := input |}.

Definition with_rows (rows : list NodeExecutionResult) (w : World) : World :=
  with_node_executions (λ _, rows) w.

Definition run_of (start : list NodeExecutionEntry) : GraphExecutionEntry :=
  {| g_user_id := "u"; g_graph_exec_id := "run"; g_graph_id := "g"; g_graph_version := 1;
     start_node_execs := start |}.

(** One queued execution of a node, and its entry. *)
Definition world_of (nid bid : string) (input : BlockInput) : World :=
  with_rows [row "e1" nid bid QUEUED input] world0.

(** Two executions of [C] wait for [cfg]; a third one has run to the end. *)
Definition world_waiting (x1 : pyval) : World :=
  with_rows [row "e1" "C" "consumer" INCOMPLETE {[ "x" := x1 ]};
             row "e2" "C" "consumer" INCOMPLETE {[ "x" := PInt 2 ]};
             row "e3" "A" "producer" COMPLETED ∅] world0.

(** Two queued executions of the same node. *)
Definition two_of_A : GraphExecutionEntry :=
  run_of [entry "e1" "A" "producer" ∅; entry "e2" "A" "producer" ∅].
Definition world_two_of_A : World :=
  with_rows [row "e1" "A" "producer" QUEUED ∅;
                  row "e2" "A" "producer" QUEUED ∅] world0.

End Demo.

(** ** Notions used in the statements *)

(** [P] relates the world before a statement to the world after it,
    whatever the statement returns or raises. *)
Definition preserves {A} (P : World → World → Prop) (m : M A) : Prop :=
  ∀ w w' r, m w = (w', r) → P w w'.

(** A statement that only reads. *)
Definition read_only {A} (m : M A) : Prop := ∀ w, fst (m w) = w.

(** The resolver writes to the node-execution table and broadcasts; it
    leaves the rest of the world alone. *)
Definition resolver_footprint (w w' : World) : Prop :=
  execution_outputs w' = execution_outputs w
  ∧ yielded w' = yielded w
  ∧ block_runs w' = block_runs w
  ∧ held_locks w' = held_locks w
  ∧ notifications w' = notifications w
  ∧ graph_executions w' = graph_executions w
  ∧ nodes w' = nodes w
  ∧ sent_updates w `prefix_of` sent_updates w'.

(** The block of the node is a NOTE block. *)
Definition is_note (X : Externals) (node : Node) : Prop :=
  ∃ b, get_block X (node_block_id node) = Some b ∧ block_type b = NOTE.

(** The statuses [cancel_execution] sweeps (lines 1098-1102). *)
Definition live : list ExecutionStatus := [QUEUED; RUNNING; INCOMPLETE].

(** The entry names a stored execution of its node. *)
Definition has_row (w : World) (e : NodeExecutionEntry) : Prop :=
  ∃ r, r ∈ node_executions w
       ∧ r_node_exec_id r = node_exec_id e ∧ r_node_id r = node_id e.

Definition row_ids (w : World) : list string :=
  map r_node_exec_id (node_executions w).

(** How the node-execution table changes under a statement that may set
    executions with the id [own], and no other, to RUNNING: ids stay
    distinct, an execution keeps its id and its node, and an execution that
    is RUNNING afterwards was there, unchanged, before (or has the id
    [own]). *)
Definition rows_evolve (own : option string) (w w' : World) : Prop :=
  (NoDup (row_ids w) → NoDup (row_ids w'))
  ∧ (∀ r, r ∈ node_executions w →
          ∃ r', r' ∈ node_executions w'
                ∧ r_node_exec_id r' = r_node_exec_id r ∧ r_node_id r' = r_node_id r)
  ∧ (∀ r', r' ∈ node_executions w' → r_status r' = RUNNING →
           r' ∈ node_executions w ∨ Some (r_node_exec_id r') = own).

(** What [get_credentials_fields] promises about a validated input: every
    credential field of the schema is present in the input the block is
    about to run on, and holds a well-formed credentials meta value. *)
Definition credentials_present (X : Externals) : Prop :=
  ∀ node b data d msg,
    get_block X (node_block_id node) = Some b →
    validate_exec X node data false = (Some d, msg) →
    Forall (λ f, ∃ v c,
              (if is_agent_executor b
               then <["data" := as_pydict d]> (input_default node) else d) !! f = Some v
              ∧ credentials_meta v = Some c)
           (get_credentials_fields (input_schema b)).

(** A task whose worker has set the execution RUNNING and has not
    finished: it is streaming, or was killed. *)
Definition started (st : TaskState) : Prop :=
  match st with
  | Streaming _ _ _ | Killed => True
  | Pending | Done _ => False
  end.

(** The entry the scheduler thread holds at its program point. *)
Definition pc_entry (p : MainPc) : option NodeExecutionEntry :=
  match p with
  | AtWaitSame e _ | AtCharge e | AtSubmit e => Some e
  | _ => None
  end.

(** The invariant of the scheduler of run [G]. *)
Record sched_inv (G : string) (s : Sched) : Prop := {
  inv_ids : NoDup (row_ids (world s));
  inv_running :
    ∀ r, r ∈ node_executions (world s) → r_graph_exec_id r = G → r_status r = RUNNING →
         ∃ t task, tasks s !! t = Some task
                   ∧ node_exec_id (t_entry task) = r_node_exec_id r
                   ∧ started (t_state task);
  inv_queue : ∀ e, e ∈ queue s → has_row (world s) e;
  inv_tasks : ∀ t task, tasks s !! t = Some task → has_row (world s) (t_entry task);
  inv_pc : ∀ e, pc_entry (pc s) = Some e → has_row (world s) e;
  inv_registered :
    ∀ t task, tasks s !! t = Some task → ready task = false →
              running_executions s !! node_id (t_entry task) = Some t;
  inv_waited :
    ∀ e t0, pc s = AtWaitSame e t0 →
            ∀ t task, tasks s !! t = Some task → ready task = false →
                      node_id (t_entry task) = node_id e → t = t0;
  inv_free :
    ∀ e, pc s = AtCharge e ∨ pc s = AtSubmit e →
         ∀ t task, tasks s !! t = Some task →
                   node_id (t_entry task) = node_id e → ready task = true;
}.

(** What a stretch of a worker does to the table and to what it yields:
    every entry yielded names a stored execution of its node. *)
Definition stretch_rel (own : option string) (w w' : World) : Prop :=
  rows_evolve own w w'
  ∧ ∀ y, y ∈ yielded w' → y ∈ yielded w ∨ has_row w' y.

Ltac munfold :=
  unfold mbind, M_bind, bind, mret, M_ret, ret, raise, modify, gets in *.

(** ** Logging ([LogMetadata], manager.py lines 75-120)

    The [metadata] dict only travels to the logger as [json_fields]; the
    text of a log line is built from [prefix]. *)

Module LogMetadata.

Record t : Type := { prefix : string }.

(** [__init__], line 94. *)
Definition new (user_id graph_eid graph_id node_eid node_id block_name : string) : t :=
  {| prefix := "[ExecutionManager|uid:" +:+ user_id +:+ "|gid:" +:+ graph_id
               +:+ "|nid:" +:+ node_id +:+ "]|geid:" +:+ graph_eid
               +:+ "|nid:" +:+ node_eid +:+ "|" +:+ block_name +:+ "]" |}.

(** [_wrap] (lines 116-120).  [extra] is [None] when no keyword argument
    was given ([str(extra or "")] is then the empty string) and otherwise
    the rendering [str(extra)] of the keyword dict. *)
Definition _wrap (self : t) (msg : string) (extra : option string) : string :=
  let extra_msg := default "" extra in
  let extra_msg :=
    if (1000 <? String.length extra_msg)%nat
    then String.substring 0 1000 extra_msg +:+ "..."
    else extra_msg in
  prefix self +:+ " " +:+ msg +:+ " " +:+ extra_msg.

End LogMetadata.

(** ** Shutdown of a node-executor process (manager.py, lines 498-522)

    What the two handlers call, in order.  [shutdown_lock] is a
    [threading.Lock] that is taken without blocking and never released. *)

Inductive CleanupCall : Type :=
| release_all_locks            (* [cls.creds_manager.release_all_locks()] *)
| redis_disconnect             (* [redis.disconnect()] *)
| close_service_client         (* [close_service_client(cls.db_client)] *)
| sys_exit.                    (* [sys.exit(0)] *)

#[global] Instance CleanupCall_eq_dec : EqDecision CleanupCall.
Proof. solve_decision. Defined.

Record NodeExecutorProcess : Type := {
  shutdown_lock : bool;                            (* the lock is held *)
  cleanup_calls : list CleanupCall;
}.

(** [Executor.on_node_executor_stop], registered with [atexit]. *)
Definition on_node_executor_stop (p : NodeExecutorProcess) : NodeExecutorProcess :=
  if shutdown_lock p then p                        (* already shutting down *)
  else {| shutdown_lock := true;
          cleanup_calls := cleanup_calls p
                           ++ [release_all_locks; redis_disconnect; close_service_client] |}.

(** [Executor.on_node_executor_sigterm], the SIGTERM handler. *)
Definition on_node_executor_sigterm (p : NodeExecutorProcess) : NodeExecutorProcess :=
  if shutdown_lock p then p                        (* already shutting down *)
  else {| shutdown_lock := true;
          cleanup_calls := cleanup_calls p
                           ++ [release_all_locks; redis_disconnect; sys_exit] |}.

Inductive ShutdownHandler : Type := Stop | Sigterm.

Definition run_handler (h : ShutdownHandler) (p : NodeExecutorProcess)
    : NodeExecutorProcess :=
  match h with
  | Stop => on_node_executor_stop p
  | Sigterm => on_node_executor_sigterm p
  end.

(** The handlers that run in a process, one after the other.  ([sys.exit]
    makes the interpreter run the [atexit] handlers: a [Sigterm] that
    cleaned up is followed by a [Stop].) *)
Definition run_handlers (hs : list ShutdownHandler) (p : NodeExecutorProcess)
    : NodeExecutorProcess :=
  foldl (λ p h, run_handler h p) p hs.

(** ** The dispatch loop of the manager ([ExecutionManager.run_service],
    manager.py lines 956-969) *)

Module RunService.

(** The loop's state.  [graph_exec_id] is the local variable of
    [run_service] that every pass of the loop assigns; the done-callbacks
    are closures over that variable, not over its value. *)
Record t : Type := {
  world : World;                                   (* [intake_queue] is [self.queue] *)
  active_graph_runs : gmap string nat;             (* graph_exec_id ↦ (future, cancel_event), by index in [futures] *)
  futures : list GraphExecutionEntry;              (* what was submitted to the pool, in order *)
  graph_exec_id : option string;                   (* [None] before the first pass *)
}.

(** One pass of the loop (lines 957-969); [None] while [queue.get()]
    blocks on an empty queue. *)
Definition dispatch (s : t) : option t :=
  match intake_queue (world s) with
  | [] => None
  | graph_exec_data :: rest =>
      let graph_exec_id := g_graph_exec_id graph_exec_data in
      Some {| world := with_intake_queue (λ _, rest) (world s);
              active_graph_runs :=
                <[graph_exec_id := length (futures s)]> (active_graph_runs s);
              futures := futures s ++ [graph_exec_data];
              graph_exec_id := Some graph_exec_id |}
  end.

(** The done-callback of future [f] (line 968):
    [lambda _: self.active_graph_runs.pop(graph_exec_id, None)].  The
    future it is called with is ignored, and [graph_exec_id] is read when
    the callback runs. *)
Definition done_callback (f : nat) (s : t) : t :=
  match graph_exec_id s with
  | Some current =>
      {| world := world s;
         active_graph_runs := delete current (active_graph_runs s);
         futures := futures s;
         graph_exec_id := graph_exec_id s |}
  | None => s
  end.

Definition init (w : World) : t :=
  {| world := w; active_graph_runs := ∅; futures := []; graph_exec_id := None |}.

End RunService.

(** ** More of the catalog, for the examples: a webhook block and a
    block with one credential field *)

Module Demo2.

Definition hook : Block :=
  {| block_name := "Hook"; block_type := WEBHOOK; input_schema := Demo.schema [] [] [];
     is_agent_executor := false; execute := Demo.emit [("out", PStr "event")] None |}.

Definition signer : Block :=
  {| block_name := "Signer"; block_type := STANDARD;
     input_schema := Demo.schema [] [] ["credentials"];
     is_agent_executor := false; execute := Demo.emit [("out", PStr "signed")] None |}.

Definition X : Externals :=
  {| get_block := λ bid,
       if String.eqb bid "hook" then Some hook
       else if String.eqb bid "signer" then Some signer
       else get_block Demo.X bid;
     convert := convert Demo.X;
     parse_execution_output := parse_execution_output Demo.X;
     merge_execution_input := merge_execution_input Demo.X;
     block_usage_cost := block_usage_cost Demo.X;
     execution_usage_cost := execution_usage_cost Demo.X;
     frontend_base_url := frontend_base_url Demo.X;
     platform_base_url := platform_base_url Demo.X |}.

Definition node_H : Node :=
  {| n_id := "H"; node_block_id := "hook"; input_default := ∅; input_links := [];
     output_links := []; webhook_id := Some "wh1" |}.

Definition node_S : Node :=
  {| n_id := "S"; node_block_id := "signer";
     input_default :=
       {[ "credentials" := PDict [("id", PStr "cred-a"); ("provider", PStr "smtp");
                                  ("type", PStr "api_key")] ]};
     input_links := []; output_links := []; webhook_id := None |}.

Definition world0 : World :=
  {| graphs := {[ "hooked" := Demo.graph "hooked" [node_H] [node_H];
                  "signed" := Demo.graph "signed" [node_S] [node_S] ]};
     nodes := [node_H; node_S];
     node_executions := []; execution_outputs := [];
     graph_executions := graph_executions Demo.world0;
     sent_updates := []; notifications := [];
     credentials_store := credentials_store Demo.world0;
     held_locks := []; block_runs := []; credits := 50; yielded := [];
     intake_queue := [] |}.

(** A run of one queued execution of node [A], and a schedule that takes
    it to its end with nobody cancelling. *)
Definition one_of_A : GraphExecutionEntry :=
  Demo.run_of [Demo.entry "e1" "A" "producer" ∅].

Definition whole_run : list label :=
  [Main; Main; Main; Main; Work 0; Work 0; Work 0;
   Main; Main; Main; Main; Main; Main; Watch; Watch; Main; Main].

End Demo2.

(** ** A block with an optional credentials field and an input block, for
    the examples *)

Module Demo3.

(** An INPUT block: it needs a [value]. *)
Definition asker : Block :=
  {| block_name := "Asker"; block_type := INPUT; input_schema := Demo.schema ["value"] [] [];
     is_agent_executor := false; execute := Demo.emit [("result", PStr "asked")] None |}.

(** A schema that declares the credentials field [credentials] and does
    not require it. *)
Definition optional_credentials : BlockSchema :=
  {| annotations := [];
     get_missing_links := get_missing_links (Demo.schema [] [] []);
     get_input_defaults := λ d, d;
     get_missing_input := λ _, [];
     get_mismatch_error := λ _, None;
     get_credentials_fields := ["credentials"] |}.

Definition keyless : Block :=
  {| block_name := "Keyless"; block_type := STANDARD; input_schema := optional_credentials;
     is_agent_executor := false; execute := Demo.emit [("out", PStr "opened")] None |}.

Definition X : Externals :=
  {| get_block := λ bid,
       if String.eqb bid "keyless" then Some keyless
       else if String.eqb bid "asker" then Some asker
       else get_block Demo.X bid;
     convert := convert Demo.X;
     parse_execution_output := parse_execution_output Demo.X;
     merge_execution_input := merge_execution_input Demo.X;
     block_usage_cost := block_usage_cost Demo.X;
     execution_usage_cost := execution_usage_cost Demo.X;
     frontend_base_url := frontend_base_url Demo.X;
     platform_base_url := platform_base_url Demo.X |}.




(** A run of one queued execution of the failing node [F]. *)
Definition one_of_F : GraphExecutionEntry :=
  Demo.run_of [Demo.entry "e1" "F" "failing" ∅].

(** Node [I] is the input named [topic]; graph [ask] starts there. *)
Definition node_I : Node :=
  {| n_id := "I"; node_block_id := "asker"; input_default := {[ "name" := PStr "topic" ]};
     input_links := []; output_links := []; webhook_id := None |}.

Definition world0 : World :=
  {| graphs := {[ "ask" := Demo.graph "ask" [node_I] [node_I] ]};
     nodes := [node_I];
     node_executions := []; execution_outputs := [];
     graph_executions := ∅;
     sent_updates := []; notifications := [];
     credentials_store := [];
     held_locks := []; block_runs := []; credits := 5; yielded := [];
     intake_queue := [] |}.

End Demo3.

(** ** More notions used in the statements *)

(** The test of line 1008, on a node: its block is a NOTE block. *)
Definition note_node (X : Externals) (node : Node) : bool :=
  match get_block X (node_block_id node) with
  | Some b => bool_decide (block_type b = NOTE)
  | None => false
  end.

(** Lines 1004-1027 without the validation: the input the loop of
    [add_execution] builds for a starting node from the request data, the
    value an INPUT block is named for or the payload of a webhook node;
    [None] where the loop raises. *)
Definition request_input (data : BlockInput) (node : Node) (block : Block)
    : option BlockInput :=
  input_data ←
    (if bool_decide (block_type block = INPUT) then
       match py_get (input_default node) "name" with
       | PStr input_name =>
           match data !! input_name with
           | Some v => if String.eqb input_name "" then Some (∅ : BlockInput)
                       else Some ({[ "value" := v ]} : BlockInput)
           | None => Some ∅
           end
       | (PList (_ :: _) | PDict (_ :: _)) => None
       | _ => Some ∅
       end
     else Some ∅);
  match webhook_id node with
  | Some wid =>
      if (bool_decide (block_type block = WEBHOOK)
          || bool_decide (block_type block = WEBHOOK_MANUAL))
         && negb (String.eqb wid "")
      then
        match data !! ("webhook_" +:+ wid +:+ "_payload") with
        | None => None
        | Some v => Some ({[ "payload" := v ]} : BlockInput)
        end
      else Some input_data
  | None => Some input_data
  end.

(** An execution the resolver of run [ge] may not touch: it is past
    INCOMPLETE, or belongs to another run. *)
Definition settled (ge : string) (r : NodeExecutionResult) : Prop :=
  r_status r ≠ INCOMPLETE ∨ r_graph_exec_id r ≠ ge.

(** While the resolver of run [ge] works from the table of [w0]: the ids
    stay distinct and the settled executions of [w0] are still in the
    table, as they were. *)
Definition keeps (ge : string) (w0 w : World) : Prop :=
  NoDup (row_ids w)
  ∧ ∀ x, x ∈ node_executions w0 → settled ge x → x ∈ node_executions w.

(** An id under which [w0] holds no settled execution. *)
Definition free_id (ge : string) (w0 : World) (i : string) : Prop :=
  ∀ x, x ∈ node_executions w0 → r_node_exec_id x = i → ¬ settled ge x.

(** What the resolver may do to the world: it rewrites the table of node
    executions and appends to the broadcast updates, and an execution it
    wrote is INCOMPLETE or QUEUED. *)
Definition resolver_effect (w w' : World) : Prop :=
  (∃ rows ups,
     w' = with_sent_updates (λ us, us ++ ups) (with_node_executions (λ _, rows) w))
  ∧ ∀ r, r ∈ node_executions w' →
         r ∈ node_executions w ∨ r_status r = INCOMPLETE ∨ r_status r = QUEUED.

(** The entry is backed by a stored execution of its node that is QUEUED
    with the entry's input. *)
Definition queued_row (w : World) (e : NodeExecutionEntry) : Prop :=
  ∃ r, r ∈ node_executions w
       ∧ r_node_exec_id r = node_exec_id e ∧ r_node_id r = node_id e
       ∧ r_status r = QUEUED ∧ r_input_data r = data e.

(** The entries a resolver step returned, between the worlds before and
    after it: no execution is named twice, and each entry is of run [ge],
    is backed by a QUEUED execution, and names an execution that was not
    settled before. *)
Definition enqueued_ok (ge : string) (w w' : World) (es : list NodeExecutionEntry) : Prop :=
  NoDup (map node_exec_id es)
  ∧ ∀ e, e ∈ es →
         free_id ge w (node_exec_id e) ∧ queued_row w' e ∧ graph_exec_id e = ge.

(** *** Notions for the scheduler *)

(** The tasks of the pool, whatever the store holds: an unfinished task
    is the one registered for its node; the scheduler waits for the only
    unfinished task of the node of its entry; and once it is about to
    charge and submit, every task for that node has finished. *)
Record task_inv (s : Sched) : Prop := {
  ti_registered :
    ∀ t task, tasks s !! t = Some task → ready task = false →
              running_executions s !! node_id (t_entry task) = Some t;
  ti_waited :
    ∀ e t0, pc s = AtWaitSame e t0 →
            ∀ t task, tasks s !! t = Some task → ready task = false →
                      node_id (t_entry task) = node_id e → t = t0;
  ti_free :
    ∀ e, pc s = AtCharge e ∨ pc s = AtSubmit e →
         ∀ t task, tasks s !! t = Some task →
                   node_id (t_entry task) = node_id e → ready task = true;
}.

(** The scheduler thread has left its loop. *)
Definition finishing (p : MainPc) : Prop :=
  match p with
  | AtFinally | AtFinished | AtJoin | AtReturn | Exited => True
  | _ => False
  end.

(** Every task submitted so far has finished. *)
Definition all_ready (s : Sched) : Prop :=
  ∀ task, task ∈ tasks s → ready task = true.

(** The task handed a [NodeExecutionStats] to its callback. *)
Definition has_stats (t : Task) : bool :=
  match t_result t with Some _ => true | None => false end.

Definition reported_tasks (s : Sched) : list Task :=
  filter (λ task, has_stats task = true) (tasks s).

(** The entries the scheduler holds name stored executions of their
    nodes, and every finished task handed statistics to its callback. *)
Record rows_inv (s : Sched) : Prop := {
  ri_queue : ∀ e, e ∈ queue s → has_row (world s) e;
  ri_tasks : ∀ task, task ∈ tasks s → has_row (world s) (t_entry task);
  ri_pc : ∀ e, pc_entry (pc s) = Some e → has_row (world s) e;
  ri_stats : ∀ task, task ∈ tasks s → ready task = true → has_stats task = true;
}.

(** The status the [finally] clause assigns (lines 850-856). *)
Definition final_status (s : Sched) : ExecutionStatus :=
  match error s with Some _ => FAILED | None => COMPLETED end.

(** The notification of a finished run. *)
Definition agent_run_note (graph_exec : GraphExecutionEntry) (d : AgentRunData)
    : NotificationEventDTO :=
  {| n_user_id := g_user_id graph_exec; n_type := AGENT_RUN; n_data := AgentRun d |}.

Definition low_balance_note (graph_exec : GraphExecutionEntry) (d : LowBalanceData)
    : NotificationEventDTO :=
  {| n_user_id := g_user_id graph_exec; n_type := LOW_BALANCE; n_data := LowBalance d |}.

(** The accounts of the scheduler of a run that started in world [w0]:
    the cost it reports is what was taken from the user's credits; it has
    counted one node per task that handed statistics to its callback, each
    of them finished, and no error; and it has queued at
    most one LOW_BALANCE notification, after which it left the loop, and
    the AGENT_RUN notification when, and only when, it has exited. *)
Record acct_inv (graph_exec : GraphExecutionEntry) (w0 : World) (s : Sched) : Prop := {
  ai_cost : cost (execution_stats s) = credits w0 - credits (world s);
  ai_count : node_count (execution_stats s) = Z.of_nat (length (reported_tasks s));
  ai_reported : ∀ task, task ∈ tasks s → has_stats task = true → ready task = true;
  ai_errors : node_error_count (execution_stats s) = 0;
  ai_notes :
    ∃ pre,
      (pre = [] ∨ (finishing (pc s) ∧ ∃ lb, pre = [low_balance_note graph_exec lb]))
      ∧ match pc s with
        | Exited =>
            ∃ d, notifications (world s)
                 = notifications w0 ++ pre ++ [agent_run_note graph_exec d]
                 ∧ credits_used d = cost (execution_stats s)
                 ∧ ar_graph_id d = g_graph_id graph_exec
        | _ => notifications (world s) = notifications w0 ++ pre
        end;
}.

(** A run that nobody cancels. *)
Record quiet_inv (s : Sched) : Prop := {
  qi_cancel : cancel s = true → finished s = true;
  qi_finished : finished s = true → pc s = AtJoin ∨ pc s = AtReturn ∨ pc s = Exited;
  qi_watcher :
    watcher s = WWait ∨ (watcher s = WCheck ∧ finished s = true) ∨ watcher s = WDone;
  qi_pool : pool_up s = true;
  qi_alive : ∀ task, task ∈ tasks s → t_state task ≠ Killed;
  qi_status_loop :
    ¬ finishing (pc s) ∨ pc s = AtFinally →
    execution_status s = RUNNING ∨ execution_status s = FAILED;
  qi_status :
    pc s = AtFinished ∨ pc s = AtJoin ∨ pc s = AtReturn ∨ pc s = Exited →
    execution_status s = final_status s;
  qi_returned :
    ∀ st, returned s = Some st →
          st = final_status s ∧ (pc s = AtReturn ∨ pc s = Exited);
  qi_error : error s ≠ None → finishing (pc s);
  qi_loop : pc s = AtLoop → queue s ≠ [] ∨ all_ready s;
  qi_drained : finishing (pc s) → error s = None → queue s = [] ∧ all_ready s;
}.

(** What the node executor never touches. *)
Definition executor_frame (w w' : World) : Prop :=
  credits w' = credits w
  ∧ notifications w' = notifications w
  ∧ graph_executions w' = graph_executions w
  ∧ graphs w' = graphs w
  ∧ nodes w' = nodes w
  ∧ credentials_store w' = credentials_store w
  ∧ intake_queue w' = intake_queue w
  ∧ execution_outputs w `prefix_of` execution_outputs w'
  ∧ sent_updates w `prefix_of` sent_updates w'
  ∧ block_runs w `prefix_of` block_runs w'.

(** The node executor leaves the credential locks as they were. *)
Definition same_locks (w w' : World) : Prop := held_locks w' = held_locks w.

(** * Properties *)

(** ** Input validation *)

Section Validation.

Variable X : Externals.

Lemma coerce_inputs_cons name data_type anns (data : BlockInput) :
  coerce_inputs X ((name, data_type) :: anns) data =
  coerce_inputs X anns
    (if truthy (py_get data name) && negb (bool_decide (type_of (py_get data name) = data_type))
     then <[name := convert X (py_get data name) data_type]> data
     else data).
Proof. reflexivity. Qed.

Lemma coerce_inputs_falsy anns (data : BlockInput) (name : string) :
  truthy (py_get data name) = false →
  coerce_inputs X anns data !! name = data !! name.
Proof.
  revert data. induction anns as [|[n t] anns IH]; intros data Hf; [done|].
  rewrite coerce_inputs_cons.
  destruct (truthy (py_get data n) && _) eqn:Hc; [|by apply IH].
  assert (n ≠ name) as Hne.
  { intros ->. rewrite Hf in Hc. discriminate. }
  rewrite IH.
  - by rewrite lookup_insert_ne.
  - unfold py_get in *. by rewrite lookup_insert_ne.
Qed.

(** A truthy value of another type than the annotated one is converted. *)
Lemma coerce_inputs_truthy name data_type (data : BlockInput) :
  truthy (py_get data name) = true →
  type_of (py_get data name) ≠ data_type →
  coerce_inputs X [(name, data_type)] data !! name
    = Some (convert X (py_get data name) data_type).
Proof.
  intros Ht Hty. rewrite coerce_inputs_cons. rewrite Ht.
  rewrite bool_decide_eq_false_2 by done. simpl. by rewrite lookup_insert_eq.
Qed.

Lemma validate_exec_Some node (data d : BlockInput) resolve msg :
  validate_exec X node data resolve = (Some d, msg) →
  ∃ b, get_block X (node_block_id node) = Some b
       ∧ d = merged_input X (input_schema b) node
               (coerce_inputs X (annotations (input_schema b)) data) resolve.
Proof.
  unfold validate_exec. destruct (get_block X (node_block_id node)) as [b|]; [|done].
  destruct (get_missing_links _ _ _); [|done].
  destruct (get_missing_input _ _); [|done].
  destruct (get_mismatch_error _ _) as [err|].
  - destruct (String.eqb err ""); [|done]. intros [= <- _]. eauto.
  - intros [= <- _]. eauto.
Qed.

(** C10. In [validate_exec] the conversion step leaves a falsy value alone:
    whatever the annotations are, a field whose provided value is falsy
    (absent, [None], [0], [False], an empty string, list or dict) holds the
    same value after the loop of lines 429-431, so the schema checks that
    follow see it unconverted, and a validation that succeeds (without pin
    resolution) returns it unconverted. *)
Theorem falsy_value_is_not_coerced node (data : BlockInput) (name : string) :
  truthy (py_get data name) = false →
  (∀ anns, coerce_inputs X anns data !! name = data !! name)
  ∧ (∀ v d msg, data !! name = Some v →
       validate_exec X node data false = (Some d, msg) → d !! name = Some v).
Proof.
  intros Hf. split; [intros; by apply coerce_inputs_falsy|].
  intros v d msg Hv Hval.
  apply validate_exec_Some in Hval as (b & _ & ->).
  unfold merged_input. apply lookup_union_Some_l.
  by rewrite coerce_inputs_falsy.
Qed.

End Validation.

(** [x] is annotated [int] and holds [0]; a declared type the value does
    not have would be [str]. *)
Lemma falsy_value_is_not_coerced_witness :
  truthy (py_get ({[ "x" := PInt 0; "cfg" := PInt 9 ]} : BlockInput) "x") = false
  ∧ coerce_inputs Demo.X [("x", TStr)] {[ "x" := PInt 0; "cfg" := PInt 9 ]} !! "x"
    = Some (PInt 0)
  ∧ ∀ d msg,
      validate_exec Demo.X Demo.node_C {[ "x" := PInt 0; "cfg" := PInt 9 ]} false
        = (Some d, msg) →
      d !! "x" = Some (PInt 0).
Proof.
  assert (truthy (py_get ({[ "x" := PInt 0; "cfg" := PInt 9 ]} : BlockInput) "x") = false)
    as Hf by reflexivity.
  split; [exact Hf|]. split.
  - rewrite (proj1 (falsy_value_is_not_coerced Demo.X Demo.node_C _ "x" Hf)). reflexivity.
  - intros d msg.
    apply (proj2 (falsy_value_is_not_coerced Demo.X Demo.node_C _ "x" Hf) (PInt 0) d msg).
    reflexivity.
Defined.

(** ** Properties kept by every statement of a program *)

Section Preserves.

Variable P : World → World → Prop.
Hypothesis P_refl : ∀ w, P w w.
Hypothesis P_trans : ∀ a b c, P a b → P b c → P a c.

Lemma preserves_ret {A} (a : A) : preserves P (mret a).
Proof using P_refl. intros w w' r [= <- _]. apply P_refl. Qed.

Lemma preserves_raise {A} e : preserves P (raise e : M A).
Proof using P_refl. intros w w' r [= <- _]. apply P_refl. Qed.

Lemma preserves_gets {A} (f : World → A) : preserves P (gets f).
Proof using P_refl. intros w w' r [= <- _]. apply P_refl. Qed.

Lemma preserves_bind {A B} (m : M A) (k : A → M B) :
  preserves P m → (∀ a, preserves P (k a)) → preserves P (m ≫= k).
Proof using P_trans.
  intros Hm Hk w w' r. munfold. destruct (m w) as [w1 [a|e]] eqn:E.
  - intros H. eapply P_trans; [by eapply Hm | by eapply Hk].
  - intros [= <- _]. by eapply Hm.
Qed.

Lemma preserves_try_except {A} (m : M A) h :
  preserves P m → (∀ e, preserves P (h e)) → preserves P (try_except m h).
Proof using P_trans.
  intros Hm Hh w w' r. unfold try_except. destruct (m w) as [w1 [a|e]] eqn:E.
  - intros [= <- _]. by eapply Hm.
  - intros H. eapply P_trans; [by eapply Hm | by eapply Hh].
Qed.

Lemma preserves_try_finally {A} (m : M A) fin :
  preserves P m → preserves P fin → preserves P (try_finally m fin).
Proof using P_trans.
  intros Hm Hf w w' r. unfold try_finally. destruct (m w) as [w1 r1] eqn:E.
  destruct (fin w1) as [w2 [[]|e]] eqn:E2; intros [= <- _];
    (eapply P_trans; [by eapply Hm | by eapply Hf]).
Qed.

Lemma preserves_for_each {A} (xs : list A) body :
  (∀ x, preserves P (body x)) → preserves P (for_each xs body).
Proof using P_refl P_trans.
  intros Hb. induction xs as [|x xs IH]; simpl.
  - apply preserves_ret.
  - apply preserves_bind; [apply Hb | intros _; apply IH].
Qed.

Lemma preserves_concat_map_M {A B} (xs : list A) (f : A → M (list B)) :
  (∀ x, preserves P (f x)) → preserves P (concat_map_M xs f).
Proof using P_refl P_trans.
  intros Hf. induction xs as [|x xs IH]; simpl.
  - apply preserves_ret.
  - apply preserves_bind; [apply Hf | intros ys].
    apply preserves_bind; [apply IH | intros zs; apply preserves_ret].
Qed.

Lemma preserves_if {A} (b : bool) (m1 m2 : M A) :
  preserves P m1 → preserves P m2 → preserves P (if b then m1 else m2).
Proof. by destruct b. Qed.

Section Resolver.

Variable X : Externals.

(** What the resolver does to the world, it does through these six calls. *)
Hypothesis P_upsert_input : ∀ n g i v, preserves P (upsert_execution_input n g i v).
Hypothesis P_queued : ∀ i d, preserves P (update_node_execution_status i QUEUED (Some d)).
Hypothesis P_send : ∀ u, preserves P (send_execution_update u).

Lemma preserves_get_node n : preserves P (get_node n).
Proof using P_refl.
  intros w w' r. unfold get_node. destruct (List.find _ _); intros [= <- _]; apply P_refl.
Qed.

Lemma preserves_add_enqueued_execution u ge g i n b d :
  preserves P (add_enqueued_execution u ge g i n b d).
Proof using P_refl P_trans P_queued P_send.
  unfold add_enqueued_execution.
  apply preserves_bind; [apply P_queued | intros r].
  apply preserves_bind; [apply P_send | intros _; apply preserves_ret].
Qed.

Lemma preserves_fill_static names d idata : preserves P (fill_static names d idata).
Proof using P_refl.
  revert idata. induction names as [|n names IH]; intros idata; simpl.
  - apply preserves_ret.
  - destruct (d !! n); [apply IH | apply preserves_raise].
Qed.

Lemma preserves_complete_static u ge g l next_node d iexec :
  preserves P (complete_static X u ge g l next_node d iexec).
Proof using P_refl P_trans P_queued P_send.
  unfold complete_static.
  apply preserves_bind; [apply preserves_fill_static | intros idata].
  destruct (validate_exec X next_node idata true) as [[d'|] msg]; [|apply preserves_ret].
  apply preserves_if; [apply preserves_ret|].
  apply preserves_bind; [apply preserves_add_enqueued_execution | intros; apply preserves_ret].
Qed.

Lemma preserves_enqueue_complete u ge g l next_node i inp :
  preserves P (enqueue_complete X u ge g l next_node i inp).
Proof using P_refl P_trans P_queued P_send.
  unfold enqueue_complete.
  destruct (validate_exec X next_node _ true) as [[d|] msg]; [|apply preserves_ret].
  apply preserves_if; [apply preserves_ret|].
  apply preserves_bind; [apply preserves_add_enqueued_execution | intros e].
  apply preserves_if; [apply preserves_ret|].
  apply preserves_bind; [apply preserves_gets | intros iexecs].
  apply preserves_bind; [|intros; apply preserves_ret].
  apply preserves_concat_map_M. intros. apply preserves_complete_static.
Qed.

Lemma preserves_deliver u ge g l v : preserves P (deliver X u ge g l v).
Proof using P_refl P_trans P_queued P_send P_upsert_input.
  unfold deliver.
  apply preserves_bind; [apply preserves_get_node | intros next_node].
  apply preserves_bind; [apply P_upsert_input | intros [i inp]].
  apply preserves_bind; [|intros; apply preserves_enqueue_complete].
  destruct (static_link_names _ _); [apply preserves_ret | apply preserves_gets].
Qed.

Lemma preserves_register_next_executions output u ge g l :
  preserves P (register_next_executions X output u ge g l).
Proof using P_refl P_trans P_queued P_send P_upsert_input.
  unfold register_next_executions.
  destruct (parse_execution_output X output (source_name l));
    apply preserves_ret || apply preserves_deliver.
Qed.

Lemma preserves_enqueue_next_nodes node output u ge g :
  preserves P (_enqueue_next_nodes X node output u ge g).
Proof using P_refl P_trans P_queued P_send P_upsert_input.
  unfold _enqueue_next_nodes. apply preserves_concat_map_M.
  intros l. apply preserves_register_next_executions.
Qed.

End Resolver.

End Preserves.

(** ** The node executor *)

Section NodeExecutor.

Variable X : Externals.

Lemma find_has_id_elem rows eid r :
  List.find (has_id eid) rows = Some r → r ∈ rows ∧ r_node_exec_id r = eid.
Proof.
  intros H. apply List.find_some in H as [Hin Hid].
  split; [by apply list_elem_of_In|]. unfold has_id in Hid. by apply bool_decide_eq_true in Hid.
Qed.

Lemma for_each_yield (execs : list NodeExecutionEntry) w :
  for_each execs yield_ w = (with_yielded (λ ys, ys ++ execs) w, Ok ()).
Proof.
  revert w. induction execs as [|e execs IH]; intros w; simpl.
  - munfold. f_equal. destruct w; unfold with_yielded; simpl. by rewrite app_nil_r.
  - munfold. unfold yield_ at 1. munfold. rewrite IH. f_equal.
    destruct w; unfold with_yielded; simpl. by rewrite <- app_assoc.
Qed.

Lemma resolver_footprint_refl w : resolver_footprint w w.
Proof. by repeat split. Qed.

Lemma resolver_footprint_trans a b c :
  resolver_footprint a b → resolver_footprint b c → resolver_footprint a c.
Proof.
  intros (?&?&?&?&?&?&?&?) (?&?&?&?&?&?&?&?).
  repeat split; try congruence. by etrans.
Qed.

Lemma resolver_keeps_footprint node output u ge g :
  preserves resolver_footprint (_enqueue_next_nodes X node output u ge g).
Proof.
  apply preserves_enqueue_next_nodes.
  - apply resolver_footprint_refl.
  - apply resolver_footprint_trans.
  - intros n g' i v w w' r. unfold upsert_execution_input.
    destruct (attach_input _ _ _ _) as [[r0 rows]|]; intros [= <- _]; by repeat split.
  - intros i d w w' r. unfold update_node_execution_status.
    destruct (List.find _ _); intros [= <- _]; by repeat split.
  - intros upd w w' r. intros [= <- _]. repeat split. simpl. by apply prefix_app_r.
Qed.

Lemma release_creds_lock_ok lock w :
  ∃ w', release_creds_lock lock w = (w', Ok ())
        ∧ execution_outputs w' = execution_outputs w
        ∧ node_executions w' = node_executions w
        ∧ sent_updates w' = sent_updates w
        ∧ yielded w' = yielded w.
Proof.
  unfold release_creds_lock. destruct lock as [l|]; munfold.
  - destruct (bool_decide _); eauto 10.
  - eauto 10.
Qed.

(** C6. An entry whose input fails the pre-validation ([validate_exec]
    with [resolve_input=False] returns [None]) gets the message as an
    "error" output and its execution marked FAILED (and broadcast), and
    [execute_node] returns: the block is not invoked, no credential lock is
    taken and no successor entry is yielded. *)
Theorem invalid_input_fails_without_running e w node b error r :
  List.find (λ n, bool_decide (n_id n = node_id e)) (nodes w) = Some node →
  get_block X (node_block_id node) = Some b →
  validate_exec X node (data e) false = (None, error) →
  List.find (has_id (node_exec_id e)) (node_executions w) = Some r →
  ∃ w', execute_node X e w = (w', Ok ())
    ∧ execution_outputs w' = execution_outputs w ++ [(node_exec_id e, ("error", PStr error))]
    ∧ row_with FAILED None r ∈ node_executions w'
    ∧ (∀ r', r' ∈ node_executions w' → r_node_exec_id r' = node_exec_id e →
             r_status r' = FAILED)
    ∧ sent_updates w' = sent_updates w ++ [NodeUpdate (row_with FAILED None r)]
    ∧ block_runs w' = block_runs w
    ∧ held_locks w' = held_locks w
    ∧ yielded w' = yielded w.
Proof.
  intros Hnode Hblock Hval Hrow.
  unfold execute_node, execute_node_start, get_node, node_block_of, push_output,
    update_execution_status, upsert_execution_output, update_node_execution_status,
    send_execution_update.
  munfold. simpl. rewrite Hnode, Hblock. simpl. rewrite Hval. simpl. rewrite Hrow. simpl.
  eexists. split; [reflexivity|]. simpl.
  apply find_has_id_elem in Hrow as [Hin Hid].
  repeat split; try reflexivity.
  - apply list_elem_of_fmap. exists r. split; [|done].
    unfold has_id. by rewrite bool_decide_eq_true_2.
  - intros r' Hr' Hid'. apply list_elem_of_fmap in Hr' as (x & -> & Hx).
    unfold has_id in *. destruct (bool_decide (r_node_exec_id x = node_exec_id e)) eqn:E.
    + reflexivity.
    + apply bool_decide_eq_false in E. done.
Qed.

End NodeExecutor.

(** A node of a block that needs [x], queued without it. *)
Lemma invalid_input_fails_without_running_witness :
  ∃ w', execute_node Demo.X (Demo.entry "e1" "U" "needy" ∅) (Demo.world_of "U" "needy" ∅)
        = (w', Ok ())
      ∧ block_runs w' = [] ∧ yielded w' = []
      ∧ execution_outputs w'
        = [("e1", ("error",
                   PStr "Input data missing or mismatch for `Needy`: missing input {'x'}"))].
Proof.
  edestruct (invalid_input_fails_without_running Demo.X
               (Demo.entry "e1" "U" "needy" ∅) (Demo.world_of "U" "needy" ∅)
               Demo.node_U Demo.needy
               "Input data missing or mismatch for `Needy`: missing input {'x'}"
               (Demo.row "e1" "U" "needy" QUEUED ∅))
    as (w' & Hrun & Hout & _ & _ & _ & Hblock & _ & Hyield).
  - reflexivity.
  - reflexivity.
  - vm_compute. reflexivity.
  - reflexivity.
  - exists w'. split; [exact Hrun|]. split; [exact Hblock|]. split; [exact Hyield|].
    exact Hout.
Defined.

(** C5, at a block with two credential fields.  The block runs to the end
    and [execute_node] returns normally; the lock taken for the first
    field is still held: [creds_lock] kept the lock of the last field only
    (line 215), and that is the one the [finally] clause releases. *)
Theorem first_of_two_credential_locks_is_never_released :
  ∃ w', execute_node Demo.X
          (Demo.entry "e1" "M" "mailer" (input_default Demo.node_M))
          (Demo.world_of "M" "mailer" (input_default Demo.node_M)) = (w', Ok ())
      ∧ get_credentials_fields (input_schema Demo.mailer)
        = ["credentials_a"; "credentials_b"]
      ∧ block_runs w' = ["e1"]
      ∧ held_locks w' = [("u", "cred-a")].
Proof. eexists. split; [vm_compute; reflexivity|]. repeat split. Qed.

(** ** The execution manager *)

Section Manager.

Variable X : Externals.

Lemma read_only_ret {A} (a : A) : read_only (mret a).
Proof. done. Qed.

Lemma read_only_raise {A} e : read_only (raise e : M A).
Proof. done. Qed.

Lemma read_only_gets {A} (f : World → A) : read_only (gets f).
Proof. done. Qed.

Lemma read_only_bind {A B} (m : M A) (k : A → M B) :
  read_only m → (∀ a, read_only (k a)) → read_only (m ≫= k).
Proof.
  intros Hm Hk w. munfold. specialize (Hm w). destruct (m w) as [w1 [a|e]]; simpl in *.
  - subst. apply Hk.
  - done.
Qed.

Lemma read_only_for_each {A} (xs : list A) body :
  (∀ x, read_only (body x)) → read_only (for_each xs body).
Proof.
  intros Hb. induction xs as [|x xs IH]; simpl; [apply read_only_ret|].
  apply read_only_bind; [apply Hb | intros _; apply IH].
Qed.

Lemma read_only_node_block_of node : read_only (node_block_of X node).
Proof. unfold node_block_of. by destruct (get_block X _). Qed.

Lemma read_only_validate_credentials g user :
  read_only (_validate_node_input_credentials X g user).
Proof.
  unfold _validate_node_input_credentials. apply read_only_for_each. intros node.
  apply read_only_bind; [apply read_only_node_block_of | intros b].
  apply read_only_for_each. intros f.
  destruct (input_default node !! f) as [v|]; [|apply read_only_raise].
  destruct (credentials_meta v) as [c|]; [|apply read_only_raise].
  apply read_only_bind; [apply read_only_gets | intros [c'|]]; [|apply read_only_raise].
  destruct (_ || _); [apply read_only_raise | apply read_only_ret].
Qed.

Lemma read_only_starting_node_input data node :
  read_only (starting_node_input X data node).
Proof.
  unfold starting_node_input.
  apply read_only_bind; [apply read_only_node_block_of | intros b].
  destruct (bool_decide (block_type b = NOTE)); [apply read_only_ret|].
  apply read_only_bind.
  { destruct (bool_decide (block_type b = INPUT)); [|apply read_only_ret].
    destruct (py_get _ _) as [| | |s|[|]|[|]];
      try apply read_only_ret; try apply read_only_raise.
    destruct (data !! s); [|apply read_only_ret].
    destruct (String.eqb s ""); apply read_only_ret. }
  intros input_data. apply read_only_bind.
  { destruct (webhook_id node) as [wid|]; [|apply read_only_ret].
    destruct (_ && _); [|apply read_only_ret].
    destruct (data !! _); [apply read_only_ret | apply read_only_raise]. }
  intros input_data'.
  destruct (validate_exec X node input_data' true) as [[d|] msg];
    [apply read_only_ret | apply read_only_raise].
Qed.

Lemma read_only_collect_nodes_input data starting :
  read_only (collect_nodes_input X data starting).
Proof.
  induction starting as [|node rest IH]; simpl; [apply read_only_ret|].
  apply read_only_bind; [apply read_only_starting_node_input | intros r].
  apply read_only_bind; [apply IH | intros rs; apply read_only_ret].
Qed.

(** A failed [add_execution] has written nothing. *)
Lemma add_execution_failure_writes_nothing graph data user version w w' e :
  add_execution X graph data user version w = (w', Raised e) → w' = w.
Proof.
  unfold add_execution, get_graph. munfold.
  destruct (graphs w !! graph) as [g|]; [|by intros [= <- _]].
  destruct (validate_graph g) as [err|]; [by intros [= <- _]|].
  pose proof (read_only_validate_credentials g user w) as Hc.
  destruct (_validate_node_input_credentials X g user w) as [w1 [[]|e1]]; simpl in Hc; subst w1;
    [|by intros [= <- _]].
  pose proof (read_only_collect_nodes_input data (starting_nodes g) w) as Hn.
  destruct (collect_nodes_input X data (starting_nodes g) w) as [w1 [ns|e1]];
    simpl in Hn; subst w1; [|by intros [= <- _]].
  destruct ns as [|n ns]; [by intros [= <- _]|].
  unfold create_graph_execution, send_execution_update. munfold. simpl. done.
Qed.

Lemma starting_node_input_note data node w :
  is_note X node → starting_node_input X data node w = (w, Ok None).
Proof.
  intros (b & Hb & Ht). unfold starting_node_input, node_block_of. munfold.
  rewrite Hb. simpl. by rewrite Ht.
Qed.

Lemma collect_nodes_input_notes data starting w :
  Forall (is_note X) starting → collect_nodes_input X data starting w = (w, Ok []).
Proof.
  induction 1 as [|node rest Hn _ IH]; [done|].
  simpl. munfold. rewrite starting_node_input_note by done. by rewrite IH.
Qed.

(** C9, amended.  When the graph loads, validates and passes the
    credential check, and every starting node is a NOTE block,
    [add_execution] fails with the "no starting nodes" error and leaves the
    world as it was; every NOTE starting node is skipped; and a call that
    fails, for whatever reason, has created no GraphExecution, no
    NodeExecution, and has enqueued nothing. *)
Theorem note_only_start_is_refused graph data user version w g :
  graphs w !! graph = Some g →
  validate_graph g = None →
  snd (_validate_node_input_credentials X g user w) = Ok () →
  Forall (is_note X) (starting_nodes g) →
  add_execution X graph data user version w
    = (w, Raised (ValueError no_starting_nodes_msg))
  ∧ (∀ node, node ∈ starting_nodes g → starting_node_input X data node w = (w, Ok None))
  ∧ (∀ graph' data' user' version' w' e,
       add_execution X graph' data' user' version' w = (w', Raised e) →
       graph_executions w' = graph_executions w
       ∧ node_executions w' = node_executions w
       ∧ intake_queue w' = intake_queue w).
Proof.
  intros Hg Hv Hc Hnotes. repeat split.
  - unfold add_execution, get_graph. munfold. rewrite Hg, Hv.
    pose proof (read_only_validate_credentials g user w) as Hro.
    destruct (_validate_node_input_credentials X g user w) as [w1 r]; simpl in *; subst.
    by rewrite collect_nodes_input_notes.
  - intros node Hin. apply starting_node_input_note.
    by eapply (proj1 (Forall_forall _ _)) in Hnotes.
  - by apply add_execution_failure_writes_nothing in H as ->.
  - by apply add_execution_failure_writes_nothing in H as ->.
  - by apply add_execution_failure_writes_nothing in H as ->.
Qed.

Lemma for_each_send (rows : list NodeExecutionResult) (f : NodeExecutionResult → ExecutionUpdate) w :
  for_each rows (λ r, send_execution_update (f r)) w
  = (with_sent_updates (λ us, us ++ map f rows) w, Ok ()).
Proof.
  revert w. induction rows as [|r rows IH]; intros w; simpl.
  - munfold. f_equal. destruct w; unfold with_sent_updates; simpl. by rewrite app_nil_r.
  - munfold. unfold send_execution_update at 1. munfold. rewrite IH. f_equal.
    destruct w; unfold with_sent_updates; simpl. by rewrite <- app_assoc.
Qed.

(** C8. After [cancel_execution] has waited for the graph worker (or found
    nothing to wait for), it returns with the GraphExecution persisted as
    TERMINATED; no NodeExecution of the run is left QUEUED, RUNNING or
    INCOMPLETE; and each execution that was in one of these statuses is
    now TERMINATED in the table and was broadcast as such. *)
Theorem cancel_execution_terminates_the_run graph_exec active w w1 :
  await_cancelled active w = (w1, Ok ()) →
  ∃ w', cancel_execution graph_exec active w = (w', Ok ())
    ∧ (∀ m, graph_executions w1 !! graph_exec = Some m →
            ∃ m', graph_executions w' !! graph_exec = Some m' ∧ ge_status m' = TERMINATED)
    ∧ (∀ r, r ∈ node_executions w' → r_graph_exec_id r = graph_exec →
            r_status r ∉ live)
    ∧ (∀ r, r ∈ node_executions w1 → r_graph_exec_id r = graph_exec →
            r_status r ∈ live →
            row_with TERMINATED None r ∈ node_executions w'
            ∧ NodeUpdate (row_with TERMINATED None r) ∈ sent_updates w').
Proof.
  intros Hawait. unfold cancel_execution. munfold. rewrite Hawait.
  unfold update_graph_execution_stats, get_node_execution_results,
    update_node_execution_status_batch. munfold.
  set (w2 := match graph_executions w1 !! graph_exec with
             | Some m => _ | None => _ end).
  assert (node_executions w2.1 = node_executions w1
          ∧ ∃ r0, w2.2 = Ok r0
          ∧ ∀ m, graph_executions w1 !! graph_exec = Some m →
              ∃ m', graph_executions w2.1 !! graph_exec = Some m' ∧ ge_status m' = TERMINATED)
    as (Hrows & r0 & Hr0 & Hg).
  { subst w2. destruct (graph_executions w1 !! graph_exec) as [m|] eqn:E; simpl.
    - split; [done|]. eexists. split; [done|]. intros m0 _. eexists. split; [by rewrite lookup_insert_eq|done].
    - split; [done|]. eexists. split; [done|]. intros m Hm. congruence. }
  destruct w2 as [w2 r2]. simpl in *. subst r2. rewrite for_each_send.
  eexists. split; [reflexivity|]. simpl. rewrite Hrows.
  set (sel := filter (λ r, r_graph_exec_id r = graph_exec ∧ r_status r ∈ [QUEUED; RUNNING; INCOMPLETE])
                (node_executions w1)).
  repeat split.
  - exact Hg.
  - intros r Hin Hrun Hlive. apply list_elem_of_fmap in Hin as (x & -> & Hx).
    destruct (bool_decide (r_node_exec_id x ∈ map r_node_exec_id sel)) eqn:E.
    + simpl in Hlive. unfold live in Hlive.
      apply elem_of_cons in Hlive as [?|Hlive]; [done|].
      apply elem_of_cons in Hlive as [?|Hlive]; [done|].
      apply elem_of_cons in Hlive as [?|Hlive]; [done|].
      by apply elem_of_nil in Hlive.
    + apply bool_decide_eq_false in E. apply E.
      apply list_elem_of_fmap. exists x. split; [done|].
      apply list_elem_of_filter. done.
  - apply list_elem_of_fmap. exists r. split; [|done].
    rewrite bool_decide_eq_true_2; [done|].
    apply list_elem_of_fmap. exists r. split; [done|]. by apply list_elem_of_filter.
  - apply elem_of_app. right. apply list_elem_of_fmap. exists r.
    split; [done|]. by apply list_elem_of_filter.
Qed.

End Manager.

(** The only starting node of graph [notes] is a NOTE block. *)
Lemma note_only_start_is_refused_witness :
  add_execution Demo.X "notes" ∅ "u" None Demo.world0
    = (Demo.world0, Raised (ValueError no_starting_nodes_msg)).
Proof.
  apply (note_only_start_is_refused Demo.X "notes" ∅ "u" None Demo.world0
           (Demo.graph "notes" [Demo.node_N] [Demo.node_N])).
  - reflexivity.
  - reflexivity.
  - reflexivity.
  - repeat constructor. exists Demo.note. split; reflexivity.
Defined.

(** C9 as stated fails.  The only starting node of graph [needy] is a
    standard block whose required pin has no value: no starting node
    produces a valid input, and the call fails, but with that node's
    validation error (line 1031), not with the "no starting nodes" error. *)
Lemma invalid_start_fails_with_its_validation_error :
  starting_nodes (Demo.graph "needy" [Demo.node_U] [Demo.node_U]) = [Demo.node_U]
  ∧ fst (validate_exec Demo.X Demo.node_U ∅ true) = None
  ∧ add_execution Demo.X "needy" ∅ "u" None Demo.world0
    = (Demo.world0,
       Raised (ValueError "Input data missing or mismatch for `Needy`: missing input {'x'}"))
  ∧ "Input data missing or mismatch for `Needy`: missing input {'x'}"
    ≠ no_starting_nodes_msg.
Proof.
  split; [reflexivity|]. split; [reflexivity|]. split; [vm_compute; reflexivity|].
  discriminate.
Qed.

(** A run with a queued, a running, an incomplete and a completed
    execution, cancelled while no graph worker holds it. *)
Lemma cancel_execution_terminates_the_run_witness :
  ∃ w', cancel_execution "run" None
          (Demo.with_rows [Demo.row "e1" "A" "producer" QUEUED ∅;
                           Demo.row "e2" "B" "producer" RUNNING ∅;
                           Demo.row "e3" "C" "consumer" INCOMPLETE ∅;
                           Demo.row "e4" "P" "paid" COMPLETED ∅] Demo.world0) = (w', Ok ())
      ∧ map r_status (node_executions w') = [TERMINATED; TERMINATED; TERMINATED; COMPLETED]
      ∧ ge_status <$> graph_executions w' !! "run" = Some TERMINATED.
Proof.
  edestruct (cancel_execution_terminates_the_run "run" None
               (Demo.with_rows [Demo.row "e1" "A" "producer" QUEUED ∅;
                                Demo.row "e2" "B" "producer" RUNNING ∅;
                                Demo.row "e3" "C" "consumer" INCOMPLETE ∅;
                                Demo.row "e4" "P" "paid" COMPLETED ∅] Demo.world0))
    as (w' & Hrun & _).
  - reflexivity.
  - exists w'. split; [exact Hrun|].
    vm_compute in Hrun. injection Hrun as <-. split; reflexivity.
Defined.


(** ** The data-flow resolver *)

Section StaticLinks.

Variable X : Externals.

Lemma fill_static_ok names (d idata idata' : BlockInput) w w' :
  fill_static names d idata w = (w', Ok idata') →
  w' = w
  ∧ (∀ n, n ∈ names → idata' !! n = d !! n)
  ∧ (∀ n, n ∉ names → idata' !! n = idata !! n).
Proof.
  revert idata. induction names as [|n names IH]; intros idata; simpl.
  - intros [= <- <-]. split; [done|]. split; [|done]. intros n Hn. by apply elem_of_nil in Hn.
  - destruct (d !! n) as [v|] eqn:Hd; [|done].
    intros H. apply IH in H as (-> & Hin & Hout). split; [done|]. split.
    + intros m Hm. destruct (decide (m ∈ names)) as [?|Hnot]; [by apply Hin|].
      apply elem_of_cons in Hm as [->|?]; [|done].
      rewrite Hout by done. by rewrite lookup_insert_eq.
    + intros m Hm. apply not_elem_of_cons in Hm as [Hne Hm].
      rewrite Hout by done. by rewrite lookup_insert_ne.
Qed.

Lemma fill_static_pure names (d idata : BlockInput) w w' :
  fill_static names d idata w' = (w', snd (fill_static names d idata w)).
Proof.
  revert idata. induction names as [|n names IH]; intros idata; simpl; [done|].
  destruct (d !! n); [apply IH | done].
Qed.

Lemma concat_map_M_ok {A B} (xs : list A) (f : A → M (list B)) w w' l :
  concat_map_M xs f w = (w', Ok l) →
  ∀ x, x ∈ xs → ∃ wa wb ys, f x wa = (wb, Ok ys) ∧ ys ⊆ l.
Proof.
  revert w l. induction xs as [|x xs IH]; intros w l; simpl.
  - intros _ y Hy. by apply elem_of_nil in Hy.
  - munfold. destruct (f x w) as [w1 [ys|e]] eqn:Ef; [|done].
    destruct (concat_map_M xs f w1) as [w2 [zs|e]] eqn:Ec; [|done].
    intros [= <- <-] y Hy. apply elem_of_cons in Hy as [->|Hy].
    + exists w, w1, ys. split; [done|]. set_solver.
    + destruct (IH _ _ Ec y Hy) as (wa & wb & ys' & Hf & Hsub).
      exists wa, wb, ys'. split; [done|]. set_solver.
Qed.

Lemma add_enqueued_execution_ok u ge g i n b d w w' e :
  add_enqueued_execution u ge g i n b d w = (w', Ok e) →
  node_exec_id e = i ∧ node_id e = n ∧ data e = d ∧ graph_exec_id e = ge
  ∧ ∃ r, r ∈ node_executions w' ∧ r_node_exec_id r = i ∧ r_status r = QUEUED
         ∧ r_input_data r = d.
Proof.
  unfold add_enqueued_execution, update_node_execution_status, send_execution_update. munfold.
  destruct (List.find _ _) as [r|] eqn:Hf; [|done]. simpl.
  intros [= <- <-]. repeat split.
  apply List.find_some in Hf as [Hin Hid]. apply list_elem_of_In in Hin.
  exists (row_with QUEUED (Some d) r). simpl. repeat split.
  - apply list_elem_of_fmap. exists r. by rewrite Hid.
  - unfold has_id in Hid. by apply bool_decide_eq_true in Hid.
Qed.

Lemma complete_static_ok u ge g L next_node d0 iexec w w' ys :
  complete_static X u ge g L next_node d0 iexec w = (w', Ok ys) →
  ∃ idata,
    (∀ w0, fill_static (static_link_names next_node (r_input_data iexec)) d0
             (r_input_data iexec) w0 = (w0, Ok idata))
    ∧ (∀ n, n ∈ static_link_names next_node (r_input_data iexec) → idata !! n = d0 !! n)
    ∧ (∀ n, n ∉ static_link_names next_node (r_input_data iexec) →
            idata !! n = r_input_data iexec !! n)
    ∧ (∀ d m, validate_exec X next_node idata true = (Some d, m) → d ≠ ∅ →
         ∃ e, ys = [e] ∧ node_exec_id e = r_node_exec_id iexec
              ∧ node_id e = sink_id L ∧ data e = d)
    ∧ (falsy_input (fst (validate_exec X next_node idata true)) = true → ys = []).
Proof.
  unfold complete_static. munfold.
  destruct (fill_static _ _ _ w) as [w1 [idata|err]] eqn:Hfill; [|done].
  assert (∀ w0, fill_static (static_link_names next_node (r_input_data iexec)) d0
                  (r_input_data iexec) w0 = (w0, Ok idata)) as Hpure.
  { intros w0. rewrite (fill_static_pure _ _ _ w w0). by rewrite Hfill. }
  apply fill_static_ok in Hfill as (-> & Hin & Hout).
  intros H. exists idata. split; [done|]. split; [done|]. split; [done|].
  destruct (validate_exec X next_node idata true) as [[d|] m]; simpl in *.
  - destruct (bool_decide (d = ∅)) eqn:Hd.
    + injection H as <- <-. apply bool_decide_eq_true in Hd. split; [|done].
      intros d' m' [= <- <-] Hne. done.
    + destruct (add_enqueued_execution _ _ _ _ _ _ _ _) as [w2 [e|err]] eqn:Ha; [|done].
      injection H as <- <-. apply add_enqueued_execution_ok in Ha as (? & ? & ? & _).
      split; [|done]. intros d' m' [= <- <-] _. by exists e.
  - injection H as <- <-. split; [done|done].
Qed.

(** C3, amended.  Let a production on the source pin of a static link [L]
    be attached by the input upsert to an execution of the sink which
    thereupon validates as complete.  Then the resolver enqueues that
    execution and goes on to every INCOMPLETE execution of the sink in the
    run: the static pins it lacks are filled from the validated input, so
    that it keeps the inputs it had and, if it lacked [L.sink_name], now
    holds for that pin the value of the validated input; it is validated
    again and, when it validates, it is enqueued with the validated
    input. *)
Theorem static_value_completes_waiting_executions
    output u ge g (L : Link) next_node w w1 id0 inp0 latest d0 msg0 w' l :
  is_static L = true →
  L ∈ input_links next_node →
  parse_execution_output X output (source_name L) ≠ PNone →
  get_node (sink_id L) w = (w, Ok next_node) →
  upsert_execution_input (sink_id L) ge (sink_name L)
    (parse_execution_output X output (source_name L)) w = (w1, Ok (id0, inp0)) →
  match static_link_names next_node inp0 with
  | [] => mret None
  | _ :: _ => get_latest_node_execution (sink_id L) ge
  end w1 = (w1, Ok latest) →
  validate_exec X next_node
    (use_latest (static_link_names next_node inp0) latest inp0) true = (Some d0, msg0) →
  d0 ≠ ∅ →
  register_next_executions X output u ge g L w = (w', Ok l) →
  ∃ w2 e0 rest,
    add_enqueued_execution u ge g id0 (sink_id L) (node_block_id next_node) d0 w1
      = (w2, Ok e0)
    ∧ l = e0 :: rest
    ∧ ∀ iexec, iexec ∈ node_executions w2 →
        of_run (sink_id L) ge iexec = true → r_status iexec = INCOMPLETE →
        ∃ idata,
          fill_static (static_link_names next_node (r_input_data iexec)) d0
            (r_input_data iexec) w2 = (w2, Ok idata)
          ∧ (r_input_data iexec !! sink_name L = None →
             idata !! sink_name L = d0 !! sink_name L)
          ∧ (∀ n v, r_input_data iexec !! n = Some v → idata !! n = Some v)
          ∧ (∀ d m, validate_exec X next_node idata true = (Some d, m) → d ≠ ∅ →
               ∃ e, e ∈ rest ∧ node_exec_id e = r_node_exec_id iexec ∧ data e = d).
Proof.
  intros Hstatic HL Hparse Hnode Hupsert Hlatest Hvalid Hne Hreg.
  unfold register_next_executions in Hreg.
  assert (deliver X u ge g L (parse_execution_output X output (source_name L)) w = (w', Ok l))
    as Hdel.
  { destruct (parse_execution_output X output (source_name L)); done. }
  clear Hreg. unfold deliver in Hdel. munfold.
  rewrite Hnode, Hupsert, Hlatest in Hdel. unfold enqueue_complete in Hdel. munfold.
  rewrite Hvalid in Hdel. rewrite bool_decide_eq_false_2 in Hdel by done.
  destruct (add_enqueued_execution _ _ _ _ _ _ _ w1) as [w2 [e0|err]] eqn:Ha; [|done].
  rewrite Hstatic in Hdel. simpl in Hdel.
  unfold get_incomplete_node_executions in Hdel. munfold.
  destruct (concat_map_M _ _ w2) as [w3 [rest|err]] eqn:Hc; [|done].
  injection Hdel as <- <-.
  exists w2, e0, rest. split; [done|]. split; [done|].
  intros iexec Hin Hrun Hinc.
  assert (iexec ∈ filter (λ r, of_run (sink_id L) ge r = true ∧ r_status r = INCOMPLETE)
                    (node_executions w2)) as Hsel.
  { by apply list_elem_of_filter. }
  destruct (concat_map_M_ok _ _ _ _ _ Hc iexec Hsel) as (wa & wb & ys & Hcs & Hsub).
  apply complete_static_ok in Hcs as (idata & Hfill & Hfilled & Hkept & Henq & _).
  exists idata. split; [done|]. split; [|split].
  - intros Hmiss. apply Hfilled. unfold static_link_names.
    apply list_elem_of_fmap. exists L. split; [done|].
    apply list_elem_of_In, List.filter_In. split; [by apply list_elem_of_In|].
    rewrite Hstatic. simpl. by apply bool_decide_eq_true.
  - intros n v Hv. rewrite Hkept; [done|]. unfold static_link_names.
    intros Hn. apply list_elem_of_fmap in Hn as (L' & -> & HL').
    apply list_elem_of_In, List.filter_In in HL' as [_ HL'].
    apply andb_true_iff in HL' as [_ HL']. apply bool_decide_eq_true in HL'. congruence.
  - intros d m Hv Hd. destruct (Henq d m Hv Hd) as (e & -> & ? & ? & ?).
    exists e. split; [|done]. apply Hsub. by apply list_elem_of_singleton.
Qed.

End StaticLinks.

(** Two executions of [C] hold [x] and wait for the static [cfg]; [A]
    produces it: the first takes the value and validates, and the second
    is found by the scan and enqueued. *)
Lemma static_value_completes_waiting_executions_witness :
  ∃ w' l,
    register_next_executions Demo.X ("out", PInt 9) "u" "run" "g" Demo.link_cfg
      (Demo.world_waiting (PInt 1)) = (w', Ok l)
    ∧ ∃ e, e ∈ l ∧ node_exec_id e = "e2"
           ∧ data e = {[ "x" := PInt 2; "cfg" := PInt 9 ]}.
Proof.
  destruct (register_next_executions Demo.X ("out", PInt 9) "u" "run" "g" Demo.link_cfg
              (Demo.world_waiting (PInt 1))) as [w' [l|err]] eqn:Hreg;
    [|vm_compute in Hreg; discriminate].
  exists w', l. split; [reflexivity|].
  edestruct (static_value_completes_waiting_executions Demo.X ("out", PInt 9) "u" "run" "g"
               Demo.link_cfg Demo.node_C (Demo.world_waiting (PInt 1)))
    as (w2 & e0 & rest & Hadd & Hl & Hscan).
  - reflexivity.
  - apply list_elem_of_In. right. left. reflexivity.
  - discriminate.
  - reflexivity.
  - vm_compute. reflexivity.
  - vm_compute. reflexivity.
  - vm_compute. reflexivity.
  - intros H. apply (f_equal (λ m : BlockInput, m !! "x")) in H. vm_compute in H. discriminate.
  - exact Hreg.
  - destruct (Hscan (Demo.row "e2" "C" "consumer" INCOMPLETE {[ "x" := PInt 2 ]}))
      as (idata & Hfill & _ & _ & Henq).
    + vm_compute in Hadd. assert (w2 = fst (w2, Ok e0)) as -> by reflexivity.
      rewrite <- Hadd. apply list_elem_of_In. right. left. reflexivity.
    + reflexivity.
    + reflexivity.
    + assert (idata = {[ "x" := PInt 2; "cfg" := PInt 9 ]}) as ->.
      { vm_compute in Hfill. injection Hfill as <-. reflexivity. }
      destruct (Henq {[ "x" := PInt 2; "cfg" := PInt 9 ]} "Consumer") as (e & He & Hid & Hd).
      * vm_compute. reflexivity.
      * intros H. apply (f_equal (λ m : BlockInput, m !! "x")) in H. vm_compute in H.
        discriminate.
      * exists e. split; [|by split]. rewrite Hl. apply elem_of_cons. by right.
Defined.

(** C3 as stated fails.  The first execution of [C] holds a string where
    [x] must be an integer, the second holds [x = 2]; both wait for the
    static [cfg].  [A] produces [cfg = 9] on the source pin of the static
    link: the value goes to the first execution, which does not validate,
    and the resolver returns (lines 345-347).  The second execution is
    still INCOMPLETE, still without [cfg], and is not enqueued, though with
    [cfg = 9] its input validates. *)
Lemma static_value_does_not_reach_second_execution :
  is_static Demo.link_cfg = true
  ∧ ∃ w',
      _enqueue_next_nodes Demo.X Demo.node_A ("out", PInt 9) "u" "run" "g"
        (Demo.world_waiting (PStr "bad")) = (w', Ok [])
      ∧ List.find (has_id "e2") (node_executions w')
        = Some (Demo.row "e2" "C" "consumer" INCOMPLETE {[ "x" := PInt 2 ]})
      ∧ fst (validate_exec Demo.X Demo.node_C {[ "x" := PInt 2; "cfg" := PInt 9 ]} true)
        = Some {[ "x" := PInt 2; "cfg" := PInt 9 ]}.
Proof.
  split; [reflexivity|]. eexists. split; [vm_compute; reflexivity|].
  split; vm_compute; reflexivity.
Qed.

(** ** The graph scheduler *)

Lemma rows_evolve_refl own w : rows_evolve own w w.
Proof. split; [done|]. split; [eauto|]. auto. Qed.

Lemma rows_evolve_trans own a b c :
  rows_evolve own a b → rows_evolve own b c → rows_evolve own a c.
Proof.
  intros (Hn1 & Hp1 & Hr1) (Hn2 & Hp2 & Hr2). split; [auto|]. split.
  - intros r Hr. destruct (Hp1 r Hr) as (r1 & H1 & Hi1 & Hd1).
    destruct (Hp2 r1 H1) as (r2 & H2 & Hi2 & Hd2). exists r2. split; [done|]. split; congruence.
  - intros r' Hr' Hrun. destruct (Hr2 r' Hr' Hrun) as [H|H]; [|by right].
    by apply Hr1.
Qed.

Lemma rows_evolve_weaken own a b : rows_evolve None a b → rows_evolve own a b.
Proof.
  intros (Hn & Hp & Hr). split; [done|]. split; [done|].
  intros r' Hr' Hrun. destruct (Hr r' Hr' Hrun) as [?|?]; [by left|done].
Qed.

Lemma rows_evolve_same own w w' :
  node_executions w' = node_executions w → rows_evolve own w w'.
Proof.
  intros H. unfold rows_evolve, row_ids. rewrite H. split; [done|]. split; [eauto|]. auto.
Qed.

Lemma rows_evolve_map own (f : NodeExecutionResult → NodeExecutionResult) w :
  (∀ r, r_node_exec_id (f r) = r_node_exec_id r ∧ r_node_id (f r) = r_node_id r) →
  (∀ r, f r = r ∨ r_status (f r) ≠ RUNNING ∨ Some (r_node_exec_id r) = own) →
  rows_evolve own w (with_node_executions (map f) w).
Proof.
  intros Hkeep Hst. unfold rows_evolve, row_ids. simpl. split; [|split].
  - rewrite <- list_fmap_compose.
    assert ((r_node_exec_id ∘ f) <$> node_executions w
            = r_node_exec_id <$> node_executions w) as ->; [|done].
    apply list_fmap_ext. intros i x _. apply (Hkeep x).
  - intros r Hr. exists (f r). split; [by apply list_elem_of_fmap_2 | apply Hkeep].
  - intros r' Hr' Hrun. apply list_elem_of_fmap in Hr' as (x & -> & Hx).
    destruct (Hst x) as [Heq|[Hne|Hown]].
    + left. by rewrite Heq.
    + done.
    + right. by rewrite (proj1 (Hkeep x)).
Qed.

Lemma update_status_evolves own i st input :
  (st = RUNNING → own = Some i) →
  preserves (rows_evolve own) (update_node_execution_status i st input).
Proof.
  intros Hown w w' r. unfold update_node_execution_status.
  destruct (List.find _ _); intros [= <- _]; [|apply rows_evolve_refl].
  apply rows_evolve_map.
  - intros x. by destruct (has_id i x).
  - intros x. unfold has_id. destruct (bool_decide (r_node_exec_id x = i)) eqn:E; [|by left].
    apply bool_decide_eq_true in E. right.
    destruct (decide (st = RUNNING)) as [->|Hne]; [right; rewrite E; by rewrite Hown|by left].
Qed.

Lemma attach_input_split cand n v rows r' rows' :
  attach_input cand n v rows = Some (r', rows') →
  ∃ r pre post, rows = pre ++ r :: post ∧ rows' = pre ++ r' :: post ∧ cand r = true
                ∧ r' = row_with (r_status r) (Some (<[n := v]> (r_input_data r))) r.
Proof.
  revert r' rows'. induction rows as [|x rows IH]; intros r' rows'; simpl; [done|].
  destruct (cand x) eqn:Hc.
  - intros [= <- <-]. exists x, [], rows. done.
  - destruct (attach_input cand n v rows) as [[r0 rows0]|]; [|done].
    intros [= <- <-]. destruct (IH _ _ eq_refl) as (r & pre & post & -> & -> & ? & ?).
    exists r, (x :: pre), post. done.
Qed.

Lemma upsert_input_evolves own n g i v :
  preserves (rows_evolve own) (upsert_execution_input n g i v).
Proof.
  intros w w' res. unfold upsert_execution_input.
  destruct (attach_input _ _ _ _) as [[r' rows']|] eqn:Ha.
  - intros [= <- _]. apply attach_input_split in Ha as (r & pre & post & Hrows & -> & Hc & ->).
    apply andb_true_iff in Hc as [Hc _]. apply andb_true_iff in Hc as [_ Hinc].
    apply bool_decide_eq_true in Hinc.
    unfold rows_evolve, row_ids. simpl. rewrite Hrows. split; [|split].
    + by rewrite !fmap_app.
    + intros x Hx. apply elem_of_app in Hx as [Hx|Hx].
      * exists x. split; [|done]. apply elem_of_app. by left.
      * apply elem_of_cons in Hx as [->|Hx].
        -- eexists. split; [apply elem_of_app; right; apply elem_of_cons; by left|done].
        -- exists x. split; [|done]. apply elem_of_app. right. apply elem_of_cons. by right.
    + intros x Hx Hrun. left. apply elem_of_app in Hx as [Hx|Hx].
      * apply elem_of_app. by left.
      * apply elem_of_cons in Hx as [->|Hx]; [simpl in Hrun; congruence|].
        apply elem_of_app. right. apply elem_of_cons. by right.
  - intros [= <- _]. unfold rows_evolve, row_ids. simpl. split; [|split].
    + intros Hnd. rewrite fmap_app. simpl. apply NoDup_app. split; [done|]. split.
      * intros x Hx Hx'. apply list_elem_of_singleton in Hx' as ->.
        by apply infinite_is_fresh in Hx.
      * apply NoDup_singleton.
    + intros x Hx. exists x. split; [|done]. apply elem_of_app. by left.
    + intros x Hx Hrun. left. apply elem_of_app in Hx as [Hx|Hx]; [done|].
      apply list_elem_of_singleton in Hx as ->. simpl in Hrun. done.
Qed.


Lemma NoDup_fmap_elem_of {A B} (f : A → B) (l : list A) x y :
  NoDup (f <$> l) → x ∈ l → y ∈ l → f x = f y → x = y.
Proof.
  induction l as [|a l IH]; simpl; intros Hnd Hx Hy Hf; [by apply elem_of_nil in Hx|].
  apply NoDup_cons in Hnd as [Hna Hnd].
  apply elem_of_cons in Hx as [->|Hx]; apply elem_of_cons in Hy as [->|Hy]; [done| | |auto].
  - exfalso. apply Hna. rewrite Hf. by apply list_elem_of_fmap_2.
  - exfalso. apply Hna. rewrite <- Hf. by apply list_elem_of_fmap_2.
Qed.

Lemma has_row_evolve own w w' e : rows_evolve own w w' → has_row w e → has_row w' e.
Proof.
  intros (_ & Hp & _) (r & Hr & Hi & Hn). destruct (Hp r Hr) as (r' & Hr' & Hi' & Hn').
  exists r'. split; [done|]. split; congruence.
Qed.

Lemma upsert_input_row n g i v w w' id0 inp :
  upsert_execution_input n g i v w = (w', Ok (id0, inp)) →
  ∃ r, r ∈ node_executions w' ∧ r_node_exec_id r = id0 ∧ r_node_id r = n.
Proof.
  unfold upsert_execution_input.
  destruct (attach_input _ _ _ _) as [[r' rows']|] eqn:Ha.
  - intros [= <- <- _]. apply attach_input_split in Ha as (r & pre & post & Hrows & -> & Hc & ->).
    apply andb_true_iff in Hc as [Hc _]. apply andb_true_iff in Hc as [Hrun _].
    unfold of_run in Hrun. apply andb_true_iff in Hrun as [Hn _].
    apply bool_decide_eq_true in Hn.
    eexists. split; [simpl; apply elem_of_app; right; apply elem_of_cons; by left|done].
  - intros [= <- <- _]. eexists. split; [simpl; apply elem_of_app; right; by apply list_elem_of_singleton|done].
Qed.

Lemma concat_map_M_elem {A B} (xs : list A) (f : A → M (list B)) w w' l :
  concat_map_M xs f w = (w', Ok l) →
  ∀ y, y ∈ l → ∃ x wa wb ys, x ∈ xs ∧ f x wa = (wb, Ok ys) ∧ y ∈ ys.
Proof.
  revert w l. induction xs as [|x xs IH]; intros w l; simpl.
  - intros [= _ <-] y Hy. by apply elem_of_nil in Hy.
  - munfold. destruct (f x w) as [w1 [ys|e]] eqn:Ef; [|done].
    destruct (concat_map_M xs f w1) as [w2 [zs|e]] eqn:Ec; [|done].
    intros [= <- <-] y Hy. apply elem_of_app in Hy as [Hy|Hy].
    + exists x, w, w1, ys. split; [apply elem_of_cons; by left|done].
    + destruct (IH _ _ Ec y Hy) as (x' & wa & wb & ys' & Hx' & Hf & Hin).
      exists x', wa, wb, ys'. split; [apply elem_of_cons; by right|done].
Qed.

Section ResolverRows.

Variable X : Externals.

Lemma resolver_rows_evolve node output u ge g :
  preserves (rows_evolve None) (_enqueue_next_nodes X node output u ge g).
Proof.
  apply preserves_enqueue_next_nodes.
  - apply rows_evolve_refl.
  - apply rows_evolve_trans.
  - intros. apply upsert_input_evolves.
  - intros. by apply update_status_evolves.
  - intros upd w w' r [= <- _]. by apply rows_evolve_same.
Qed.

Lemma complete_static_entries u ge g L next_node d0 iexec w w' ys :
  complete_static X u ge g L next_node d0 iexec w = (w', Ok ys) →
  ∀ e, e ∈ ys → node_exec_id e = r_node_exec_id iexec ∧ node_id e = sink_id L.
Proof.
  unfold complete_static. munfold.
  destruct (fill_static _ _ _ w) as [w1 [idata|err]]; [|done].
  destruct (validate_exec X next_node idata true) as [[d|] m].
  - destruct (bool_decide (d = ∅)).
    + intros [= _ <-] e He. by apply elem_of_nil in He.
    + destruct (add_enqueued_execution _ _ _ _ _ _ _ _) as [w2 [e0|err]] eqn:Ha; [|done].
      intros [= _ <-] e He. apply list_elem_of_singleton in He as ->.
      apply add_enqueued_execution_ok in Ha as (? & ? & _). done.
  - intros [= _ <-] e He. by apply elem_of_nil in He.
Qed.

Lemma enqueue_complete_rows u ge g L next_node id0 inp w w' l :
  enqueue_complete X u ge g L next_node id0 inp w = (w', Ok l) →
  (∃ r, r ∈ node_executions w ∧ r_node_exec_id r = id0 ∧ r_node_id r = sink_id L) →
  ∀ e, e ∈ l → has_row w' e.
Proof.
  intros Hrun Hrow.
  assert (rows_evolve None w w') as Hev.
  { eapply (preserves_enqueue_complete (rows_evolve None)); try exact Hrun.
    - apply rows_evolve_refl.
    - apply rows_evolve_trans.
    - intros. by apply update_status_evolves.
    - intros upd w0 w0' r [= <- _]. by apply rows_evolve_same. }
  unfold enqueue_complete in Hrun. munfold.
  destruct (validate_exec X next_node inp true) as [[d|] m].
  2:{ injection Hrun as _ <-. intros e He. by apply elem_of_nil in He. }
  destruct (bool_decide (d = ∅)).
  { injection Hrun as _ <-. intros e He. by apply elem_of_nil in He. }
  destruct (add_enqueued_execution _ _ _ _ _ _ _ w) as [w2 [e0|err]] eqn:Ha; [|done].
  assert (has_row w' e0) as He0.
  { apply add_enqueued_execution_ok in Ha as (Hi & Hn & _).
    eapply has_row_evolve; [exact Hev|]. destruct Hrow as (r & ? & ? & ?).
    exists r. split; [done|]. split; congruence. }
  assert (rows_evolve None w w2) as Hev2.
  { eapply (preserves_add_enqueued_execution (rows_evolve None)); try exact Ha.
    - apply rows_evolve_refl.
    - apply rows_evolve_trans.
    - intros. by apply update_status_evolves.
    - intros upd w0 w0' r [= <- _]. by apply rows_evolve_same. }
  destruct (negb (is_static L)).
  { injection Hrun as _ <-. intros e He. by apply list_elem_of_singleton in He as ->. }
  unfold get_incomplete_node_executions in Hrun. munfold.
  destruct (concat_map_M _ _ w2) as [w3 [rest|err]] eqn:Hc; [|done].
  injection Hrun as <- <-. intros e He. apply elem_of_cons in He as [->|He]; [done|].
  destruct (concat_map_M_elem _ _ _ _ _ Hc e He) as (x & wa & wb & ys & Hx & Hf & Hin).
  apply list_elem_of_filter in Hx as [[Hrun _] Hx].
  destruct (complete_static_entries _ _ _ _ _ _ _ _ _ _ Hf e Hin) as [Hi Hn].
  assert (rows_evolve None w2 w3) as Hev3.
  { eapply (preserves_concat_map_M (rows_evolve None)); try exact Hc.
    - apply rows_evolve_refl.
    - apply rows_evolve_trans.
    - intros x0. apply preserves_complete_static.
      + apply rows_evolve_refl.
      + apply rows_evolve_trans.
      + intros. by apply update_status_evolves.
      + intros upd w0 w0' r [= <- _]. by apply rows_evolve_same. }
  eapply has_row_evolve; [exact Hev3|]. exists x. split; [done|]. split; [done|].
  unfold of_run in Hrun. apply andb_true_iff in Hrun as [Hrun _].
  apply bool_decide_eq_true in Hrun. congruence.
Qed.

Lemma deliver_rows u ge g L v w w' l :
  deliver X u ge g L v w = (w', Ok l) → ∀ e, e ∈ l → has_row w' e.
Proof.
  unfold deliver, get_node. munfold.
  destruct (List.find _ _) as [next_node|]; [|done].
  destruct (upsert_execution_input _ _ _ _ w) as [w1 [[id0 inp0]|err]] eqn:Hu; [|done].
  apply upsert_input_row in Hu.
  unfold get_latest_node_execution. munfold.
  destruct (static_link_names next_node inp0) eqn:Hnames;
    intros H; by eapply enqueue_complete_rows.
Qed.

Lemma resolver_rows node output u ge g w w' l :
  _enqueue_next_nodes X node output u ge g w = (w', Ok l) → ∀ e, e ∈ l → has_row w' e.
Proof.
  unfold _enqueue_next_nodes. generalize (output_links node). intros links.
  revert w l. induction links as [|L links IH]; intros w l; simpl.
  - intros [= _ <-] e He. by apply elem_of_nil in He.
  - munfold.
    destruct (register_next_executions X output u ge g L w) as [w1 [ys|err]] eqn:Hr; [|done].
    destruct (concat_map_M links _ w1) as [w2 [zs|err]] eqn:Hc; [|done].
    intros [= <- <-] e He. apply elem_of_app in He as [He|He]; [|by eapply IH].
    assert (rows_evolve None w1 w2) as Hev.
    { eapply (preserves_concat_map_M (rows_evolve None)); try exact Hc.
      - apply rows_evolve_refl.
      - apply rows_evolve_trans.
      - intros L'. apply preserves_register_next_executions.
        + apply rows_evolve_refl.
        + apply rows_evolve_trans.
        + intros. apply upsert_input_evolves.
        + intros. by apply update_status_evolves.
        + intros upd w0 w0' r [= <- _]. by apply rows_evolve_same. }
    eapply has_row_evolve; [exact Hev|].
    unfold register_next_executions in Hr.
    destruct (parse_execution_output X output (source_name L));
      try (by eapply deliver_rows).
    injection Hr as _ <-. by apply elem_of_nil in He.
Qed.

End ResolverRows.

Lemma stretch_rel_refl own w : stretch_rel own w w.
Proof. split; [apply rows_evolve_refl | auto]. Qed.

Lemma stretch_rel_trans own a b c :
  stretch_rel own a b → stretch_rel own b c → stretch_rel own a c.
Proof.
  intros [He1 Hy1] [He2 Hy2]. split; [by eapply rows_evolve_trans|].
  intros y Hy. destruct (Hy2 y Hy) as [H|H]; [|by right].
  destruct (Hy1 y H) as [?|?]; [by left|]. right. by eapply has_row_evolve.
Qed.

Lemma stretch_rel_same own w w' :
  node_executions w' = node_executions w → yielded w' = yielded w → stretch_rel own w w'.
Proof. intros Hr Hy. split; [by apply rows_evolve_same|]. rewrite Hy. auto. Qed.

Lemma update_status_all i st input w w' res :
  update_node_execution_status i st input w = (w', res) →
  match res with
  | Ok _ => ∀ x, x ∈ node_executions w' → r_node_exec_id x = i → r_status x = st
  | Raised _ => w' = w ∧ ∀ x, x ∈ node_executions w → r_node_exec_id x ≠ i
  end.
Proof.
  unfold update_node_execution_status.
  destruct (List.find _ _) as [r|] eqn:Hf; intros [= <- <-].
  - intros x Hx Hi. simpl in Hx. apply list_elem_of_fmap in Hx as (y & -> & Hy).
    unfold has_id in *. destruct (bool_decide (r_node_exec_id y = i)) eqn:E; [done|].
    apply bool_decide_eq_false in E. done.
  - split; [done|]. intros x Hx Hi.
    apply list_elem_of_In in Hx. pose proof (List.find_none _ _ Hf x Hx) as Hno.
    unfold has_id in Hno. by rewrite bool_decide_eq_true_2 in Hno.
Qed.

Lemma update_execution_status_spec own i st w w' res :
  (st = RUNNING → own = Some i) →
  update_execution_status i st w = (w', res) →
  rows_evolve own w w' ∧ yielded w' = yielded w
  ∧ match res with
    | Ok _ => ∀ x, x ∈ node_executions w' → r_node_exec_id x = i → r_status x = st
    | Raised _ => w' = w ∧ ∀ x, x ∈ node_executions w → r_node_exec_id x ≠ i
    end.
Proof.
  intros Hown. unfold update_execution_status, send_execution_update. munfold.
  destruct (update_node_execution_status i st None w) as [w1 [r|err]] eqn:Hu.
  - intros [= <- <-]. pose proof (update_status_all _ _ _ _ _ _ Hu) as Hall.
    pose proof (update_status_evolves own i st None Hown _ _ _ Hu) as Hev.
    simpl. split; [|split].
    + eapply rows_evolve_trans; [exact Hev|]. by apply rows_evolve_same.
    + unfold update_node_execution_status in Hu.
      destruct (List.find _ _); by injection Hu as <- _.
    + done.
  - intros [= <- <-]. pose proof (update_status_all _ _ _ _ _ _ Hu) as [-> Hall].
    split; [apply rows_evolve_refl|]. done.
Qed.

Lemma release_creds_lock_rows lock w w' res :
  release_creds_lock lock w = (w', res) →
  node_executions w' = node_executions w ∧ yielded w' = yielded w.
Proof.
  unfold release_creds_lock. destruct lock as [l|]; munfold.
  - destruct (bool_decide _); by intros [= <- _].
  - by intros [= <- _].
Qed.

Lemma acquire_credentials_rows user input fields kw lock w w' res :
  acquire_credentials user input fields kw lock w = (w', res) →
  node_executions w' = node_executions w ∧ yielded w' = yielded w.
Proof.
  revert kw lock w. induction fields as [|f fields IH]; intros kw lock w; simpl.
  - by intros [= <- _].
  - destruct (input !! f) as [v|]; [|by intros [= <- _]].
    destruct (credentials_meta v) as [c|]; [|by intros [= <- _]].
    unfold acquire. munfold. intros H. apply IH in H as [-> ->]. done.
Qed.

Lemma acquire_credentials_ok user input fields kw lock w :
  Forall (λ f, ∃ v c, input !! f = Some v ∧ credentials_meta v = Some c) fields →
  ∃ w' r, acquire_credentials user input fields kw lock w = (w', Ok r).
Proof.
  intros H. revert kw lock w. induction H as [|f fields (v & c & Hv & Hc) _ IH];
    intros kw lock w; simpl.
  - by eexists _, _.
  - rewrite Hv, Hc. unfold acquire. munfold. apply IH.
Qed.

Section WorkerRows.

Variable X : Externals.

Lemma process_output_rel node e o : preserves (stretch_rel None) (process_output X node e o).
Proof.
  intros w w' res. unfold process_output, push_output, upsert_execution_output.
  destruct o as [name v]. munfold.
  set (w0 := with_execution_outputs _ w).
  destruct (_enqueue_next_nodes X node (name, v) _ _ _ w0) as [w1 [execs|err]] eqn:Hres.
  - rewrite for_each_yield. intros [= <- _].
    pose proof (resolver_rows_evolve _ _ _ _ _ _ _ _ _ Hres) as Hev.
    pose proof (resolver_keeps_footprint _ _ _ _ _ _ _ _ _ Hres) as (_ & Hy & _).
    split.
    + eapply rows_evolve_trans; [|by apply rows_evolve_same]. exact Hev.
    + intros y Hin. simpl in Hin. apply elem_of_app in Hin as [Hin|Hin].
      * left. by rewrite Hy in Hin.
      * right. exact (resolver_rows X _ _ _ _ _ _ _ _ Hres y Hin).
  - intros [= <- _].
    pose proof (resolver_rows_evolve _ _ _ _ _ _ _ _ _ Hres) as Hev.
    pose proof (resolver_keeps_footprint _ _ _ _ _ _ _ _ _ Hres) as (_ & Hy & _).
    split; [done|]. rewrite Hy. auto.
Qed.

Lemma on_exception_spec node e err w w' res :
  on_exception X node e err w = (w', res) →
  stretch_rel None w w'
  ∧ ∀ x, x ∈ node_executions w' → r_node_exec_id x = node_exec_id e → r_status x ≠ RUNNING.
Proof.
  unfold on_exception, push_output, upsert_execution_output. munfold.
  set (w0 := with_execution_outputs _ w).
  destruct (update_execution_status (node_exec_id e) FAILED w0) as [w1 [r|err1]] eqn:Hu.
  - apply (update_execution_status_spec None) in Hu as (Hev1 & Hy1 & Hall); [|done].
    destruct (_enqueue_next_nodes X node _ _ _ _ w1) as [w2 [execs|err2]] eqn:Hres.
    + rewrite for_each_yield. intros [= <- _].
      pose proof (resolver_rows_evolve _ _ _ _ _ _ _ _ _ Hres) as Hev.
      pose proof (resolver_keeps_footprint _ _ _ _ _ _ _ _ _ Hres) as (_ & Hy & _).
      split; [split|].
      * eapply rows_evolve_trans; [exact Hev1|]. exact Hev.
      * intros y Hin. simpl in Hin. apply elem_of_app in Hin as [Hin|Hin].
        -- left. rewrite Hy, Hy1 in Hin. done.
        -- right. exact (resolver_rows X _ _ _ _ _ _ _ _ Hres y Hin).
      * simpl. intros x Hx Hi Hrun. destruct Hev as (_ & _ & Hc).
        destruct (Hc x Hx Hrun) as [Hold|?]; [|done].
        rewrite (Hall x Hold Hi) in Hrun. done.
    + intros [= <- _].
      pose proof (resolver_rows_evolve _ _ _ _ _ _ _ _ _ Hres) as Hev.
      pose proof (resolver_keeps_footprint _ _ _ _ _ _ _ _ _ Hres) as (_ & Hy & _).
      split; [split|].
      * eapply rows_evolve_trans; [exact Hev1|]. exact Hev.
      * rewrite Hy, Hy1. auto.
      * intros x Hx Hi Hrun. destruct Hev as (_ & _ & Hc).
        destruct (Hc x Hx Hrun) as [Hold|?]; [|done].
        rewrite (Hall x Hold Hi) in Hrun. done.
  - apply (update_execution_status_spec None) in Hu as (Hev1 & Hy1 & -> & Hnone); [|done].
    intros [= <- _]. split; [by apply stretch_rel_same|].
    intros x Hx Hi. by apply Hnone in Hx.
Qed.

Lemma end_or_fail_spec node e failure w w' res :
  try_except (end_of_outputs e failure) (on_exception X node e) w = (w', res) →
  stretch_rel None w w'
  ∧ ∀ x, x ∈ node_executions w' → r_node_exec_id x = node_exec_id e → r_status x ≠ RUNNING.
Proof.
  unfold try_except, end_of_outputs. destruct failure as [err|].
  - unfold raise. apply on_exception_spec.
  - munfold.
    destruct (update_execution_status (node_exec_id e) COMPLETED w) as [w0 [r|err]] eqn:Hu.
    + apply (update_execution_status_spec None) in Hu as (Hev & Hy & Hall); [|done].
      intros [= <- _]. split; [split; [done|rewrite Hy; auto]|].
      intros x Hx Hi. rewrite (Hall x Hx Hi). done.
    + apply (update_execution_status_spec None) in Hu as (Hev & Hy & -> & Hnone); [|done].
      apply on_exception_spec.
Qed.

Lemma finish_spec node e failure lock w w' res :
  try_finally (try_except (end_of_outputs e failure) (on_exception X node e))
              (release_creds_lock lock) w = (w', res) →
  stretch_rel None w w'
  ∧ ∀ x, x ∈ node_executions w' → r_node_exec_id x = node_exec_id e → r_status x ≠ RUNNING.
Proof.
  unfold try_finally.
  destruct (try_except _ _ w) as [w1 r1] eqn:Hb.
  apply end_or_fail_spec in Hb as [Hrel Hclear].
  destruct (release_creds_lock lock w1) as [w2 r2] eqn:Hrel2.
  apply release_creds_lock_rows in Hrel2 as [Hrows Hy].
  intros H. assert (w' = w2) as -> by (destruct r2; by injection H as <- _).
  split.
  - eapply stretch_rel_trans; [exact Hrel|]. by apply stretch_rel_same.
  - rewrite Hrows. exact Hclear.
Qed.

Lemma fail_and_release_spec node e err lock w w' res :
  try_finally (on_exception X node e err) (release_creds_lock lock) w = (w', res) →
  stretch_rel None w w'
  ∧ ∀ x, x ∈ node_executions w' → r_node_exec_id x = node_exec_id e → r_status x ≠ RUNNING.
Proof.
  unfold try_finally.
  destruct (on_exception X node e err w) as [w1 r1] eqn:Hb.
  apply on_exception_spec in Hb as [Hrel Hclear].
  destruct (release_creds_lock lock w1) as [w2 r2] eqn:Hrel2.
  apply release_creds_lock_rows in Hrel2 as [Hrows Hy].
  intros H. assert (w' = w2) as -> by (destruct r2; by injection H as <- _).
  split.
  - eapply stretch_rel_trans; [exact Hrel|]. by apply stretch_rel_same.
  - rewrite Hrows. exact Hclear.
Qed.

Lemma execute_node_start_spec e w w' res :
  credentials_present X →
  execute_node_start X e w = (w', res) →
  rows_evolve (Some (node_exec_id e)) w w'
  ∧ yielded w' = yielded w
  ∧ ((∀ p, res ≠ Ok (Some p)) → rows_evolve None w w').
Proof.
  intros Hcreds. unfold execute_node_start, get_node, node_block_of. munfold.
  destruct (List.find _ _) as [node|];
    [|intros [= <- _]; split; [apply rows_evolve_refl|]; split; [done|];
      intros; apply rows_evolve_refl].
  destruct (get_block X (node_block_id node)) as [b|] eqn:Hb; simpl;
    [|intros [= <- _]; split; [apply rows_evolve_refl|]; split; [done|];
      intros; apply rows_evolve_refl].
  destruct (validate_exec X node (data e) false) as [[d|] msg] eqn:Hv.
  - destruct (update_execution_status (node_exec_id e) RUNNING w) as [w1 [r|err]] eqn:Hu.
    + apply (update_execution_status_spec (Some (node_exec_id e))) in Hu
        as (Hev & Hy & _); [|done].
      specialize (Hcreds node b (data e) d msg Hb Hv).
      match goal with
      | |- context [acquire_credentials ?u ?i ?f ?k ?l w1] =>
          destruct (acquire_credentials_ok u i f k l w1 Hcreds) as (w2 & [kw lock] & Ha);
          rewrite Ha
      end.
      apply acquire_credentials_rows in Ha as [Hrows Hy2].
      intros [= <- <-]. split; [|split].
      * eapply rows_evolve_trans; [exact Hev|]. by apply rows_evolve_same.
      * congruence.
      * intros Hno. exfalso. by eapply Hno.
    + apply (update_execution_status_spec (Some (node_exec_id e))) in Hu
        as (Hev & Hy & -> & _); [|done].
      intros [= <- _]. split; [apply rows_evolve_refl|]. split; [done|].
      intros; apply rows_evolve_refl.
  - unfold push_output, upsert_execution_output. munfold.
    set (w0 := with_execution_outputs _ w).
    destruct (update_execution_status (node_exec_id e) FAILED w0) as [w1 [r|err]] eqn:Hu;
      apply (update_execution_status_spec None) in Hu as (Hev & Hy & _); try done;
      intros [= <- _]; (split; [by apply rows_evolve_weaken|]); (split; [done|]); done.
Qed.

End WorkerRows.

(** *** A block that raises *)

Section FailingBlock.

Variable X : Externals.

Lemma find_has_id rows i r :
  r ∈ rows → r_node_exec_id r = i → ∃ r0, List.find (has_id i) rows = Some r0.
Proof.
  intros Hin Hid. destruct (List.find (has_id i) rows) as [r0|] eqn:Hf; [eauto|].
  apply list_elem_of_In in Hin. pose proof (List.find_none _ _ Hf r Hin) as Hno.
  unfold has_id in Hno. by rewrite bool_decide_eq_true_2 in Hno.
Qed.

Lemma update_execution_status_found i st w r :
  r ∈ node_executions w → r_node_exec_id r = i →
  ∃ r0, r0 ∈ node_executions w ∧ r_node_exec_id r0 = i
        ∧ update_execution_status i st w
          = (with_sent_updates (λ us, us ++ [NodeUpdate (row_with st None r0)])
               (with_node_executions
                  (map (λ x, if has_id i x then row_with st None x else x)) w),
             Ok (row_with st None r0)).
Proof.
  intros Hin Hid. destruct (find_has_id _ _ _ Hin Hid) as [r0 Hf].
  exists r0. destruct (find_has_id_elem _ _ _ Hf) as [Hin0 Hid0].
  split; [done|]. split; [done|].
  unfold update_execution_status, update_node_execution_status, send_execution_update.
  munfold. by rewrite Hf.
Qed.

(** Once [execute_node] has reached the block, the store holds the
    execution: line 196 has set it RUNNING. *)
Lemma execute_node_start_row e w w1 p :
  execute_node_start X e w = (w1, Ok (Some p)) →
  ∃ r, r ∈ node_executions w1 ∧ r_node_exec_id r = node_exec_id e.
Proof.
  unfold execute_node_start, get_node, node_block_of. munfold.
  destruct (List.find _ _) as [node|]; [|done].
  destruct (get_block X (node_block_id node)) as [b|]; simpl; [|done].
  destruct (validate_exec X node (data e) false) as [[d|] msg].
  - unfold update_execution_status, update_node_execution_status, send_execution_update.
    munfold. destruct (List.find (has_id (node_exec_id e)) (node_executions w)) as [r0|] eqn:Hf;
      [|done].
    match goal with
    | |- context [acquire_credentials ?u ?i ?f ?k ?l ?w0] =>
        destruct (acquire_credentials u i f k l w0) as [w2 [[kw lock]|err]] eqn:Ha; [|done]
    end.
    apply acquire_credentials_rows in Ha as [Hrows _]. intros [= <- _]. rewrite Hrows. simpl.
    apply find_has_id_elem in Hf as [Hin Hid].
    exists (row_with RUNNING None r0). split; [|done].
    apply list_elem_of_fmap. exists r0. split; [|done].
    unfold has_id. by rewrite bool_decide_eq_true_2.
  - unfold push_output, upsert_execution_output. munfold.
    by destruct (update_execution_status _ _ _) as [w0 [r|err]].
Qed.

(** C7. When the block of a node execution raises after its outputs were
    processed, [execute_node] pushes the message as an "error" output,
    marks the execution FAILED and broadcasts it (the update succeeds:
    the execution is in the store), runs the resolver on the output
    [("error", message)], yields every successor the resolver returns,
    releases the credential lock and raises the block's exception again,
    to its caller.  That caller is the worker's [_on_node_execution], which
    catches the exception and returns normally; and [on_node_execution]
    hands the pool, and with it the callback of the scheduler, statistics
    whose error is the message as a string. *)
Theorem block_failure_is_recorded_resolved_and_contained e w w1 p outs err w2 w3 r3 w4 execs :
  execute_node_start X e w = (w1, Ok (Some p)) →
  execute (p_block p) (p_input p) (p_kwargs p) = (outs, Some err) →
  for_each outs (process_output X (p_node p) e)
    (with_block_runs (λ rs, rs ++ [node_exec_id e]) w1) = (w2, Ok ()) →
  update_execution_status (node_exec_id e) FAILED
    (with_execution_outputs
       (λ os, os ++ [(node_exec_id e, ("error", PStr (exn_str err)))]) w2) = (w3, r3) →
  _enqueue_next_nodes X (p_node p) ("error", PStr (exn_str err))
    (user_id e) (graph_exec_id e) (graph_id e) w3 = (w4, Ok execs) →
  ∃ w' r,
    execute_node X e w = (w', Raised err)
    ∧ w' = fst (release_creds_lock (p_lock p) (with_yielded (λ ys, ys ++ execs) w4))
    ∧ execution_outputs w' =
        execution_outputs w2 ++ [(node_exec_id e, ("error", PStr (exn_str err)))]
    ∧ r3 = Ok r ∧ r_status r = FAILED ∧ r_node_exec_id r = node_exec_id e
    ∧ r ∈ node_executions w3 ∧ NodeUpdate r ∈ sent_updates w'
    ∧ yielded w' = yielded w2 ++ execs
    ∧ _on_node_execution X e w = (w', Ok (Some err))
    ∧ on_node_execution X e w = (w', Ok {| nes_error := ErrorString (exn_str err) |}).
Proof.
  intros Hstart Hexec Houts Hfail Hres.
  (* the execution is still in the store when the block raises *)
  destruct (execute_node_start_row _ _ _ _ Hstart) as (r1 & Hin1 & Hid1).
  pose proof (preserves_for_each (stretch_rel None) (stretch_rel_refl None)
                (stretch_rel_trans None) outs (process_output X (p_node p) e)
                (λ o, process_output_rel X (p_node p) e o) _ _ _ Houts)
    as [(_ & Hkeep & _) _].
  destruct (Hkeep r1 Hin1) as (r2 & Hin2 & Hid2 & _).
  destruct (update_execution_status_found (node_exec_id e) FAILED
              (with_execution_outputs
                 (λ os, os ++ [(node_exec_id e, ("error", PStr (exn_str err)))]) w2) r2)
    as (r0 & Hin0 & Hid0 & Hupd); [done|congruence|].
  rewrite Hupd in Hfail. injection Hfail as <- <-.
  set (w3 := with_sent_updates _ _) in *.
  destruct (release_creds_lock_ok (p_lock p) (with_yielded (λ ys, ys ++ execs) w4))
    as (w' & Hrel & Ho & Hn & Hs & Hy).
  exists w', (row_with FAILED None r0).
  assert (execute_node X e w = (w', Raised err)) as Hrun.
  { unfold execute_node. munfold. rewrite Hstart.
    unfold run_block, try_finally, try_except. munfold. rewrite Hexec. simpl.
    rewrite Houts. unfold end_of_outputs, on_exception, push_output, upsert_execution_output.
    munfold. simpl. rewrite Hupd. fold w3. rewrite Hres. rewrite for_each_yield.
    by rewrite Hrel. }
  assert (_on_node_execution X e w = (w', Ok (Some err))) as Hon.
  { unfold _on_node_execution, try_except. munfold. by rewrite Hrun. }
  destruct (resolver_keeps_footprint _ _ _ _ _ _ _ _ _ Hres)
    as (Hout & Hyield & _ & _ & _ & _ & _ & Hsent).
  assert (row_with FAILED None r0 ∈ node_executions w3) as Hin3.
  { subst w3. simpl. apply list_elem_of_fmap. exists r0. split; [|done].
    unfold has_id. by rewrite bool_decide_eq_true_2. }
  split; [exact Hrun|]. split; [by rewrite Hrel|].
  split; [rewrite Ho; simpl; by rewrite Hout|].
  split; [done|]. split; [done|]. split; [done|]. split; [done|].
  split.
  { rewrite Hs. simpl. eapply elem_of_prefix; [|exact Hsent]. subst w3. simpl.
    apply elem_of_app. right. apply list_elem_of_here. }
  split; [rewrite Hy; simpl; by rewrite Hyield|].
  split; [exact Hon|].
  (* the store takes the statistics: the execution is still there *)
  destruct (resolver_rows_evolve X _ _ _ _ _ _ _ _ Hres) as (_ & Hkeep4 & _).
  destruct (Hkeep4 _ Hin3) as (r4 & Hin4 & Hid4 & _).
  assert (r4 ∈ node_executions w') as Hin' by (by rewrite Hn).
  destruct (find_has_id _ (node_exec_id e) _ Hin') as [r5 Hf5]; [by rewrite Hid4|].
  unfold on_node_execution, report_node_execution, update_node_execution_stats. munfold.
  rewrite Hon. simpl. by rewrite Hf5.
Qed.

End FailingBlock.

(** Node [F] raises at once; its error pin feeds [D]. *)
Lemma block_failure_is_recorded_resolved_and_contained_witness :
  ∃ w', execute_node Demo.X (Demo.entry "e1" "F" "failing" ∅) (Demo.world_of "F" "failing" ∅)
        = (w', Raised (BlockFailure "nope"))
      ∧ _on_node_execution Demo.X (Demo.entry "e1" "F" "failing" ∅)
          (Demo.world_of "F" "failing" ∅) = (w', Ok (Some (BlockFailure "nope")))
      ∧ execution_outputs w' = [("e1", ("error", PStr "nope"))]
      ∧ map node_id (yielded w') = ["D"].
Proof.
  destruct (execute_node_start Demo.X (Demo.entry "e1" "F" "failing" ∅)
              (Demo.world_of "F" "failing" ∅)) as [w1 [[p|]|err1]] eqn:Hstart;
    [|vm_compute in Hstart; discriminate|vm_compute in Hstart; discriminate].
  assert (p_block p = Demo.failing ∧ p_node p = Demo.node_F) as [Hb Hn].
  { vm_compute in Hstart. by injection Hstart as <- <-. }
  destruct (update_execution_status "e1" FAILED
              (with_execution_outputs (λ os, os ++ [("e1", ("error", PStr "nope"))])
                 (with_block_runs (λ rs, rs ++ ["e1"]) w1))) as [w3 r3] eqn:Hfail.
  destruct (_enqueue_next_nodes Demo.X Demo.node_F ("error", PStr "nope") "u" "run" "g" w3)
    as [w4 [execs|err4]] eqn:Hres.
  2:{ vm_compute in Hstart. injection Hstart as <- <-. vm_compute in Hfail.
      injection Hfail as <- <-. vm_compute in Hres. discriminate. }
  edestruct (block_failure_is_recorded_resolved_and_contained Demo.X
               (Demo.entry "e1" "F" "failing" ∅) (Demo.world_of "F" "failing" ∅)
               w1 p [] (BlockFailure "nope") (with_block_runs (λ rs, rs ++ ["e1"]) w1)
               w3 r3 w4 execs Hstart)
    as (w' & r & Hrun & _ & Hout & _ & _ & _ & _ & _ & Hy & Hon & _).
  - by rewrite Hb.
  - reflexivity.
  - exact Hfail.
  - rewrite Hn. exact Hres.
  - exists w'. split; [exact Hrun|]. split; [exact Hon|]. rewrite Hout, Hy.
    vm_compute in Hstart. injection Hstart as <- <-. vm_compute in Hfail.
    injection Hfail as <- <-. vm_compute in Hres. injection Hres as <- <-.
    split; reflexivity.
Defined.

(** The failure of a block does not reach the scheduler.  Node [F] raises;
    [execute_node] raises the exception again, [on_node_execution] returns
    statistics with the message as a string, and the scheduler that runs
    this execution records no error, counts no failed node, goes on to
    run the successor [D] and returns COMPLETED. *)
Lemma block_failure_does_not_reach_the_scheduler :
  ∃ w' s,
    execute_node Demo.X (Demo.entry "e1" "F" "failing" ∅) (Demo.world_of "F" "failing" ∅)
    = (w', Raised (BlockFailure "nope"))
    ∧ on_node_execution Demo.X (Demo.entry "e1" "F" "failing" ∅)
        (Demo.world_of "F" "failing" ∅) = (w', Ok {| nes_error := ErrorString "nope" |})
    ∧ run Demo.X Demo3.one_of_F
        [Main; Main; Main; Work 0; Work 0; Main; Main; Main; Main; Work 1; Work 1;
         Main; Main; Main; Main; Watch; Watch; Main; Main]
        (init Demo3.one_of_F (Demo.world_of "F" "failing" ∅)) = Some s
    ∧ map (λ t, (node_id (t_entry t), t_state t, t_result t)) (tasks s)
      = [("F", Done (Some (BlockFailure "nope")), Some {| nes_error := ErrorString "nope" |});
         ("D", Done None, Some {| nes_error := NoError |})]
    ∧ error s = None
    ∧ node_error_count (execution_stats s) = 0
    ∧ returned s = Some COMPLETED
    ∧ pc s = Exited.
Proof.
  eexists _, _. split; [vm_compute; reflexivity|]. split; [vm_compute; reflexivity|].
  split; [vm_compute; reflexivity|]. repeat split.
Qed.

Section Stretch.

Variable X : Externals.
Hypothesis Hcreds : credentials_present X.

Lemma reset_yielded_rel own w : stretch_rel own w (with_yielded (λ _, []) w).
Proof.
  split; [by apply rows_evolve_same|]. intros y Hy. by apply elem_of_nil in Hy.
Qed.

Lemma yielded_after_reset own w w' :
  stretch_rel own (with_yielded (λ _, []) w) w' → ∀ y, y ∈ yielded w' → has_row w' y.
Proof.
  intros [_ Hy] y Hin. destruct (Hy y Hin) as [H|H]; [by apply elem_of_nil in H|done].
Qed.

Lemma worker_stretch_spec e st w w' ys st' :
  worker_stretch X e st w = Some (w', ys, st') →
  rows_evolve (Some (node_exec_id e)) w w'
  ∧ (∀ y, y ∈ ys → has_row w' y)
  ∧ (st = Pending ∨ ∃ p o f, st = Streaming p o f)
  ∧ ((∃ p o f, st' = Streaming p o f) ∨ (∃ err, st' = Done err))
  ∧ (st = Pending → (∃ err, st' = Done err) → rows_evolve None w w')
  ∧ ((∃ p o f, st = Streaming p o f) →
       rows_evolve None w w'
       ∧ ((∃ err, st' = Done err) →
          ∀ x, x ∈ node_executions w' → r_node_exec_id x = node_exec_id e →
               r_status x ≠ RUNNING)).
Proof using Hcreds.
  unfold worker_stretch, run_generator. set (wr := with_yielded (λ _, []) w).
  assert (rows_evolve None w wr) as Hreset by (by apply rows_evolve_same).
  destruct st as [|p outs failure| |]; [| |done|done].
  - (* the worker starts *)
    destruct (execute_node_start X e wr) as [w1 res] eqn:Hs.
    apply execute_node_start_spec in Hs as (Hev & Hy & Hstrict); [|done].
    assert (rows_evolve (Some (node_exec_id e)) w w1) as Hev'.
    { eapply rows_evolve_trans; [|exact Hev]. by apply rows_evolve_weaken. }
    assert (∀ y, y ∈ yielded w1 → has_row w1 y) as Hnone.
    { rewrite Hy. intros y Hin. by apply elem_of_nil in Hin. }
    destruct res as [[p|]|err].
    + destruct (execute (p_block p) (p_input p) (p_kwargs p)) as [outs failure].
      intros [= <- <- <-]. split; [|split; [|split; [|split; [|split]]]].
      * eapply rows_evolve_trans; [exact Hev'|]. by apply rows_evolve_same.
      * exact Hnone.
      * by left.
      * left. by eexists _, _, _.
      * intros _ [err [=]].
      * intros (? & ? & ? & [=]).
    + intros [= <- <- <-]. split; [done|]. split; [done|]. split; [by left|].
      split; [right; by eexists|]. split.
      * intros _ _. eapply rows_evolve_trans; [exact Hreset|]. by apply Hstrict.
      * intros (? & ? & ? & [=]).
    + intros [= <- <- <-]. split; [done|]. split; [done|]. split; [by left|].
      split; [right; by eexists|]. split.
      * intros _ _. eapply rows_evolve_trans; [exact Hreset|]. by apply Hstrict.
      * intros (? & ? & ? & [=]).
  - destruct outs as [|o outs].
    + (* the output sequence has ended *)
      destruct (try_finally _ _ wr) as [w1 res] eqn:Hf.
      apply finish_spec in Hf as [Hrel Hclear].
      assert (rows_evolve None w w1) as Hev.
      { eapply rows_evolve_trans; [exact Hreset|]. apply Hrel. }
      intros H.
      assert (∃ err, st' = Done err ∧ w' = w1 ∧ ys = yielded w1) as (err & -> & -> & ->).
      { destruct res; injection H as <- <- <-; by eexists. }
      clear H. split; [by apply rows_evolve_weaken|].
      split; [by eapply yielded_after_reset|]. split; [right; by eexists _, _, _|].
      split; [right; by eexists|]. split; [done|]. intros _. split; [done|]. intros _. done.
    + (* one more output *)
      destruct (process_output X (p_node p) e o wr) as [w1 [[]|err]] eqn:Hp;
        apply process_output_rel in Hp as Hrel.
      * intros [= <- <- <-].
        assert (rows_evolve None w w1) as Hev.
        { eapply rows_evolve_trans; [exact Hreset|]. apply Hrel. }
        split; [by apply rows_evolve_weaken|].
        split; [by eapply yielded_after_reset|]. split; [right; by eexists _, _, _|].
        split; [left; by eexists _, _, _|]. split; [done|]. intros _. split; [done|].
        intros [? [=]].
      * destruct (try_finally _ _ w1) as [w2 res] eqn:Hf.
        apply fail_and_release_spec in Hf as [Hrel2 Hclear].
        pose proof (stretch_rel_trans _ _ _ _ Hrel Hrel2) as Hrel3.
        assert (rows_evolve None w w2) as Hev.
        { eapply rows_evolve_trans; [exact Hreset|]. apply Hrel3. }
        intros H.
        assert (∃ err', st' = Done err' ∧ w' = w2 ∧ ys = yielded w2) as (err' & -> & -> & ->).
        { destruct res; injection H as <- <- <-; by eexists. }
        clear H. split; [by apply rows_evolve_weaken|].
        split; [by eapply yielded_after_reset|]. split; [right; by eexists _, _, _|].
        split; [right; by eexists|]. split; [done|]. intros _. split; [done|]. intros _. done.
Qed.

End Stretch.

Section SchedulerInvariant.

Variable X : Externals.
Variable graph_exec : GraphExecutionEntry.
Hypothesis Hcreds : credentials_present X.

Local Abbreviation G := (g_graph_exec_id graph_exec).

Lemma charge_usage_rows e c stats w w' stats' r :
  _charge_usage X e c stats w = (w', stats', r) → node_executions w' = node_executions w.
Proof.
  unfold _charge_usage, spend_credits.
  destruct (get_block X (block_id e)) as [b|]; [|by intros [= <- _ _]].
  destruct (block_usage_cost X b (data e)) as [c1 f].
  destruct (execution_usage_cost X c) as [c2 c'].
  destruct (0 <? c1); [destruct (credits w <? c1)|]; try (by intros [= <- _ _]);
    (destruct (0 <? c2); [destruct (_ <? c2)|]); by intros [= <- _ _].
Qed.

Lemma fail_low_balance_rows e stats b a w w' r :
  fail_low_balance X graph_exec e stats b a w = (w', r) → rows_evolve None w w'.
Proof.
  unfold fail_low_balance, send_execution_update, _handle_low_balance_notif,
    get_graph_metadata, queue_notification. munfold.
  destruct (update_node_execution_status (node_exec_id e) FAILED None w) as [w1 [x|err]] eqn:Hu;
    pose proof (update_status_evolves None _ FAILED None ltac:(done) _ _ _ Hu) as Hev;
    intros [= <- _]; [|done].
  eapply rows_evolve_trans; [exact Hev|]. by apply rows_evolve_same.
Qed.

Lemma persist_result_rows st stats err w :
  node_executions (fst (persist_result graph_exec st stats err w)) = node_executions w.
Proof.
  unfold persist_result, update_graph_execution_stats, send_execution_update,
    _handle_agent_run_notif, get_graph_metadata, queue_notification. munfold.
  by destruct (graph_executions w !! _).
Qed.

(** The rest of [on_node_execution] leaves the world as it is. *)
Lemma task_result_world e err w : (task_result e err w).1 = w.
Proof.
  unfold task_result, error_logged, try_except, report_node_execution,
    update_node_execution_stats. munfold.
  by destruct (List.find _ _).
Qed.

(** What the callback changes. *)
Lemma callback_on_fields e res s :
  node_executions (world (callback_on e res s)) = node_executions (world s)
  ∧ tasks (callback_on e res s) = tasks s ∧ queue (callback_on e res s) = queue s
  ∧ pc (callback_on e res s) = pc s
  ∧ running_executions (callback_on e res s) = delete (node_id e) (running_executions s).
Proof.
  unfold callback_on, update_graph_execution_stats, send_execution_update. munfold.
  destruct res as [res|]; simpl; [|done].
  by destruct (graph_executions (world s) !! _).
Qed.

(** A move that leaves the tasks and their registration alone. *)
Lemma sched_inv_transfer s s' :
  sched_inv G s →
  rows_evolve None (world s) (world s') →
  tasks s' = tasks s →
  running_executions s' = running_executions s →
  (∀ e, e ∈ queue s' → e ∈ queue s) →
  (∀ e, pc_entry (pc s') = Some e → e ∈ queue s ∨ pc_entry (pc s) = Some e) →
  (∀ e t0, pc s' = AtWaitSame e t0 →
     ∀ t task, tasks s !! t = Some task → ready task = false →
               node_id (t_entry task) = node_id e → t = t0) →
  (∀ e, pc s' = AtCharge e ∨ pc s' = AtSubmit e →
     ∀ t task, tasks s !! t = Some task → node_id (t_entry task) = node_id e →
               ready task = true) →
  sched_inv G s'.
Proof.
  intros [Iids Irunning Iqueue Itasks Ipc Iregistered Iwaited Ifree] Hev Ht Hr Hq Hpc Hw Hf. split.
  - by apply Hev.
  - intros r Hin HG Hrun. destruct Hev as (_ & _ & Hc).
    destruct (Hc r Hin Hrun) as [Hold|?]; [|done]. rewrite Ht. by apply Irunning.
  - intros e He. eapply has_row_evolve; [exact Hev|]. by apply Iqueue, Hq.
  - rewrite Ht. intros t task Hl. eapply has_row_evolve; [exact Hev|]. by eapply Itasks.
  - intros e He. eapply has_row_evolve; [exact Hev|].
    destruct (Hpc e He) as [?|?]; [by apply Iqueue | by apply Ipc].
  - rewrite Ht, Hr. done.
  - rewrite Ht. done.
  - rewrite Ht. done.
Qed.

Lemma task_ready_true s t :
  task_ready s t = true → ∃ task, tasks s !! t = Some task ∧ ready task = true.
Proof. unfold task_ready. destruct (tasks s !! t) as [task|]; [eauto|done]. Qed.

Ltac transfer_from s :=
  apply (sched_inv_transfer s); simpl;
  [ done
  | try apply rows_evolve_refl; try (by apply rows_evolve_same)
  | done
  | done
  | try done; try (by auto)
  | try done; try (by intros ? [=]); try (by auto)
  | try done; try (by intros ? ? [=]); try (by eauto)
  | try done; try (by intros ? [[=]|[=]]); try (by eauto) ].

Lemma main_step_inv s s' :
  sched_inv G s → main_step X graph_exec s = Some s' → sched_inv G s'.
Proof using Hcreds.
  intros Hinv. pose proof Hinv as [Iids Irunning Iqueue Itasks Ipc Iregistered Iwaited Ifree]. unfold main_step.
  destruct (pc s) eqn:Hpc.
  - (* AtLoop *)
    destruct (queue s) as [|exec_data rest] eqn:Hq.
    { intros [= <-]. transfer_from s. }
    destruct (cancel s).
    { intros [= <-]. transfer_from s. }
    simpl.
    assert (∀ e, e ∈ rest → e ∈ queue s) as Hrest.
    { intros e He. rewrite Hq. apply elem_of_cons. by right. }
    assert (exec_data ∈ queue s) as Hhead.
    { rewrite Hq. apply elem_of_cons. by left. }
    destruct (running_executions s !! node_id exec_data) as [t|] eqn:Hreg.
    + destruct (task_ready (set_queue rest s) t) eqn:Hready; intros [= <-].
      * transfer_from s.
        -- intros e' [= <-]. by left.
        -- intros e' [[= <-]|[=]] t' task Ht' Hn.
           destruct (ready task) eqn:Hr; [done|].
           pose proof (Iregistered t' task Ht' Hr) as Hreg'.
           rewrite Hn, Hreg in Hreg'. injection Hreg' as <-.
           apply task_ready_true in Hready as (task0 & Ht0 & Hr0). simpl in Ht0. congruence.
      * transfer_from s.
        -- intros e' [= <-]. by left.
        -- intros e' t0' [= <- <-] t' task Ht' Hr Hn.
           pose proof (Iregistered t' task Ht' Hr) as Hreg'.
           rewrite Hn, Hreg in Hreg'. by injection Hreg'.
    + intros [= <-]. transfer_from s.
      * intros e' [= <-]. by left.
      * intros e' [[= <-]|[=]] t' task Ht' Hn.
        destruct (ready task) eqn:Hr; [done|].
        pose proof (Iregistered t' task Ht' Hr) as Hreg'.
        rewrite Hn, Hreg in Hreg'. done.
  - (* AtWaitSame *)
    destruct (task_ready s t) eqn:Hready; [|done]. intros [= <-].
    transfer_from s.
    + intros e' [= <-]. right. by rewrite Hpc.
    + intros e' [[= <-]|[=]] t' task Ht' Hn.
      destruct (ready task) eqn:Hr; [done|].
      pose proof (Iwaited e t eq_refl t' task Ht' Hr Hn) as ->.
      apply task_ready_true in Hready as (task0 & Ht0 & Hr0). congruence.
  - (* AtCharge *)
    destruct (_charge_usage X e _ _ _) as [[w stats] res] eqn:Hc.
    apply charge_usage_rows in Hc.
    destruct res as [count|err].
    { intros [= <-]. transfer_from s.
      - intros e' [= <-]. right. by rewrite Hpc.
      - intros e' [[=]|[= <-]]. apply Ifree. by left. }
    destruct err as [| | | msg balance amount |];
      try (intros [= <-]; by transfer_from s).
    unfold upsert_execution_output. munfold.
    destruct (fail_low_balance _ _ _ _ _ _ _) as [w2 r2] eqn:Hfl.
    apply fail_low_balance_rows in Hfl. simpl in Hfl.
    assert (rows_evolve None (world s) w2) as Hev.
    { eapply rows_evolve_trans; [|exact Hfl]. by apply rows_evolve_same. }
    destruct r2; intros [= <-]; by transfer_from s.
  - (* AtSubmit *)
    destruct (pool_up s).
    2:{ intros [= <-]. transfer_from s. }
    intros [= <-]. split; simpl.
    + done.
    + intros r Hin HG Hrun. destruct (Irunning r Hin HG Hrun) as (t & task & Ht & ? & ?).
      exists t, task. split; [|done]. by apply lookup_app_l_Some.
    + done.
    + intros t task Ht. apply lookup_app_Some in Ht as [Ht|[_ Ht]]; [by eapply Itasks|].
      destruct (t - length (tasks s))%nat; [|done]. injection Ht as <-. simpl.
      by apply Ipc.
    + done.
    + intros t task Ht Hr. apply lookup_app_Some in Ht as [Ht|[Hlen Ht]].
      * assert (node_id (t_entry task) ≠ node_id e) as Hne.
        { intros Hn. pose proof (Ifree e (or_intror eq_refl) t task Ht Hn). congruence. }
        rewrite lookup_insert_ne by done. by apply Iregistered.
      * destruct (t - length (tasks s))%nat eqn:Hd; [|done]. injection Ht as <-. simpl.
        rewrite lookup_insert_eq. f_equal. lia.
    + done.
    + intros e' [[=]|[=]].
  - (* AtIdle *)
    destruct (queue s); [destruct (bool_decide _)|]; intros [= <-]; transfer_from s.
  - (* AtIdleFor *)
    destruct items as [|[nid t] items].
    { intros [= <-]. transfer_from s. }
    destruct (cancel s); [|destruct (queue s)]; intros [= <-]; transfer_from s.
  - intros [= <-]. transfer_from s.
  - destruct (cancel s); intros [= <-]; transfer_from s.
  - destruct (watcher s); try done. intros [= <-]. transfer_from s.
  - destruct (returned s) as [st|]; [|done].
    pose proof (persist_result_rows st (execution_stats s) (error s) (world s)) as Hrows.
    destruct (persist_result _ _ _ _ _) as [w r]. intros [= <-]. transfer_from s.
  - done.
Qed.

Lemma kill_fields task :
  t_entry (kill task) = t_entry task ∧ ready (kill task) = ready task
  ∧ (started (t_state task) → started (t_state (kill task))).
Proof. unfold kill, ready. by destruct (t_state task). Qed.

Lemma watcher_step_inv s s' :
  sched_inv G s → watcher_step s = Some s' → sched_inv G s'.
Proof.
  intros Hinv. pose proof Hinv as [Iids Irunning Iqueue Itasks Ipc Iregistered Iwaited Ifree]. unfold watcher_step.
  destruct (watcher s).
  - destruct (cancel s); [|done]. intros [= <-]. by transfer_from s.
  - intros [= <-]. by transfer_from s.
  - intros [= <-]. by transfer_from s.
  - intros [= <-]. split; simpl; try done.
    + intros r Hin HG Hrun. destruct (Irunning r Hin HG Hrun) as (t & task & Ht & Hi & Hs).
      exists t, (kill task). rewrite list_lookup_fmap, Ht.
      destruct (kill_fields task) as (-> & _ & Hk). auto.
    + intros t task Ht. rewrite list_lookup_fmap in Ht.
      destruct (tasks s !! t) as [task0|] eqn:Ht0; [|done]. injection Ht as <-.
      rewrite (proj1 (kill_fields task0)). by eapply Itasks.
    + intros t task Ht Hr. rewrite list_lookup_fmap in Ht.
      destruct (tasks s !! t) as [task0|] eqn:Ht0; [|done]. injection Ht as <-.
      destruct (kill_fields task0) as (-> & Hrk & _). rewrite Hrk in Hr.
      by apply Iregistered.
    + intros e t0 Hpc t task Ht Hr Hn. rewrite list_lookup_fmap in Ht.
      destruct (tasks s !! t) as [task0|] eqn:Ht0; [|done]. injection Ht as <-.
      destruct (kill_fields task0) as (He & Hrk & _). rewrite He in Hn. rewrite Hrk in Hr.
      by eapply Iwaited.
    + intros e Hpc t task Ht Hn. rewrite list_lookup_fmap in Ht.
      destruct (tasks s !! t) as [task0|] eqn:Ht0; [|done]. injection Ht as <-.
      destruct (kill_fields task0) as (He & -> & _). rewrite He in Hn.
      by eapply Ifree.
  - intros [= <-]. by transfer_from s.
  - done.
Qed.

Lemma work_inv t s s' :
  sched_inv G s → work X t s = Some s' → sched_inv G s'.
Proof using Hcreds.
  intros Hinv. pose proof Hinv as [Iids Irunning Iqueue Itasks Ipc Iregistered Iwaited Ifree]. unfold work.
  destruct (tasks s !! t) as [task|] eqn:Ht; [|done].
  destruct (worker_stretch X (t_entry task) (t_state task) (world s))
    as [[[w ys] st]|] eqn:Hw; [|done].
  apply worker_stretch_spec in Hw as (Hown & Hys & Hst & Hst' & Hpend & Hstream); [|done].
  destruct (match st with
            | Done err => task_result (t_entry task) err w
            | _ => (w, None)
            end) as [w1 result] eqn:Hres.
  assert (w1 = w) as ->.
  { destruct st; try (by injection Hres as <- _).
    pose proof (task_result_world (t_entry task) err w) as Hw1. by rewrite Hres in Hw1. }
  set (task' := {| t_entry := t_entry task; t_state := st; t_result := result |}).
  set (s1 := set_world w (set_queue (queue s ++ ys)
                            (set_tasks (<[t := task']> (tasks s)) s))).
  assert (ready task = false) as Hunready.
  { unfold ready. destruct Hst as [->|(? & ? & ? & ->)]; done. }
  assert (t < length (tasks s))%nat as Hlen by (by eapply lookup_lt_Some).
  assert (∀ t1 task1, tasks s1 !! t1 = Some task1 →
            ∃ task0, tasks s !! t1 = Some task0 ∧ t_entry task1 = t_entry task0
                     ∧ (t1 ≠ t → task1 = task0) ∧ (t1 = t → task1 = task')) as Hold.
  { intros t1 task1 H1. simpl in H1. destruct (decide (t = t1)) as [<-|Hne].
    - rewrite list_lookup_insert_eq in H1 by done. injection H1 as <-.
      exists task. done.
    - rewrite list_lookup_insert_ne in H1 by done. exists task1. done. }
  assert (rows_evolve None (world s) w ∨
          (t_state task = Pending ∧ ∃ p o f, st = Streaming p o f)) as Hcase.
  { destruct Hst as [Hp|Hs]; [|left; by apply Hstream].
    destruct Hst' as [?|?]; [right; done | left; by apply Hpend]. }
  assert (sched_inv G s1) as Hinv1.
  { split; simpl.
    - by apply Hown.
    - intros r Hin HG Hrun.
      assert (r ∈ node_executions (world s) ∨
              (t_state task = Pending ∧ (∃ p o f, st = Streaming p o f)
               ∧ r_node_exec_id r = node_exec_id (t_entry task))) as [Hin0|(Hp & Hs & Hid)].
      { destruct Hcase as [(_ & _ & Hc)|[Hp Hs]].
        - left. destruct (Hc r Hin Hrun) as [?|?]; done.
        - destruct Hown as (_ & _ & Hc). destruct (Hc r Hin Hrun) as [?|Hid]; [by left|].
          right. injection Hid as Hid. done. }
      + destruct (Irunning r Hin0 HG Hrun) as (tw & taskw & Htw & Hi & Hs).
        destruct (decide (tw = t)) as [->|Hne].
        * assert (taskw = task) as -> by congruence.
          exists t, task'. rewrite list_lookup_insert_eq by done.
          split; [done|]. split; [done|]. simpl.
          destruct Hst as [Hp|Hstr]; [by rewrite Hp in Hs|].
          destruct Hst' as [(? & ? & ? & ->)|Hdone]; [done|].
          exfalso. destruct (Hstream Hstr) as [_ Hclear].
          by apply (Hclear Hdone r Hin).
        * exists tw, taskw. by rewrite list_lookup_insert_ne.
      + exists t, task'. rewrite list_lookup_insert_eq by done.
        split; [done|]. split; [done|]. simpl. by destruct Hs as (? & ? & ? & ->).
    - intros e He. apply elem_of_app in He as [He|He]; [|by apply Hys].
      eapply has_row_evolve; [exact Hown|]. by apply Iqueue.
    - intros t1 task1 H1. destruct (Hold t1 task1 H1) as (task0 & H0 & -> & _).
      eapply has_row_evolve; [exact Hown|]. by eapply Itasks.
    - intros e He. eapply has_row_evolve; [exact Hown|]. by apply Ipc.
    - intros t1 task1 H1 Hr. destruct (Hold t1 task1 H1) as (task0 & H0 & -> & Hne & Heq).
      apply Iregistered; [done|]. destruct (decide (t1 = t)) as [->|Hd].
      + congruence.
      + by rewrite <- (Hne Hd).
    - intros e t0 Hpc t1 task1 H1 Hr Hn.
      destruct (Hold t1 task1 H1) as (task0 & H0 & He & Hne & Heq). rewrite He in Hn.
      eapply Iwaited; [done|exact H0| |done]. destruct (decide (t1 = t)) as [->|Hd].
      + congruence.
      + by rewrite <- (Hne Hd).
    - intros e Hpc t1 task1 H1 Hn.
      destruct (Hold t1 task1 H1) as (task0 & H0 & He & Hne & Heq). rewrite He in Hn.
      pose proof (Ifree e Hpc t1 task0 H0 Hn) as Hr0.
      destruct (decide (t1 = t)) as [->|Hd]; [congruence|]. by rewrite (Hne Hd). }
  assert (∀ err, st = Done err → sched_inv G (callback_on (t_entry task) result s1)) as Hcb.
  { intros err ->. destruct Hinv1 as [I1ids I1running I1queue I1tasks I1pc I1registered I1waited I1free].
    destruct (callback_on_fields (t_entry task) result s1)
      as (Hrows & Htasks & Hqueue & Hpc & Hrun).
    split.
    - unfold row_ids. by rewrite Hrows.
    - rewrite Hrows, Htasks. done.
    - rewrite Hqueue. unfold has_row. rewrite Hrows. done.
    - rewrite Htasks. unfold has_row. rewrite Hrows. done.
    - rewrite Hpc. unfold has_row. rewrite Hrows. done.
    - rewrite Htasks, Hrun. intros t1 task1 H1 Hr.
      pose proof (I1registered t1 task1 H1 Hr) as Hreg.
      destruct (decide (node_id (t_entry task1) = node_id (t_entry task))) as [Heq|Hne].
      + exfalso. destruct (Hold t1 task1 H1) as (task0 & H0 & He & Hne & Heq').
        destruct (decide (t1 = t)) as [->|Hd].
        * rewrite (Heq' eq_refl) in Hr. done.
        * rewrite (Hne Hd) in Hr, Heq.
          pose proof (Iregistered t1 task0 H0 Hr) as R1.
          pose proof (Iregistered t task Ht Hunready) as R2.
          rewrite Heq in R1. congruence.
      + by rewrite lookup_delete_ne.
    - rewrite Htasks, Hpc. done.
    - rewrite Htasks, Hpc. done. }
  destruct st; intros [= <-]; eauto.
Qed.

Lemma step_inv l s s' :
  sched_inv G s → step X graph_exec l s = Some s' → sched_inv G s'.
Proof using Hcreds.
  destruct l; simpl.
  - apply main_step_inv.
  - apply watcher_step_inv.
  - apply work_inv.
  - intros [Iids Irunning Iqueue Itasks Ipc Iregistered Iwaited Ifree] [= <-]. by split.
Qed.

Lemma run_inv ls s s' :
  sched_inv G s → run X graph_exec ls s = Some s' → sched_inv G s'.
Proof using Hcreds.
  revert s. induction ls as [|l ls IH]; intros s Hinv; simpl.
  - by intros [= <-].
  - destruct (step X graph_exec l s) as [s1|] eqn:Hs; [|done].
    apply IH. by eapply step_inv.
Qed.

Lemma init_inv w :
  NoDup (row_ids w) →
  (∀ r, r ∈ node_executions w → r_graph_exec_id r = G → r_status r ≠ RUNNING) →
  (∀ e, e ∈ start_node_execs graph_exec → has_row w e) →
  sched_inv G (init graph_exec w).
Proof.
  intros Hids Hnone Hstart. split; simpl; try done.
  intros r Hin HG Hrun. by destruct (Hnone r Hin HG).
Qed.

(** In a state that satisfies the invariant, the RUNNING executions of a
    node within the run are one at most. *)
Lemma sched_inv_one_running s r1 r2 :
  sched_inv G s →
  r1 ∈ node_executions (world s) → r2 ∈ node_executions (world s) →
  r_graph_exec_id r1 = G → r_graph_exec_id r2 = G →
  r_status r1 = RUNNING → r_status r2 = RUNNING →
  r_node_id r1 = r_node_id r2 → r1 = r2.
Proof.
  intros [Iids Irunning Iqueue Itasks Ipc Iregistered Iwaited Ifree] H1 H2 G1 G2 S1 S2 Hn.
  destruct (Irunning r1 H1 G1 S1) as (t1 & task1 & Ht1 & Hi1 & Hs1).
  destruct (Irunning r2 H2 G2 S2) as (t2 & task2 & Ht2 & Hi2 & Hs2).
  assert (∀ (r : NodeExecutionResult) t task,
            r ∈ node_executions (world s) → tasks s !! t = Some task →
            node_exec_id (t_entry task) = r_node_exec_id r →
            node_id (t_entry task) = r_node_id r) as Hnode.
  { intros r t task Hr Ht Hi. destruct (Itasks t task Ht) as (x & Hx & Hxi & Hxn).
    assert (x = r) as ->; [|done].
    eapply (NoDup_fmap_elem_of r_node_exec_id); [exact Iids|done|done|congruence]. }
  assert (∀ task, started (t_state task) → ready task = false) as Hsr.
  { intros task. unfold ready. by destruct (t_state task). }
  pose proof (Iregistered t1 task1 Ht1 (Hsr _ Hs1)) as R1.
  pose proof (Iregistered t2 task2 Ht2 (Hsr _ Hs2)) as R2.
  rewrite (Hnode r1 t1 task1 H1 Ht1 Hi1) in R1.
  rewrite (Hnode r2 t2 task2 H2 Ht2 Hi2) in R2.
  rewrite Hn in R1. assert (t1 = t2) as -> by congruence.
  assert (task1 = task2) as -> by congruence.
  eapply (NoDup_fmap_elem_of r_node_exec_id); [exact Iids|done|done|congruence].
Qed.

End SchedulerInvariant.

Section ValidationFacts.

Variable X : Externals.

Lemma validate_exec_checked node (data d : BlockInput) resolve msg :
  validate_exec X node data resolve = (Some d, msg) →
  ∃ b, get_block X (node_block_id node) = Some b
       ∧ get_missing_input (input_schema b) d = []
       ∧ (get_mismatch_error (input_schema b) d = None
          ∨ get_mismatch_error (input_schema b) d = Some "").
Proof.
  unfold validate_exec. destruct (get_block X (node_block_id node)) as [b|]; [|done].
  destruct (get_missing_links _ _ _); [|done].
  destruct (get_missing_input _ _) eqn:Hm; [|done].
  destruct (get_mismatch_error _ _) as [err|] eqn:He.
  - destruct (String.eqb err "") eqn:E; [|done]. intros [= <- _].
    apply String.eqb_eq in E as ->. eauto.
  - intros [= <- _]. eauto.
Qed.

End ValidationFacts.

(** X23. One running execution per node, when credentials are acquired.
    Let the scheduler of a run start from a store whose execution ids are
    distinct, in which no execution of the run is RUNNING and every
    starting entry names a stored execution of its node, and let validated
    inputs carry the credential fields of their schema (so that lines
    213-215 do not raise).  Then, after any sequence of moves of the
    scheduler thread, the watcher thread, the workers and the canceller:
    two executions of the run that are RUNNING and belong to the same node
    are the same execution; no two unfinished tasks of the pool are for
    the same node; and when the scheduler is about to charge and submit an
    entry, every task for the node of that entry has finished (it waited
    on line 788 otherwise). *)
Theorem one_running_execution_per_node X graph_exec w ls s :
  credentials_present X →
  NoDup (row_ids w) →
  (∀ r, r ∈ node_executions w → r_graph_exec_id r = g_graph_exec_id graph_exec →
        r_status r ≠ RUNNING) →
  (∀ e, e ∈ start_node_execs graph_exec → has_row w e) →
  run X graph_exec ls (init graph_exec w) = Some s →
  (∀ r1 r2, r1 ∈ node_executions (world s) → r2 ∈ node_executions (world s) →
     r_graph_exec_id r1 = g_graph_exec_id graph_exec →
     r_graph_exec_id r2 = g_graph_exec_id graph_exec →
     r_status r1 = RUNNING → r_status r2 = RUNNING →
     r_node_id r1 = r_node_id r2 → r1 = r2)
  ∧ (∀ t1 t2 task1 task2,
       tasks s !! t1 = Some task1 → tasks s !! t2 = Some task2 →
       ready task1 = false → ready task2 = false →
       node_id (t_entry task1) = node_id (t_entry task2) → t1 = t2)
  ∧ (∀ e, pc s = AtCharge e ∨ pc s = AtSubmit e →
       ∀ t task, tasks s !! t = Some task →
                 node_id (t_entry task) = node_id e → ready task = true).
Proof.
  intros Hcreds Hids Hnone Hstart Hrun.
  assert (sched_inv (g_graph_exec_id graph_exec) s) as Hinv.
  { eapply run_inv; [done| |exact Hrun]. by apply init_inv. }
  split; [|split].
  - intros r1 r2. by apply sched_inv_one_running.
  - intros t1 t2 task1 task2 H1 H2 R1 R2 Hn. destruct Hinv as [Iids Irunning Iqueue Itasks Ipc Iregistered Iwaited Ifree].
    pose proof (Iregistered t1 task1 H1 R1) as Q1.
    pose proof (Iregistered t2 task2 H2 R2) as Q2.
    rewrite Hn in Q1. congruence.
  - by destruct Hinv as [Iids Irunning Iqueue Itasks Ipc Iregistered Iwaited Ifree].
Qed.

Lemma demo_credentials_present : credentials_present Demo.X.
Proof.
  intros node b data d msg Hb Hv.
  apply validate_exec_checked in Hv as (b' & Hb' & Hmiss & Hmis).
  rewrite Hb in Hb'. injection Hb' as <-.
  cbv [Demo.X get_block Demo.catalog List.find fst] in Hb.
  repeat match type of Hb with
         | context [String.eqb ?a ?c] => destruct (String.eqb a c)
         end;
    simpl in Hb; try discriminate; injection Hb as <-; simpl; try (by constructor).
  simpl in Hmiss, Hmis.
  destruct (d !! "credentials_a") as [va|] eqn:Ha; [|done].
  destruct (d !! "credentials_b") as [vb|] eqn:Hbb; [|done].
  simpl in Hmis.
  destruct (credentials_meta va) as [ca|] eqn:Hca; [|by destruct Hmis].
  destruct (credentials_meta vb) as [cb|] eqn:Hcb; [|by destruct Hmis].
  repeat constructor; eauto.
Qed.

(** Two queued executions of node [A].  The scheduler dispatches the first
    and blocks before the second while the first is RUNNING; once it has
    completed, the second is dispatched and runs. *)
Lemma one_running_execution_per_node_witness :
  ∃ s1 s2,
    run Demo.X Demo.two_of_A [Main; Main; Main; Main; Main; Work 0] (init Demo.two_of_A Demo.world_two_of_A)
      = Some s1
    ∧ map r_status (node_executions (world s1)) = [RUNNING; QUEUED]
    ∧ step Demo.X Demo.two_of_A Main s1 = None
    ∧ run Demo.X Demo.two_of_A [Work 0; Work 0; Main; Main; Main; Work 1] s1 = Some s2
    ∧ map (λ r, (r_node_id r, r_status r)) (node_executions (world s2))
      = [("A", COMPLETED); ("A", RUNNING); ("C", INCOMPLETE)]
    ∧ ∀ r1 r2, r1 ∈ node_executions (world s2) → r2 ∈ node_executions (world s2) →
        r_graph_exec_id r1 = "run" → r_graph_exec_id r2 = "run" →
        r_status r1 = RUNNING → r_status r2 = RUNNING →
        r_node_id r1 = r_node_id r2 → r1 = r2.
Proof.
  destruct (run Demo.X Demo.two_of_A [Main; Main; Main; Main; Main; Work 0]
              (init Demo.two_of_A Demo.world_two_of_A)) as [s1|] eqn:H1;
    [|vm_compute in H1; discriminate].
  destruct (run Demo.X Demo.two_of_A [Work 0; Work 0; Main; Main; Main; Work 1] s1)
    as [s2|] eqn:H2.
  2:{ vm_compute in H1. injection H1 as <-. vm_compute in H2. discriminate. }
  exists s1, s2. split; [first [exact H1 | reflexivity]|].
  split; [vm_compute in H1; injection H1 as <-; reflexivity|].
  split; [vm_compute in H1; injection H1 as <-; reflexivity|].
  split; [first [exact H2 | reflexivity]|].
  split; [vm_compute in H1; injection H1 as <-; vm_compute in H2; injection H2 as <-;
          reflexivity|].
  apply (one_running_execution_per_node Demo.X Demo.two_of_A Demo.world_two_of_A
           ([Main; Main; Main; Main; Main; Work 0]
            ++ [Work 0; Work 0; Main; Main; Main; Work 1]) s2).
  - exact demo_credentials_present.
  - apply NoDup_cons. split; [|apply NoDup_singleton].
    intros H. by apply list_elem_of_singleton in H.
  - intros r Hr _. vm_compute in Hr.
    repeat (apply elem_of_cons in Hr as [->|Hr]; [done|]). by apply elem_of_nil in Hr.
  - intros e He.
    apply elem_of_cons in He as [->|He];
      [exists (Demo.row "e1" "A" "producer" QUEUED ∅)|].
    2: apply elem_of_cons in He as [->|He];
      [exists (Demo.row "e2" "A" "producer" QUEUED ∅)|by apply elem_of_nil in He].
    all: split; [|done]; apply list_elem_of_In; simpl; auto.
  - assert (∀ l1 l2 s, run Demo.X Demo.two_of_A (l1 ++ l2) s
                       = run Demo.X Demo.two_of_A l1 s ≫= run Demo.X Demo.two_of_A l2) as Happ.
    { induction l1 as [|l l1 IH]; intros l2 s; simpl; [done|].
      destruct (step Demo.X Demo.two_of_A l s); [apply IH|done]. }
    rewrite Happ, H1. exact H2.
Defined.


(** C1, at a run that is cancelled while its only node is running.  The
    watcher thread has set TERMINATED and replaced the pool; the scheduler
    finds the event set in its idle loop, assigns TERMINATED and returns
    (lines 835-837).  The [finally] clause then assigns COMPLETED (line
    856) and returns it (line 864): COMPLETED is the status
    [_on_graph_execution] returns and [on_graph_execution] persists. *)
Theorem cancelled_run_is_returned_as_completed :
  let g := Demo.run_of [Demo.entry "e1" "A" "producer" ∅] in
  ∃ s1 s2,
    run Demo.X g [Main; Main; Main; Main; Work 0; SetCancel;
                  Watch; Watch; Watch; Watch; Watch; Main]
        (init g (Demo.world_of "A" "producer" ∅)) = Some s1
    ∧ cancel s1 = true ∧ finished s1 = false ∧ watcher s1 = WDone
    ∧ pc s1 = AtFinally ∧ execution_status s1 = TERMINATED
    ∧ run Demo.X g [Main; Main; Main; Main] s1 = Some s2
    ∧ pc s2 = Exited
    ∧ returned s2 = Some COMPLETED
    ∧ ge_status <$> graph_executions (world s2) !! "run" = Some COMPLETED.
Proof.
  intros g. eexists. eexists. split; [vm_compute; reflexivity|].
  do 5 (split; [reflexivity|]). split; [vm_compute; reflexivity|].
  repeat split.
Qed.

(** C2, at a first dispatch that costs 10 credits when the user has 5.  The
    error goes to the node's error pin, the execution is FAILED, one
    LOW_BALANCE notification is queued and the run ends FAILED.  The
    payload's [shortfall] is [balance - amount] = -5, but its
    [current_balance] is 0, the cost the run has accumulated (line 921),
    where the user's balance is 5. *)
Theorem low_balance_payload_carries_the_run_cost :
  let g := Demo.run_of [Demo.entry "e1" "P" "paid" ∅] in
  credits (Demo.world_of "P" "paid" ∅) = 5
  ∧ ∃ s,
      run Demo.X g [Main; Main; Main; Main; Watch; Watch; Main; Main]
          (init g (Demo.world_of "P" "paid" ∅)) = Some s
      ∧ pc s = Exited
      ∧ error s = Some (InsufficientBalanceError
                          "Insufficient balance of 5, where this will cost 10" 5 10)
      ∧ execution_outputs (world s)
        = [("e1", ("error", PStr "Insufficient balance of 5, where this will cost 10"))]
      ∧ map r_status (node_executions (world s)) = [FAILED]
      ∧ returned s = Some FAILED
      ∧ credits (world s) = 5
      ∧ List.filter (λ n, bool_decide (n_type n = LOW_BALANCE)) (notifications (world s))
        = [{| n_user_id := "u"; n_type := LOW_BALANCE;
              n_data := LowBalance
                {| current_balance := 0;
                   billing_page_link := "https://app.example/profile/credits";
                   shortfall := -5;
                   lb_agent_name := "Demo agent" |} |}].
Proof.
  intros g. split; [reflexivity|]. eexists. split; [vm_compute; reflexivity|].
  repeat split.
Qed.

(** * Further properties *)

(** ** The execution manager: what an accepted start leaves behind *)

Section ManagerStart.

Variable X : Externals.

Lemma for_each_ok_read_only {A} (xs : list A) (body : A → M unit) w w' :
  (∀ x, read_only (body x)) →
  for_each xs body w = (w', Ok ()) →
  w' = w ∧ ∀ x, x ∈ xs → body x w = (w, Ok ()).
Proof.
  intros Hro. induction xs as [|x xs IH]; simpl.
  - intros [= <-]. split; [done|]. intros x Hx. by apply elem_of_nil in Hx.
  - munfold. pose proof (Hro x w) as Hx.
    destruct (body x w) as [w1 [[]|e]] eqn:E; simpl in Hx; subst w1; [|done].
    intros H. destruct (IH H) as [-> Hall]. split; [done|].
    intros y Hy. apply elem_of_cons in Hy as [->|Hy]; [done | by apply Hall].
Qed.

Lemma bind_Ok {A B} (m : M A) (k : A → M B) w w' b :
  (m ≫= k) w = (w', Ok b) → ∃ a w1, m w = (w1, Ok a) ∧ k a w1 = (w', Ok b).
Proof. munfold. destruct (m w) as [w1 [a|e]]; [eauto|done]. Qed.

Lemma read_only_check_field (node : Node) user f :
  read_only
    (match input_default node !! f with
     | None => raise (KeyError f)
     | Some v =>
         match credentials_meta v with
         | None => raise (ValueError ("Invalid credentials input " +:+ f))
         | Some credentials_meta =>
             credentials ← get_creds_by_id user (cred_id credentials_meta);
             match credentials with
             | None =>
                 raise (ValueError ("Unknown credentials #" +:+ cred_id credentials_meta
                                    +:+ " for node #" +:+ n_id node
                                    +:+ " input '" +:+ f +:+ "'"))
             | Some credentials =>
                 if negb (String.eqb (provider credentials) (provider credentials_meta))
                    || negb (String.eqb (cred_type credentials) (cred_type credentials_meta))
                 then raise (ValueError ("Invalid credentials #" +:+ cred_id credentials
                                         +:+ " for node #" +:+ n_id node
                                         +:+ ": type/provider mismatch"))
                 else mret ()
             end
         end
     end : M unit).
Proof.
  destruct (input_default node !! f) as [v|]; [|apply read_only_raise].
  destruct (credentials_meta v) as [c|]; [|apply read_only_raise].
  apply read_only_bind; [apply read_only_gets | intros [c'|]]; [|apply read_only_raise].
  destruct (_ || _); [apply read_only_raise | apply read_only_ret].
Qed.

Lemma starting_node_input_ok data node w w' r :
  starting_node_input X data node w = (w', Ok r) →
  w' = w
  ∧ match r with
    | None => note_node X node = true
    | Some (nid, d) =>
        note_node X node = false ∧ nid = n_id node
        ∧ ∃ b input msg,
            get_block X (node_block_id node) = Some b
            ∧ request_input data node b = Some input
            ∧ validate_exec X node input true = (Some d, msg)
    end.
Proof.
  intros H. pose proof (read_only_starting_node_input X data node w) as Hro.
  rewrite H in Hro. simpl in Hro. split; [done|]. subst w'.
  revert H. unfold starting_node_input, node_block_of, note_node, request_input. munfold.
  destruct (get_block X (node_block_id node)) as [b|]; [|done].
  destruct (bool_decide (block_type b = NOTE)); [by intros [= <-]|].
  (* the webhook part and the validation, for whatever the first part built *)
  assert (∀ i1 : BlockInput,
            (let (w1, r1) :=
               match webhook_id node with
               | Some wid =>
                   if (bool_decide (block_type b = WEBHOOK)
                       || bool_decide (block_type b = WEBHOOK_MANUAL))
                      && negb (String.eqb wid "")
                   then
                     match data !! ("webhook_" +:+ wid +:+ "_payload") with
                     | Some v => λ w0 : World, (w0, Ok ({[ "payload" := v ]} : BlockInput))
                     | None =>
                         λ w0 : World,
                           (w0, Raised (ValueError ("Node " +:+ block_name b +:+ " #"
                                                    +:+ n_id node
                                                    +:+ " webhook payload is missing")))
                     end
                   else λ w0 : World, (w0, Ok i1)
               | None => λ w0 : World, (w0, Ok i1)
               end w in
             match r1 with
             | Ok a0 =>
                 match validate_exec X node a0 true with
                 | (Some input_data0, _) =>
                     λ w0 : World, (w0, Ok (Some (n_id node, input_data0)))
                 | (None, error) => λ w0 : World, (w0, Raised (ValueError error))
                 end w1
             | Raised e => (w1, Raised e)
             end) = (w, Ok r) →
            match r with
            | Some (nid, d) =>
                nid = n_id node
                ∧ ∃ input msg,
                    match webhook_id node with
                    | Some wid =>
                        if (bool_decide (block_type b = WEBHOOK)
                            || bool_decide (block_type b = WEBHOOK_MANUAL))
                           && negb (String.eqb wid "")
                        then
                          match data !! ("webhook_" +:+ wid +:+ "_payload") with
                          | Some v => Some ({[ "payload" := v ]} : BlockInput)
                          | None => None
                          end
                        else Some i1
                    | None => Some i1
                    end = Some input
                    ∧ validate_exec X node input true = (Some d, msg)
            | None => False
            end) as Hrest.
  { intros i1. destruct (webhook_id node) as [wid|].
    - destruct (_ && _).
      + destruct (data !! _) as [v|]; [|done].
        destruct (validate_exec X node _ true) as [[d|] msg] eqn:Hv; [|done].
        intros [= <-]. split; [done|]. by eexists _, msg.
      + destruct (validate_exec X node i1 true) as [[d|] msg] eqn:Hv; [|done].
        intros [= <-]. split; [done|]. by eexists _, msg.
    - destruct (validate_exec X node i1 true) as [[d|] msg] eqn:Hv; [|done].
      intros [= <-]. split; [done|]. by eexists _, msg. }
  assert (∀ i1 : BlockInput,
            (if bool_decide (block_type b = INPUT)
             then
               match py_get (input_default node) "name" with
               | PStr input_name =>
                   match data !! input_name with
                   | Some v => if String.eqb input_name "" then Some (∅ : BlockInput)
                               else Some ({[ "value" := v ]} : BlockInput)
                   | None => Some ∅
                   end
               | (PList (_ :: _) | PDict (_ :: _)) => None
               | _ => Some ∅
               end
             else Some ∅) = Some i1 →
            (let (w1, r1) :=
               match webhook_id node with
               | Some wid =>
                   if (bool_decide (block_type b = WEBHOOK)
                       || bool_decide (block_type b = WEBHOOK_MANUAL))
                      && negb (String.eqb wid "")
                   then
                     match data !! ("webhook_" +:+ wid +:+ "_payload") with
                     | Some v => λ w0 : World, (w0, Ok ({[ "payload" := v ]} : BlockInput))
                     | None =>
                         λ w0 : World,
                           (w0, Raised (ValueError ("Node " +:+ block_name b +:+ " #"
                                                    +:+ n_id node
                                                    +:+ " webhook payload is missing")))
                     end
                   else λ w0 : World, (w0, Ok i1)
               | None => λ w0 : World, (w0, Ok i1)
               end w in
             match r1 with
             | Ok a0 =>
                 match validate_exec X node a0 true with
                 | (Some input_data0, _) =>
                     λ w0 : World, (w0, Ok (Some (n_id node, input_data0)))
                 | (None, error) => λ w0 : World, (w0, Raised (ValueError error))
                 end w1
             | Raised e => (w1, Raised e)
             end) = (w, Ok r) →
            match r with
            | Some (nid, d) =>
                false = false ∧ nid = n_id node
                ∧ ∃ b0 input msg,
                    Some b = Some b0
                    ∧ request_input data node b0 = Some input
                    ∧ validate_exec X node input true = (Some d, msg)
            | None => false = true
            end) as Hall.
  { intros i1 Hfirst Hrun. specialize (Hrest i1 Hrun). destruct r as [[nid d]|]; [|done].
    destruct Hrest as (-> & input & msg & Hhook & Hv). split; [done|]. split; [done|].
    exists b, input, msg. split; [done|]. split; [|done].
    unfold request_input. rewrite Hfirst. exact Hhook. }
  unfold request_input in Hall.
  destruct (bool_decide (block_type b = INPUT)); [|by apply Hall].
  destruct (py_get (input_default node) "name") as [| | |name|[|x l]|[|x l]];
    try done; try (by apply Hall).
  destruct (data !! name) as [v|]; [|by apply Hall].
  destruct (String.eqb name ""); by apply Hall.
Qed.

Lemma collect_nodes_input_ok data starting w w' ni :
  collect_nodes_input X data starting w = (w', Ok ni) →
  w' = w
  ∧ map fst ni = map n_id (List.filter (λ n, negb (note_node X n)) starting)
  ∧ Forall (λ p, ∃ node b input msg,
                   node ∈ starting ∧ n_id node = p.1
                   ∧ get_block X (node_block_id node) = Some b
                   ∧ request_input data node b = Some input
                   ∧ validate_exec X node input true = (Some p.2, msg)) ni.
Proof.
  revert w' ni. induction starting as [|node rest IH]; intros w' ni; simpl.
  - intros [= <- <-]. by repeat split.
  - munfold. destruct (starting_node_input X data node w) as [w1 [r|e]] eqn:E; [|done].
    apply starting_node_input_ok in E as [-> Hr].
    destruct (collect_nodes_input X data rest w) as [w2 [rs|e]] eqn:E2; [|done].
    destruct (IH _ _ eq_refl) as (-> & Hmap & Hall).
    intros [= <- <-]. split; [done|].
    assert (Forall (λ p, ∃ node0 b input msg,
                           node0 ∈ node :: rest ∧ n_id node0 = p.1
                           ∧ get_block X (node_block_id node0) = Some b
                           ∧ request_input data node0 b = Some input
                           ∧ validate_exec X node0 input true = (Some p.2, msg)) rs)
      as Hall'.
    { eapply Forall_impl; [exact Hall|]. intros p (n0 & b & i & m & Hin & ? & ? & ? & ?).
      exists n0, b, i, m. split; [by apply list_elem_of_further|done]. }
    destruct r as [[nid d]|].
    + destruct Hr as (Hn & -> & b & input & msg & Hb & Hreq & Hv). rewrite Hn. simpl. split.
      * by rewrite Hmap.
      * constructor; [|done]. exists node, b, input, msg.
        split; [apply list_elem_of_here|done].
    + rewrite Hr. simpl. done.
Qed.

Lemma seed_rows_fields ge g ni rows :
  map r_node_id (seed_rows ge g ni rows) = map fst ni
  ∧ ∀ r, r ∈ seed_rows ge g ni rows →
      r_status r = QUEUED ∧ r_graph_exec_id r = ge
      ∧ ∃ q, q ∈ ni ∧ q.1 = r_node_id r ∧ q.2 = r_input_data r.
Proof.
  revert rows. induction ni as [|[nid input] ni IH]; intros rows; simpl.
  - split; [done|]. intros r Hr. by apply elem_of_nil in Hr.
  - match goal with
    | |- context [seed_rows ge g ni ?rs] => destruct (IH rs) as (H1 & H2)
    end.
    split; [by f_equal|]. intros r Hr. apply elem_of_cons in Hr as [->|Hr]; simpl.
    + split; [done|]. split; [done|]. exists (nid, input). split; [apply list_elem_of_here|done].
    + destruct (H2 r Hr) as (? & ? & q & Hq & ? & ?). split; [done|]. split; [done|].
      exists q. split; [by apply list_elem_of_further|done].
Qed.

Lemma seed_rows_NoDup ge g ni rows :
  NoDup (map r_node_exec_id rows) →
  NoDup (map r_node_exec_id (rows ++ seed_rows ge g ni rows)).
Proof.
  revert rows. induction ni as [|[nid input] ni IH]; intros rows Hnd; simpl.
  - by rewrite app_nil_r.
  - rewrite cons_middle, app_assoc. apply IH.
    rewrite map_app. simpl. apply NoDup_app. split; [done|]. split.
    + intros x Hx Hx'. apply list_elem_of_singleton in Hx'. subst x.
      by apply infinite_is_fresh in Hx.
    + apply NoDup_singleton.
Qed.

(** X1. An accepted start.  When [add_execution] returns an entry, that entry
    went to the tail of the manager's queue; its starting executions are,
    in order, those of the starting nodes of the graph that are not NOTE
    blocks, and there is at least one; each carries the run's id and, as
    its data, the validated input of its node, that is what [validate_exec]
    returns for the input lines 1004-1027 build for the node from the
    request (the value of the request an INPUT block is named for, the
    payload of a webhook node); each names a stored execution of that
    node that is QUEUED with that input; the executions that were stored
    before are still there, and ids that were distinct stay distinct. *)
Theorem accepted_start_is_seeded_and_queued graph request user version w w' entry :
  add_execution X graph request user version w = (w', Ok entry) →
  ∃ g, graphs w !! graph = Some g
    ∧ intake_queue w' = intake_queue w ++ [entry]
    ∧ map node_id (start_node_execs entry)
      = map n_id (List.filter (λ n, negb (note_node X n)) (starting_nodes g))
    ∧ start_node_execs entry ≠ []
    ∧ (∀ e, e ∈ start_node_execs entry →
         graph_exec_id e = g_graph_exec_id entry
         ∧ (∃ node b input msg,
              node ∈ starting_nodes g ∧ n_id node = node_id e
              ∧ get_block X (node_block_id node) = Some b
              ∧ request_input request node b = Some input
              ∧ validate_exec X node input true = (Some (data e), msg))
         ∧ ∃ r, r ∈ node_executions w'
              ∧ r_node_exec_id r = node_exec_id e ∧ r_node_id r = node_id e
              ∧ r_status r = QUEUED ∧ r_input_data r = data e)
    ∧ node_executions w `prefix_of` node_executions w'
    ∧ (NoDup (row_ids w) → NoDup (row_ids w')).
Proof.
  unfold add_execution, get_graph. munfold.
  destruct (graphs w !! graph) as [g|] eqn:Hg; [|done].
  destruct (validate_graph g) as [err|]; [done|].
  pose proof (read_only_validate_credentials X g user w) as Hc.
  destruct (_validate_node_input_credentials X g user w) as [w1 [[]|e1]]; simpl in Hc; subst w1;
    [|done].
  destruct (collect_nodes_input X request (starting_nodes g) w) as [w1 [ni|e1]] eqn:Hni; [|done].
  apply collect_nodes_input_ok in Hni as (-> & Hmap & Hall).
  destruct ni as [|p ni]; [done|].
  unfold create_graph_execution, send_execution_update. munfold. cbv zeta.
  set (ge := fresh (elements (dom (graph_executions w)))).
  set (rows := seed_rows ge g (p :: ni) (node_executions w)).
  intros [= <- <-]. exists g.
  destruct (seed_rows_fields ge g (p :: ni) (node_executions w)) as (Hn & Hq).
  fold rows in Hn, Hq.
  split; [done|]. split; [done|]. split.
  { cbn [start_node_execs]. rewrite <- Hmap, <- Hn. rewrite map_map. done. }
  split.
  { cbn [start_node_execs]. subst rows. destruct p. simpl. done. }
  split.
  { cbn [start_node_execs g_graph_exec_id].
    intros e He. apply list_elem_of_fmap in He as (r & -> & Hr). simpl.
    destruct (Hq r Hr) as (Hst & Hge & q & Hq1 & Hq2 & Hq3).
    split; [done|]. split.
    - pose proof (proj1 (Forall_forall _ _) Hall q Hq1)
        as (node & b & input & msg & Hin & Hid & Hb & Hreq & Hv).
      exists node, b, input, msg. rewrite <- Hq2, <- Hq3. done.
    - exists r. split; [|done]. apply elem_of_app. by right. }
  split; [by apply prefix_app_r|].
  unfold row_ids. simpl. fold rows. intros Hnd. by apply seed_rows_NoDup.
Qed.

Lemma collect_nodes_input_raises data starting node e0 w :
  node ∈ starting →
  starting_node_input X data node w = (w, Raised e0) →
  ∃ e, collect_nodes_input X data starting w = (w, Raised e).
Proof.
  intros Hin Hraise. induction starting as [|x rest IH]; [by apply elem_of_nil in Hin|].
  simpl. munfold.
  pose proof (read_only_starting_node_input X data x w) as Hro.
  destruct (starting_node_input X data x w) as [w1 [r|e]] eqn:E; simpl in Hro; subst w1;
    [|eauto].
  apply elem_of_cons in Hin as [->|Hin]; [congruence|].
  destruct (IH Hin) as [e He]. rewrite He. eauto.
Qed.

(** X2. A webhook trigger without its payload.  When a starting node of the
    graph is a webhook block with a webhook id and the request data holds
    no payload under ["webhook_<id>_payload"], that node is refused with
    the "webhook payload is missing" error, and [add_execution] fails and
    leaves the world as it was. *)
Theorem missing_webhook_payload_refuses_the_start graph data user version w g node b wid :
  graphs w !! graph = Some g →
  node ∈ starting_nodes g →
  get_block X (node_block_id node) = Some b →
  block_type b = WEBHOOK ∨ block_type b = WEBHOOK_MANUAL →
  webhook_id node = Some wid →
  wid ≠ "" →
  data !! ("webhook_" +:+ wid +:+ "_payload") = None →
  starting_node_input X data node w
    = (w, Raised (ValueError ("Node " +:+ block_name b +:+ " #" +:+ n_id node
                              +:+ " webhook payload is missing")))
  ∧ ∃ e, add_execution X graph data user version w = (w, Raised e).
Proof.
  intros Hg Hin Hb Hty Hwid Hne Hdata.
  assert (starting_node_input X data node w
          = (w, Raised (ValueError ("Node " +:+ block_name b +:+ " #" +:+ n_id node
                                    +:+ " webhook payload is missing")))) as Hnode.
  { unfold starting_node_input, node_block_of. munfold. rewrite Hb. simpl.
    assert (bool_decide (block_type b = NOTE) = false) as ->
      by (apply bool_decide_eq_false; destruct Hty as [-> | ->]; done).
    assert (bool_decide (block_type b = INPUT) = false) as ->
      by (apply bool_decide_eq_false; destruct Hty as [-> | ->]; done).
    simpl. rewrite Hwid.
    assert (bool_decide (block_type b = WEBHOOK) || bool_decide (block_type b = WEBHOOK_MANUAL)
            = true) as ->.
    { destruct Hty as [-> | ->]; done. }
    assert (String.eqb wid "" = false) as -> by (by apply String.eqb_neq).
    simpl. by rewrite Hdata. }
  split; [exact Hnode|].
  unfold add_execution, get_graph. munfold. rewrite Hg.
  destruct (validate_graph g) as [err|]; [eauto|].
  pose proof (read_only_validate_credentials X g user w) as Hc.
  destruct (_validate_node_input_credentials X g user w) as [w1 [[]|e1]]; simpl in Hc; subst w1;
    [|eauto].
  destruct (collect_nodes_input_raises data (starting_nodes g) node _ w Hin Hnode) as [e He].
  rewrite He. eauto.
Qed.

(** X3. The credential check.  When [_validate_node_input_credentials]
    returns, it has changed nothing, every node of the graph has a block,
    and every credentials field of every node holds, in the node's
    defaults, a credentials reference to credentials that the user owns
    in the store, with the same id, provider and type. *)
Theorem checked_credentials_exist_and_match g user w w' :
  _validate_node_input_credentials X g user w = (w', Ok ()) →
  w' = w
  ∧ ∀ node, node ∈ gm_nodes g →
      ∃ b, get_block X (node_block_id node) = Some b
        ∧ ∀ field_name, field_name ∈ get_credentials_fields (input_schema b) →
            ∃ v meta c,
              input_default node !! field_name = Some v
              ∧ credentials_meta v = Some meta
              ∧ (user, c) ∈ credentials_store w
              ∧ cred_id c = cred_id meta
              ∧ provider c = provider meta
              ∧ cred_type c = cred_type meta.
Proof.
  intros H. pose proof (read_only_validate_credentials X g user w) as Hro.
  rewrite H in Hro. simpl in Hro. subst w'. split; [done|].
  intros node Hnode. revert H. unfold _validate_node_input_credentials. intros H.
  apply for_each_ok_read_only in H as [_ Hall].
  2:{ intros n. apply read_only_bind; [apply read_only_node_block_of | intros b0].
      apply read_only_for_each. intros f. apply read_only_check_field. }
  specialize (Hall node Hnode). apply bind_Ok in Hall as (b & w1 & Hb & Hf).
  revert Hb. unfold node_block_of.
  destruct (get_block X (node_block_id node)) as [b'|]; [|done]. intros [= <- <-].
  exists b'. split; [done|]. intros f Hin.
  apply for_each_ok_read_only in Hf as [_ Hfields].
  2:{ intros f0. apply read_only_check_field. }
  specialize (Hfields f Hin). revert Hfields.
  destruct (input_default node !! f) as [v|]; [|done].
  destruct (credentials_meta v) as [meta|] eqn:Hmeta; [|done].
  unfold get_creds_by_id. munfold.
  destruct (List.find _ (credentials_store w)) as [[u c]|] eqn:Hfind; simpl; [|done].
  destruct (negb (String.eqb (provider c) (provider meta))
            || negb (String.eqb (cred_type c) (cred_type meta))) eqn:Hcmp; [done|].
  intros _. apply orb_false_iff in Hcmp as [Hp Ht].
  apply negb_false_iff, String.eqb_eq in Hp. apply negb_false_iff, String.eqb_eq in Ht.
  apply List.find_some in Hfind as [Hin' Hc]. simpl in Hc.
  apply andb_true_iff in Hc as [Hu Hi].
  apply bool_decide_eq_true in Hu. apply bool_decide_eq_true in Hi. subst u.
  exists v, meta, c. repeat split; try done. by apply list_elem_of_In.
Qed.

End ManagerStart.

(** ** Cancelling a run: what it leaves alone *)

Lemma batch_none_is_identity (rows : list NodeExecutionResult) st :
  map (λ x, if bool_decide (r_node_exec_id x ∈ @nil string) then row_with st None x else x) rows
  = rows.
Proof.
  induction rows as [|r rows IH]; [done|]. cbn [map].
  rewrite bool_decide_eq_false_2 by apply not_elem_of_nil. by f_equal.
Qed.

(** X4. [cancel_execution] sweeps the executions of its run that are QUEUED,
    RUNNING or INCOMPLETE, and no other: with distinct execution ids, an
    execution of another run, or one of this run that already finished, is
    in the table afterwards as it was before; the record of no other run
    changes; and no output is written. *)
Theorem cancel_execution_spares_other_executions graph_exec active w w1 :
  await_cancelled active w = (w1, Ok ()) →
  NoDup (row_ids w1) →
  ∃ w', cancel_execution graph_exec active w = (w', Ok ())
    ∧ (∀ r, r ∈ node_executions w1 →
            r_graph_exec_id r ≠ graph_exec ∨ r_status r ∉ live →
            r ∈ node_executions w')
    ∧ (∀ g, g ≠ graph_exec → graph_executions w' !! g = graph_executions w1 !! g)
    ∧ execution_outputs w' = execution_outputs w1
    ∧ row_ids w' = row_ids w1.
Proof.
  intros Hawait Hnd. unfold cancel_execution. munfold. rewrite Hawait.
  unfold update_graph_execution_stats, get_node_execution_results,
    update_node_execution_status_batch. munfold.
  set (w2 := match graph_executions w1 !! graph_exec with
             | Some m => _ | None => _ end).
  assert (node_executions w2.1 = node_executions w1
          ∧ execution_outputs w2.1 = execution_outputs w1
          ∧ (∃ r0, w2.2 = Ok r0)
          ∧ ∀ g, g ≠ graph_exec → graph_executions w2.1 !! g = graph_executions w1 !! g)
    as (Hrows & Houts & (r0 & Hr0) & Hg).
  { subst w2. destruct (graph_executions w1 !! graph_exec) as [m|] eqn:E; simpl.
    - repeat split; eauto. intros g Hne. by rewrite lookup_insert_ne.
    - repeat split; eauto. }
  destruct w2 as [w2 r2]. simpl in *. subst r2. rewrite for_each_send.
  eexists. split; [reflexivity|]. simpl. rewrite Hrows.
  set (sel := filter (λ r, r_graph_exec_id r = graph_exec
                           ∧ r_status r ∈ [QUEUED; RUNNING; INCOMPLETE])
                (node_executions w1)).
  repeat split; try done.
  - intros r Hin Hspare. apply list_elem_of_fmap. exists r. split; [|done].
    rewrite bool_decide_eq_false_2; [done|].
    intros Hid. apply list_elem_of_fmap in Hid as (x & Hidx & Hx).
    apply list_elem_of_filter in Hx as [[Hrun Hlive] Hx].
    assert (x = r) as ->.
    { eapply NoDup_fmap_elem_of; [exact Hnd| | |]; done. }
    destruct Hspare as [?|Hn]; [done|]. by apply Hn.
  - unfold row_ids. simpl. rewrite Hrows, map_map. apply map_ext. intros x.
    by destruct (bool_decide _).
Qed.

Lemma TERMINATED_not_live : TERMINATED ∉ live.
Proof.
  unfold live. intros H.
  repeat (apply elem_of_cons in H as [?|H]; [done|]). by apply elem_of_nil in H.
Qed.

Lemma filter_live_nil (rows : list NodeExecutionResult) g :
  (∀ r, r ∈ rows → r_graph_exec_id r = g → r_status r ∉ live) →
  filter (λ r, r_graph_exec_id r = g ∧ r_status r ∈ [QUEUED; RUNNING; INCOMPLETE]) rows = [].
Proof.
  induction rows as [|r rows IH]; intros Hlive; [done|].
  rewrite filter_cons. destruct (decide _) as [[Hr Hl]|_].
  - exfalso. eapply (Hlive r); [apply list_elem_of_here|done|exact Hl].
  - apply IH. intros r' Hr'. apply Hlive. by apply list_elem_of_further.
Qed.

(** A run that is recorded as TERMINATED and has no execution left to
    sweep: cancelling it changes nothing. *)
Lemma cancel_execution_settled graph_exec w :
  (∀ r, r ∈ node_executions w → r_graph_exec_id r = graph_exec → r_status r ∉ live) →
  (∀ m, graph_executions w !! graph_exec = Some m → ge_status m = TERMINATED) →
  cancel_execution graph_exec None w = (w, Ok ()).
Proof.
  intros Hlive Hgraph.
  unfold cancel_execution, await_cancelled, update_graph_execution_stats,
    get_node_execution_results, update_node_execution_status_batch. munfold.
  destruct (graph_executions w !! graph_exec) as [m|] eqn:E.
  - cbn [node_executions with_graph_executions].
    rewrite (filter_live_nil _ _ Hlive). cbn [map for_each]. munfold.
    f_equal. specialize (Hgraph m eq_refl).
    unfold with_node_executions, with_graph_executions.
    cbn [node_executions]. rewrite batch_none_is_identity.
    destruct w; simpl in *. f_equal.
    apply insert_id. rewrite E. f_equal. destruct m; simpl in *. by subst.
  - rewrite (filter_live_nil _ _ Hlive). cbn [map for_each]. munfold.
    f_equal. unfold with_node_executions. rewrite batch_none_is_identity.
    by destruct w.
Qed.

(** X5. Cancelling is idempotent: a second [cancel_execution] of the same run
    (which is no longer active) returns and leaves the world exactly as the
    first one left it; in particular it broadcasts nothing more. *)
Theorem cancel_execution_is_idempotent graph_exec w :
  cancel_execution graph_exec None (cancel_execution graph_exec None w).1
  = ((cancel_execution graph_exec None w).1, Ok ()).
Proof.
  apply cancel_execution_settled.
  - unfold cancel_execution, await_cancelled, update_graph_execution_stats,
      get_node_execution_results, update_node_execution_status_batch. munfold.
    assert (∀ w1 : World, node_executions w1 = node_executions w →
              ∀ r, r ∈ node_executions
                     (for_each
                        (filter (λ r, r_graph_exec_id r = graph_exec
                                      ∧ r_status r ∈ [QUEUED; RUNNING; INCOMPLETE])
                           (node_executions w1))
                        (λ node_exec,
                           send_execution_update
                             (NodeUpdate (row_with TERMINATED None node_exec)))
                        (with_node_executions
                           (map (λ x, if bool_decide
                                           (r_node_exec_id x
                                            ∈ map r_node_exec_id
                                                (filter (λ r, r_graph_exec_id r = graph_exec
                                                              ∧ r_status r
                                                                ∈ [QUEUED; RUNNING; INCOMPLETE])
                                                   (node_executions w1)))
                                      then row_with TERMINATED None x else x)) w1)).1 →
                   r_graph_exec_id r = graph_exec → r_status r ∉ live) as Hsweep.
    { intros w1 Hrows r. rewrite for_each_send. simpl. rewrite Hrows.
      intros Hin Hrun Hlive. apply list_elem_of_fmap in Hin as (x & -> & Hx).
      destruct (bool_decide _) eqn:Eb.
      - by apply TERMINATED_not_live in Hlive.
      - apply bool_decide_eq_false in Eb. apply Eb.
        apply list_elem_of_fmap. exists x. split; [done|].
        apply list_elem_of_filter. done. }
    destruct (graph_executions w !! graph_exec) as [m|]; by apply Hsweep.
  - unfold cancel_execution, await_cancelled, update_graph_execution_stats,
      get_node_execution_results, update_node_execution_status_batch. munfold.
    destruct (graph_executions w !! graph_exec) as [m|] eqn:E;
      rewrite for_each_send; simpl; intros m'.
    + rewrite lookup_insert_eq. by intros [= <-].
    + congruence.
Qed.

(** ** Input validation: what an accepted input holds *)

Section ValidationKeeps.

Variable X : Externals.

Lemma coerce_inputs_keeps anns (data : BlockInput) name v :
  data !! name = Some v →
  (truthy v = true → ∀ t, (name, t) ∈ anns → type_of v = t) →
  coerce_inputs X anns data !! name = Some v.
Proof.
  revert data. induction anns as [|[n t] anns IH]; intros data Hv Hty; [done|].
  rewrite coerce_inputs_cons.
  assert (truthy v = true → ∀ t0, (name, t0) ∈ anns → type_of v = t0) as Hty'.
  { intros Ht t0 Hin. apply Hty; [done|]. by apply list_elem_of_further. }
  destruct (truthy (py_get data n) && _) eqn:Hc; [|by apply IH].
  destruct (decide (n = name)) as [->|Hne].
  - exfalso. unfold py_get in Hc. rewrite Hv in Hc. simpl in Hc.
    apply andb_true_iff in Hc as [Ht Hn]. apply negb_true_iff, bool_decide_eq_false in Hn.
    apply Hn, Hty; [done|]. apply list_elem_of_here.
  - apply IH; [|done]. by rewrite lookup_insert_ne.
Qed.

(** X6. What a successful validation returns, without pin resolution.  The
    message is the block's name.  A provided value that is falsy, or whose
    type is the annotated one (or that has no annotation), is returned as
    it was provided; a key that was not provided holds the schema's default
    for it, if there is one: defaults never override what was provided. *)
Theorem validation_keeps_well_typed_values node (input : BlockInput) d msg b name :
  get_block X (node_block_id node) = Some b →
  validate_exec X node input false = (Some d, msg) →
  msg = block_name b
  ∧ (∀ v, input !! name = Some v →
          (truthy v = true → ∀ t, (name, t) ∈ annotations (input_schema b) → type_of v = t) →
          d !! name = Some v)
  ∧ (input !! name = None →
     d !! name = get_input_defaults (input_schema b) (input_default node) !! name).
Proof.
  intros Hb Hval.
  assert (msg = block_name b) as Hmsg.
  { revert Hval. unfold validate_exec. rewrite Hb.
    destruct (get_missing_links _ _ _); [|done].
    destruct (get_missing_input _ _); [|done].
    destruct (get_mismatch_error _ _) as [err|]; [destruct (String.eqb err "")|];
      by intros [= _ <-]. }
  apply validate_exec_Some in Hval as (b' & Hb' & ->).
  rewrite Hb in Hb'. injection Hb' as <-.
  split; [done|]. unfold merged_input. split.
  - intros v Hv Hty. apply lookup_union_Some_l. by apply coerce_inputs_keeps.
  - intros Hnone. apply lookup_union_r.
    rewrite coerce_inputs_falsy; [done|]. unfold py_get. by rewrite Hnone.
Qed.

End ValidationKeeps.

(** ** The data-flow resolver: what it writes and what it leaves alone *)

Lemma resolver_effect_refl w : resolver_effect w w.
Proof.
  split; [|auto]. exists (node_executions w), [].
  destruct w; unfold with_sent_updates, with_node_executions; simpl. by rewrite app_nil_r.
Qed.

Lemma resolver_effect_trans a b c :
  resolver_effect a b → resolver_effect b c → resolver_effect a c.
Proof.
  intros [(rows1 & ups1 & ->) H1] [(rows2 & ups2 & ->) H2]. split.
  - exists rows2, (ups1 ++ ups2).
    destruct a; unfold with_sent_updates, with_node_executions; simpl.
    by rewrite app_assoc.
  - intros r Hr. destruct (H2 r Hr) as [Hin|?]; [|by right]. by apply H1.
Qed.

Lemma rows_only_effect (f : list NodeExecutionResult → list NodeExecutionResult) w :
  ∃ rows ups,
    with_node_executions f w
    = with_sent_updates (λ us, us ++ ups) (with_node_executions (λ _, rows) w).
Proof.
  exists (f (node_executions w)), [].
  destruct w; unfold with_sent_updates, with_node_executions; simpl. by rewrite app_nil_r.
Qed.

Section ResolverEffect.

Variable X : Externals.

Lemma concat_map_M_nil {A B} (xs : list A) (f : A → M (list B)) w :
  (∀ x, x ∈ xs → f x w = (w, Ok [])) → concat_map_M xs f w = (w, Ok []).
Proof.
  induction xs as [|x xs IH]; intros Hf; [done|]. simpl. munfold.
  rewrite (Hf x) by apply list_elem_of_here.
  rewrite IH; [done|]. intros y Hy. apply Hf. by apply list_elem_of_further.
Qed.

(** X7. An output that no link of the node carries: when the parser finds no
    value for any output link, the resolver enqueues nothing and leaves the
    world as it was. *)
Theorem unlinked_output_enqueues_nothing node output u ge g w :
  (∀ l, l ∈ output_links node → parse_execution_output X output (source_name l) = PNone) →
  _enqueue_next_nodes X node output u ge g w = (w, Ok []).
Proof.
  intros Hnone. unfold _enqueue_next_nodes. apply concat_map_M_nil.
  intros l Hl. unfold register_next_executions. by rewrite (Hnone l Hl).
Qed.

(** X8. The footprint of the resolver.  Whatever it returns or raises,
    [_enqueue_next_nodes] changes the table of node executions and appends
    to the broadcast updates, and nothing else (no output, no lock, no
    credit, no notification, no graph execution, no block run); and every
    execution it added or rewrote is INCOMPLETE or QUEUED. *)
Theorem resolver_writes_executions_and_updates_only node output u ge g w w' r :
  _enqueue_next_nodes X node output u ge g w = (w', r) →
  (∃ rows ups,
     w' = with_sent_updates (λ us, us ++ ups) (with_node_executions (λ _, rows) w))
  ∧ ∀ x, x ∈ node_executions w' →
         x ∈ node_executions w ∨ r_status x = INCOMPLETE ∨ r_status x = QUEUED.
Proof.
  revert w w' r. change (preserves resolver_effect (_enqueue_next_nodes X node output u ge g)).
  apply preserves_enqueue_next_nodes.
  - apply resolver_effect_refl.
  - apply resolver_effect_trans.
  - intros n g' i v w w' r. unfold upsert_execution_input.
    destruct (attach_input _ _ _ _) as [[r0 rows]|] eqn:Ha; intros [= <- _].
    + split; [apply rows_only_effect|].
      apply attach_input_split in Ha as (r1 & pre & post & Hrows & -> & Hc & ->).
      apply andb_true_iff in Hc as [Hc _]. apply andb_true_iff in Hc as [_ Hinc].
      apply bool_decide_eq_true in Hinc. simpl. rewrite Hrows.
      intros x Hx. apply elem_of_app in Hx as [Hx|Hx].
      * left. apply elem_of_app. by left.
      * apply elem_of_cons in Hx as [->|Hx]; [right; by left|].
        left. apply elem_of_app. right. by apply list_elem_of_further.
    + split; [apply rows_only_effect|].
      simpl. intros x Hx. apply elem_of_app in Hx as [Hx|Hx]; [by left|].
      apply list_elem_of_singleton in Hx as ->. right. by left.
  - intros i d w w' r. unfold update_node_execution_status.
    destruct (List.find _ _); intros [= <- _]; [|apply resolver_effect_refl].
    split; [apply rows_only_effect|].
    simpl. intros x Hx. apply list_elem_of_fmap in Hx as (y & -> & Hy).
    destruct (has_id i y); [right; by right | by left].
  - intros upd w w' r [= <- _]. split; [|by left].
    exists (node_executions w), [upd].
    by destruct w.
Qed.

End ResolverEffect.

(** *** Settled executions *)

Lemma keeps_refl ge w : NoDup (row_ids w) → keeps ge w w.
Proof. by split. Qed.

Lemma keeps_free_id ge w0 w r :
  keeps ge w0 w → r ∈ node_executions w → ¬ settled ge r →
  free_id ge w0 (r_node_exec_id r).
Proof.
  intros [Hnd Hkeep] Hr Hun x Hx Hid Hs.
  assert (x = r) as ->; [|done].
  eapply NoDup_fmap_elem_of; [exact Hnd| | |done]; [by apply Hkeep | done].
Qed.

Lemma keeps_same_rows ge w0 w w' :
  node_executions w' = node_executions w → keeps ge w0 w → keeps ge w0 w'.
Proof. unfold keeps, row_ids. by intros ->. Qed.

Lemma candidate_unsettled n ge name (r : NodeExecutionResult) :
  of_run n ge r && bool_decide (r_status r = INCOMPLETE)
  && bool_decide (r_input_data r !! name = None) = true →
  ¬ settled ge r ∧ r_node_id r = n.
Proof.
  intros Hc. apply andb_true_iff in Hc as [Hc _]. apply andb_true_iff in Hc as [Hrun Hinc].
  apply bool_decide_eq_true in Hinc. unfold of_run in Hrun.
  apply andb_true_iff in Hrun as [Hn Hg].
  apply bool_decide_eq_true in Hn. apply bool_decide_eq_true in Hg.
  split; [|done]. intros [?|?]; done.
Qed.

Lemma update_status_keeps ge w0 i st input w w' res :
  free_id ge w0 i → keeps ge w0 w →
  update_node_execution_status i st input w = (w', res) → keeps ge w0 w'.
Proof.
  intros Hfree [Hnd Hkeep]. unfold update_node_execution_status.
  destruct (List.find _ _); intros [= <- _]; [|done]. split.
  - unfold row_ids in *. simpl. rewrite map_map.
    erewrite map_ext; [exact Hnd|]. intros x. simpl. by destruct (has_id i x).
  - intros x Hx Hs. simpl. apply list_elem_of_fmap. exists x. split; [|by apply Hkeep].
    unfold has_id. rewrite bool_decide_eq_false_2; [done|].
    intros Hid. by apply (Hfree x Hx Hid).
Qed.

Lemma update_status_row i st input w w' r :
  update_node_execution_status i st input w = (w', Ok r) →
  r ∈ node_executions w' ∧ r_node_exec_id r = i ∧ r_status r = st
  ∧ (∀ d, input = Some d → r_input_data r = d)
  ∧ (∃ r0, r0 ∈ node_executions w ∧ r_node_exec_id r0 = i ∧ r_node_id r = r_node_id r0)
  ∧ sent_updates w' = sent_updates w.
Proof.
  unfold update_node_execution_status.
  destruct (List.find _ _) as [r0|] eqn:Hfind; [|done]. intros [= <- <-].
  apply find_has_id_elem in Hfind as [Hin Hid]. simpl. repeat split; try done.
  - apply list_elem_of_fmap. exists r0. split; [|done].
    unfold has_id. by rewrite bool_decide_eq_true_2.
  - by intros d ->.
  - by exists r0.
Qed.

Section ResolverSettled.

Variable X : Externals.
Variables (u ge g : string).
Variable w0 : World.

Lemma add_enqueued_keeps i n b d w w' res :
  free_id ge w0 i → keeps ge w0 w →
  add_enqueued_execution u ge g i n b d w = (w', res) → keeps ge w0 w'.
Proof.
  intros Hfree Hk. unfold add_enqueued_execution, send_execution_update. munfold.
  destruct (update_node_execution_status i QUEUED (Some d) w) as [w1 [r|e]] eqn:Hu;
    pose proof (update_status_keeps _ _ _ _ _ _ _ _ Hfree Hk Hu) as Hk1;
    intros [= <- _]; [|done].
  by eapply keeps_same_rows.
Qed.

Lemma upsert_input_keeps n name v w w' i inp :
  keeps ge w0 w →
  upsert_execution_input n ge name v w = (w', Ok (i, inp)) →
  keeps ge w0 w' ∧ free_id ge w0 i
  ∧ ∃ r, r ∈ node_executions w' ∧ r_node_exec_id r = i ∧ r_node_id r = n
         ∧ ¬ settled ge r.
Proof.
  intros Hk. pose proof Hk as [Hnd Hkeep]. unfold upsert_execution_input.
  destruct (attach_input _ _ _ _) as [[r' rows']|] eqn:Ha.
  - intros [= <- <- _]. apply attach_input_split in Ha as (r & pre & post & Hrows & -> & Hc & ->).
    apply candidate_unsettled in Hc as [Hun Hn].
    assert (r ∈ node_executions w) as Hr.
    { rewrite Hrows. apply elem_of_app. right. apply list_elem_of_here. }
    split; [|split].
    + split.
      * unfold row_ids in *. simpl. rewrite Hrows in Hnd. by rewrite !map_app in *.
      * intros x Hx Hs. simpl. specialize (Hkeep x Hx Hs). rewrite Hrows in Hkeep.
        apply elem_of_app in Hkeep as [?|Hkeep]; [apply elem_of_app; by left|].
        apply elem_of_cons in Hkeep as [->|?]; [done|].
        apply elem_of_app. right. by apply list_elem_of_further.
    + simpl. by apply (keeps_free_id ge w0 w r).
    + eexists. split; [simpl; apply elem_of_app; right; apply list_elem_of_here|].
      simpl. split; [done|]. split; [done|]. intros [?|?]; apply Hun; [by left | by right].
  - intros [= <- <- _].
    assert (fresh (map r_node_exec_id (node_executions w)) ∉ map r_node_exec_id (node_executions w))
      as Hfresh by apply infinite_is_fresh.
    split; [|split].
    + split.
      * unfold row_ids in *. simpl. rewrite map_app. simpl. apply NoDup_app.
        split; [done|]. split; [|apply NoDup_singleton].
        intros x Hx Hx'. apply list_elem_of_singleton in Hx' as ->. done.
      * intros x Hx Hs. simpl. apply elem_of_app. left. by apply Hkeep.
    + intros x Hx Hid Hs. apply Hfresh. rewrite <- Hid.
      apply list_elem_of_fmap. exists x. split; [done|]. by apply Hkeep.
    + eexists. split; [simpl; apply elem_of_app; right; by apply list_elem_of_singleton|].
      simpl. split; [done|]. split; [done|]. intros [?|?]; done.
Qed.

Lemma upsert_input_keeps_any n name v w w' res :
  keeps ge w0 w → upsert_execution_input n ge name v w = (w', res) → keeps ge w0 w'.
Proof.
  intros Hk H. destruct res as [[i inp]|e].
  - by apply upsert_input_keeps in H as [? _].
  - revert H. unfold upsert_execution_input. by destruct (attach_input _ _ _ _) as [[? ?]|].
Qed.

Lemma fill_static_world names d idata w w' res :
  fill_static names d idata w = (w', res) → w' = w.
Proof.
  revert idata. induction names as [|n names IH]; intros idata; simpl.
  - by intros [= <- _].
  - destruct (d !! n); [apply IH | by intros [= <- _]].
Qed.

Lemma complete_static_keeps L next_node d iexec w w' res :
  free_id ge w0 (r_node_exec_id iexec) → keeps ge w0 w →
  complete_static X u ge g L next_node d iexec w = (w', res) → keeps ge w0 w'.
Proof.
  intros Hfree Hk. unfold complete_static. munfold.
  destruct (fill_static _ _ _ w) as [w1 [idata|err]] eqn:Hf;
    apply fill_static_world in Hf as ->; [|by intros [= <- _]].
  destruct (validate_exec X next_node idata true) as [[d'|] msg]; [|by intros [= <- _]].
  destruct (bool_decide (d' = ∅)); [by intros [= <- _]|].
  destruct (add_enqueued_execution _ _ _ _ _ _ _ w) as [w2 [e|err]] eqn:Ha;
    pose proof (add_enqueued_keeps _ _ _ _ _ _ _ Hfree Hk Ha); by intros [= <- _].
Qed.

Lemma concat_map_M_keeps {A B} (xs : list A) (f : A → M (list B)) w w' res :
  (∀ x wa wb r, x ∈ xs → keeps ge w0 wa → f x wa = (wb, r) → keeps ge w0 wb) →
  keeps ge w0 w → concat_map_M xs f w = (w', res) → keeps ge w0 w'.
Proof.
  revert w res. induction xs as [|x xs IH]; intros w res Hf Hk; simpl.
  - by intros [= <- _].
  - munfold. destruct (f x w) as [w1 [ys|e]] eqn:Ef;
      pose proof (Hf x _ _ _ (list_elem_of_here _ _) Hk Ef) as Hk1; [|by intros [= <- _]].
    destruct (concat_map_M xs f w1) as [w2 [zs|e]] eqn:Ec.
    + intros [= <- _]. eapply IH; [|exact Hk1|exact Ec].
      intros y wa wb r Hy. apply Hf. by apply list_elem_of_further.
    + intros [= <- _]. eapply IH; [|exact Hk1|exact Ec].
      intros y wa wb r Hy. apply Hf. by apply list_elem_of_further.
Qed.

Lemma incomplete_unsettled n (w : World) x :
  x ∈ filter (λ r, of_run n ge r = true ∧ r_status r = INCOMPLETE) (node_executions w) →
  x ∈ node_executions w ∧ ¬ settled ge x ∧ r_node_id x = n.
Proof.
  intros Hx. apply list_elem_of_filter in Hx as [[Hrun Hinc] Hx].
  unfold of_run in Hrun. apply andb_true_iff in Hrun as [Hn Hg].
  apply bool_decide_eq_true in Hn. apply bool_decide_eq_true in Hg.
  split; [done|]. split; [|done]. intros [?|?]; done.
Qed.

Lemma enqueue_complete_keeps L next_node i inp w w' res :
  free_id ge w0 i → keeps ge w0 w →
  enqueue_complete X u ge g L next_node i inp w = (w', res) → keeps ge w0 w'.
Proof.
  intros Hfree Hk. unfold enqueue_complete. munfold.
  destruct (validate_exec X next_node inp true) as [[d|] msg]; [|by intros [= <- _]].
  destruct (bool_decide (d = ∅)); [by intros [= <- _]|].
  destruct (add_enqueued_execution _ _ _ _ _ _ _ w) as [w2 [e|err]] eqn:Ha;
    pose proof (add_enqueued_keeps _ _ _ _ _ _ _ Hfree Hk Ha) as Hk2; [|by intros [= <- _]].
  destruct (negb (is_static L)); [by intros [= <- _]|].
  unfold get_incomplete_node_executions. munfold.
  destruct (concat_map_M _ _ w2) as [w3 [rest|err]] eqn:Hc.
  - intros [= <- _]. eapply concat_map_M_keeps; [|exact Hk2|exact Hc].
    intros x wa wb r Hx Hka. apply complete_static_keeps; [|done].
    apply incomplete_unsettled in Hx as (Hx & Hun & _).
    exact (keeps_free_id ge w0 w2 x Hk2 Hx Hun).
  - intros [= <- _]. eapply concat_map_M_keeps; [|exact Hk2|exact Hc].
    intros x wa wb r Hx Hka. apply complete_static_keeps; [|done].
    apply incomplete_unsettled in Hx as (Hx & Hun & _).
    exact (keeps_free_id ge w0 w2 x Hk2 Hx Hun).
Qed.

Lemma deliver_keeps L v w w' res :
  keeps ge w0 w → deliver X u ge g L v w = (w', res) → keeps ge w0 w'.
Proof.
  intros Hk. unfold deliver, get_node. munfold.
  destruct (List.find _ _) as [next_node|]; [|by intros [= <- _]].
  destruct (upsert_execution_input _ _ _ _ w) as [w1 [[i inp]|err]] eqn:Hu.
  2:{ intros [= <- _]. by eapply upsert_input_keeps_any. }
  apply upsert_input_keeps in Hu as (Hk1 & Hfree & _); [|done].
  unfold get_latest_node_execution. munfold.
  destruct (static_link_names next_node inp); by apply enqueue_complete_keeps.
Qed.

Lemma register_keeps output L w w' res :
  keeps ge w0 w → register_next_executions X output u ge g L w = (w', res) → keeps ge w0 w'.
Proof.
  intros Hk. unfold register_next_executions.
  destruct (parse_execution_output X output (source_name L));
    try (by apply deliver_keeps); by intros [= <- _].
Qed.

Lemma resolver_keeps node output w w' res :
  keeps ge w0 w → _enqueue_next_nodes X node output u ge g w = (w', res) → keeps ge w0 w'.
Proof.
  intros Hk. unfold _enqueue_next_nodes. apply concat_map_M_keeps; [|done].
  intros L wa wb r _. apply register_keeps.
Qed.

End ResolverSettled.

(** X9. The resolver of a run touches only the executions of that run that are
    still INCOMPLETE (and creates new ones).  With distinct execution ids,
    whatever [_enqueue_next_nodes] returns or raises, the ids are distinct
    afterwards, and every execution that was QUEUED, RUNNING, COMPLETED,
    FAILED or TERMINATED, or that belongs to another run, is in the table
    afterwards exactly as it was. *)
Theorem resolver_leaves_settled_executions_alone X node output u ge g w w' r :
  NoDup (row_ids w) →
  _enqueue_next_nodes X node output u ge g w = (w', r) →
  NoDup (row_ids w')
  ∧ ∀ x, x ∈ node_executions w →
         r_status x ≠ INCOMPLETE ∨ r_graph_exec_id x ≠ ge →
         x ∈ node_executions w'.
Proof.
  intros Hnd Hrun.
  by apply (resolver_keeps X u ge g w node output w w' r (keeps_refl ge w Hnd)).
Qed.

(** *** What the resolver returns *)

Lemma NoDup_map_filter {A B} (f : A → B) (P : A → Prop) `{∀ x, Decision (P x)} (l : list A) :
  NoDup (map f l) → NoDup (map f (filter P l)).
Proof.
  induction l as [|a l IH]; [done|]. simpl. intros Hnd.
  apply NoDup_cons in Hnd as [Hna Hnd]. rewrite filter_cons.
  destruct (decide (P a)); [|by apply IH]. simpl. apply NoDup_cons. split; [|by apply IH].
  intros Hin. apply Hna. apply list_elem_of_fmap in Hin as (x & -> & Hx).
  apply list_elem_of_filter in Hx as [_ Hx]. by apply list_elem_of_fmap_2.
Qed.

Lemma queued_row_settled ge w e r :
  r ∈ node_executions w → r_node_exec_id r = node_exec_id e → r_status r = QUEUED →
  ¬ free_id ge w (node_exec_id e).
Proof. intros Hr Hid Hq Hfree. apply (Hfree r Hr Hid). left. by rewrite Hq. Qed.

Lemma queued_row_keeps ge w w' e : keeps ge w w' → queued_row w e → queued_row w' e.
Proof.
  intros [_ Hkeep] (r & Hr & Hid & Hn & Hq & Hd). exists r. split; [|done].
  apply Hkeep; [done|]. left. by rewrite Hq.
Qed.

Lemma free_id_keeps ge w w' i : keeps ge w w' → free_id ge w' i → free_id ge w i.
Proof. intros [_ Hkeep] Hfree x Hx Hid Hs. apply (Hfree x); [by apply Hkeep|done|done]. Qed.

Lemma enqueued_ok_nil ge w w' : enqueued_ok ge w w' [].
Proof. split; [constructor|]. intros e He. by apply elem_of_nil in He. Qed.

(** Two steps in a row. *)
Lemma enqueued_ok_app ge w w1 w2 ys zs :
  keeps ge w w1 → keeps ge w1 w2 →
  enqueued_ok ge w w1 ys → enqueued_ok ge w1 w2 zs →
  enqueued_ok ge w w2 (ys ++ zs).
Proof.
  intros Hk1 Hk2 [Hnd1 H1] [Hnd2 H2]. split.
  - rewrite map_app. apply NoDup_app. split; [done|]. split; [|done].
    intros i Hi Hi'. apply list_elem_of_fmap in Hi as (e1 & -> & He1).
    apply list_elem_of_fmap in Hi' as (e2 & Heq & He2).
    destruct (H1 e1 He1) as (_ & (r & Hr & Hid & _ & Hq & _) & _).
    destruct (H2 e2 He2) as (Hfree & _ & _).
    apply (queued_row_settled ge w1 e2 r); [done|congruence|done|done].
  - intros e He. apply elem_of_app in He as [He|He].
    + destruct (H1 e He) as (? & ? & ?). split; [done|]. split; [|done].
      by eapply queued_row_keeps.
    + destruct (H2 e He) as (? & ? & ?). split; [|done]. by eapply free_id_keeps.
Qed.

Section ResolverEntries.

Variable X : Externals.
Variables (u ge g : string).

Lemma add_enqueued_row i n b d w w' e :
  NoDup (row_ids w) →
  (∃ r0, r0 ∈ node_executions w ∧ r_node_exec_id r0 = i ∧ r_node_id r0 = n) →
  add_enqueued_execution u ge g i n b d w = (w', Ok e) →
  queued_row w' e ∧ node_exec_id e = i ∧ graph_exec_id e = ge.
Proof.
  intros Hnd (r0 & Hr0 & Hi0 & Hn0). unfold add_enqueued_execution, send_execution_update.
  munfold. destruct (update_node_execution_status i QUEUED (Some d) w) as [w1 [r|err]] eqn:Hu;
    [|done].
  intros [= <- <-]. simpl.
  apply update_status_row in Hu as (Hr & Hid & Hst & Hd & (r1 & Hr1 & Hi1 & Hn1) & _).
  split; [|done]. exists r. simpl. split; [done|]. split; [done|]. split.
  - rewrite Hn1, <- Hn0. f_equal.
    eapply NoDup_fmap_elem_of; [exact Hnd|done|done|congruence].
  - split; [done|]. by apply Hd.
Qed.

Lemma complete_static_others L next_node d iexec w w' res :
  complete_static X u ge g L next_node d iexec w = (w', res) →
  ∀ r, r ∈ node_executions w → r_node_exec_id r ≠ r_node_exec_id iexec →
       r ∈ node_executions w'.
Proof.
  unfold complete_static. munfold.
  destruct (fill_static _ _ _ w) as [w1 [idata|err]] eqn:Hf;
    apply fill_static_world in Hf as ->; [|by intros [= <- _]].
  destruct (validate_exec X next_node idata true) as [[d'|] msg]; [|by intros [= <- _]].
  destruct (bool_decide (d' = ∅)); [by intros [= <- _]|].
  unfold add_enqueued_execution, update_node_execution_status, send_execution_update. munfold.
  destruct (List.find _ _); simpl.
  - intros [= <- _] r Hr Hne. simpl. apply list_elem_of_fmap. exists r. split; [|done].
    unfold has_id. by rewrite bool_decide_eq_false_2.
  - by intros [= <- _].
Qed.

Lemma complete_static_entry L next_node d iexec w w' ys :
  NoDup (row_ids w) →
  iexec ∈ node_executions w → ¬ settled ge iexec → r_node_id iexec = sink_id L →
  complete_static X u ge g L next_node d iexec w = (w', Ok ys) →
  enqueued_ok ge w w' ys.
Proof.
  intros Hnd Hin Hun Hnode. unfold complete_static. munfold.
  destruct (fill_static _ _ _ w) as [w1 [idata|err]] eqn:Hf;
    apply fill_static_world in Hf as ->; [|done].
  destruct (validate_exec X next_node idata true) as [[d'|] msg];
    [|intros [= <- <-]; apply enqueued_ok_nil].
  destruct (bool_decide (d' = ∅)); [intros [= <- <-]; apply enqueued_ok_nil|].
  destruct (add_enqueued_execution _ _ _ _ _ _ _ w) as [w2 [e|err]] eqn:Ha; [|done].
  intros [= <- <-].
  apply add_enqueued_row in Ha as (Hq & Hid & Hge); [|done|by exists iexec].
  split; [apply NoDup_singleton|]. intros e' He'. apply list_elem_of_singleton in He' as ->.
  split; [|done]. rewrite Hid. by apply (keeps_free_id ge w w iexec (keeps_refl ge w Hnd)).
Qed.

Lemma complete_all_entries L next_node d iexecs w w' rest :
  NoDup (row_ids w) →
  NoDup (map r_node_exec_id iexecs) →
  (∀ x, x ∈ iexecs → x ∈ node_executions w ∧ ¬ settled ge x ∧ r_node_id x = sink_id L) →
  concat_map_M iexecs (complete_static X u ge g L next_node d) w = (w', Ok rest) →
  enqueued_ok ge w w' rest.
Proof.
  revert w rest. induction iexecs as [|x xs IH]; intros w rest Hnd Hids Hall; simpl.
  - intros [= <- <-]. apply enqueued_ok_nil.
  - munfold.
    destruct (complete_static X u ge g L next_node d x w) as [w1 [ys|err]] eqn:Ex; [|done].
    destruct (concat_map_M xs _ w1) as [w2 [zs|err]] eqn:Ec; [|done].
    intros [= <- <-].
    destruct (Hall x (list_elem_of_here _ _)) as (Hx & Hun & Hnode).
    assert (keeps ge w w1) as Hk1.
    { eapply complete_static_keeps; [|apply keeps_refl|exact Ex]; [|done].
      by apply (keeps_free_id ge w w x (keeps_refl ge w Hnd)). }
    apply NoDup_cons in Hids as [Hnx Hids].
    assert (∀ y, y ∈ xs → y ∈ node_executions w1 ∧ ¬ settled ge y ∧ r_node_id y = sink_id L)
      as Hall1.
    { intros y Hy. destruct (Hall y (list_elem_of_further _ _ _ Hy)) as (Hyw & ? & ?).
      split; [|done]. eapply complete_static_others; [exact Ex|done|].
      intros Heq. apply Hnx. rewrite <- Heq. by apply list_elem_of_fmap_2. }
    assert (keeps ge w1 w2) as Hk2.
    { eapply concat_map_M_keeps; [|apply keeps_refl, Hk1|exact Ec].
      intros y wa wb r Hy Hka. apply complete_static_keeps; [|done].
      destruct (Hall1 y Hy) as (Hy1 & Hun1 & _).
      exact (keeps_free_id ge w1 w1 y (keeps_refl ge w1 (proj1 Hk1)) Hy1 Hun1). }
    eapply enqueued_ok_app; [exact Hk1|exact Hk2| |].
    + by eapply complete_static_entry.
    + apply IH; [apply Hk1|done|done|done].
Qed.

Lemma enqueue_complete_entries L next_node r0 inp w w' es :
  NoDup (row_ids w) →
  r0 ∈ node_executions w → ¬ settled ge r0 → r_node_id r0 = sink_id L →
  enqueue_complete X u ge g L next_node (r_node_exec_id r0) inp w = (w', Ok es) →
  enqueued_ok ge w w' es.
Proof.
  intros Hnd Hr0 Hun Hnode. unfold enqueue_complete. munfold.
  destruct (validate_exec X next_node inp true) as [[d|] msg];
    [|intros [= <- <-]; apply enqueued_ok_nil].
  destruct (bool_decide (d = ∅)); [intros [= <- <-]; apply enqueued_ok_nil|].
  destruct (add_enqueued_execution _ _ _ _ _ _ _ w) as [w2 [e|err]] eqn:Ha; [|done].
  pose proof (keeps_free_id ge w w r0 (keeps_refl ge w Hnd) Hr0 Hun) as Hfree.
  pose proof (add_enqueued_keeps u ge g w _ _ _ _ _ _ _ Hfree (keeps_refl ge w Hnd) Ha) as Hk2.
  apply add_enqueued_row in Ha as (Hq & Hid & Hge); [|done|by exists r0].
  assert (enqueued_ok ge w w2 [e]) as Hfirst.
  { split; [apply NoDup_singleton|]. intros e' He'. apply list_elem_of_singleton in He' as ->.
    split; [|done]. by rewrite Hid. }
  destruct (negb (is_static L)); [by intros [= <- <-]|].
  unfold get_incomplete_node_executions. munfold.
  destruct (concat_map_M _ _ w2) as [w3 [rest|err]] eqn:Hc; [|done].
  intros [= <- <-].
  assert (keeps ge w2 w3) as Hk3.
  { eapply concat_map_M_keeps; [|apply keeps_refl, Hk2|exact Hc].
    intros x wa wb r Hx Hka. apply complete_static_keeps; [|done].
    apply incomplete_unsettled in Hx as (Hx & Hunx & _).
    exact (keeps_free_id ge w2 w2 x (keeps_refl ge w2 (proj1 Hk2)) Hx Hunx). }
  change (e :: rest) with ([e] ++ rest).
  eapply enqueued_ok_app; [exact Hk2|exact Hk3|exact Hfirst|].
  eapply complete_all_entries; [apply Hk2| | |exact Hc].
  - apply NoDup_map_filter. apply Hk2.
  - intros x Hx. by apply incomplete_unsettled in Hx.
Qed.

Lemma deliver_entries L v w w' es :
  NoDup (row_ids w) →
  deliver X u ge g L v w = (w', Ok es) → enqueued_ok ge w w' es.
Proof.
  intros Hnd. unfold deliver, get_node. munfold.
  destruct (List.find _ _) as [next_node|]; [|done].
  destruct (upsert_execution_input _ _ _ _ w) as [w1 [[i inp]|err]] eqn:Hu; [|done].
  apply (upsert_input_keeps ge w) in Hu as (Hk1 & Hfree & r & Hr & <- & Hn & Hun);
    [|by apply keeps_refl].
  unfold get_latest_node_execution. munfold.
  assert (∀ inp', enqueue_complete X u ge g L next_node (r_node_exec_id r) inp' w1 = (w', Ok es) →
                  enqueued_ok ge w w' es) as Hgo.
  { intros inp' He.
    assert (keeps ge w1 w') as Hk2.
    { eapply enqueue_complete_keeps; [|apply keeps_refl, Hk1|exact He].
      exact (keeps_free_id ge w1 w1 r (keeps_refl ge w1 (proj1 Hk1)) Hr Hun). }
    apply enqueue_complete_entries in He; [|apply Hk1|done|done|done].
    rewrite <- (app_nil_l es).
    eapply enqueued_ok_app; [exact Hk1|exact Hk2|apply enqueued_ok_nil|exact He]. }
  destruct (static_link_names next_node inp); apply Hgo.
Qed.

Lemma resolver_entries node output w w' es :
  NoDup (row_ids w) →
  _enqueue_next_nodes X node output u ge g w = (w', Ok es) → enqueued_ok ge w w' es.
Proof.
  unfold _enqueue_next_nodes. generalize (output_links node). intros links.
  revert w es. induction links as [|L links IH]; intros w es Hnd; simpl.
  - intros [= <- <-]. apply enqueued_ok_nil.
  - munfold.
    destruct (register_next_executions X output u ge g L w) as [w1 [ys|err]] eqn:Hr; [|done].
    destruct (concat_map_M links _ w1) as [w2 [zs|err]] eqn:Hc; [|done].
    intros [= <- <-].
    pose proof (register_keeps X u ge g w output L w w1 _ (keeps_refl ge w Hnd) Hr) as Hk1.
    assert (keeps ge w1 w2) as Hk2.
    { eapply concat_map_M_keeps; [|apply keeps_refl, Hk1|exact Hc].
      intros L' wa wb r _. apply register_keeps. }
    eapply enqueued_ok_app; [exact Hk1|exact Hk2| |].
    + revert Hr. unfold register_next_executions.
      destruct (parse_execution_output X output (source_name L));
        try (by apply deliver_entries).
      intros [= <- <-]. apply enqueued_ok_nil.
    + apply IH; [apply Hk1|done].
Qed.

End ResolverEntries.

(** X10. What the resolver hands to the scheduler.  With distinct execution
    ids, the entries [_enqueue_next_nodes] returns name pairwise different
    executions; each entry is of the run, is backed by a stored execution
    of its node that is QUEUED with exactly the entry's input, and names
    an execution that was either new or, before the call, an INCOMPLETE
    execution of the run. *)
Theorem enqueued_entries_are_queued_once X node output u ge g w w' es :
  NoDup (row_ids w) →
  _enqueue_next_nodes X node output u ge g w = (w', Ok es) →
  NoDup (map node_exec_id es)
  ∧ ∀ e, e ∈ es →
      graph_exec_id e = ge
      ∧ (∃ r, r ∈ node_executions w'
              ∧ r_node_exec_id r = node_exec_id e ∧ r_node_id r = node_id e
              ∧ r_status r = QUEUED ∧ r_input_data r = data e)
      ∧ (∀ x, x ∈ node_executions w → r_node_exec_id x = node_exec_id e →
              r_status x = INCOMPLETE ∧ r_graph_exec_id x = ge).
Proof.
  intros Hnd Hrun. destruct (resolver_entries X u ge g node output w w' es Hnd Hrun) as [Hids Hall].
  split; [done|]. intros e He. destruct (Hall e He) as (Hfree & Hq & Hge).
  split; [done|]. split; [exact Hq|].
  intros x Hx Hid. specialize (Hfree x Hx Hid). unfold settled in Hfree.
  destruct (decide (r_status x = INCOMPLETE)) as [?|Hne]; [|exfalso; apply Hfree; by left].
  destruct (decide (r_graph_exec_id x = ge)) as [?|Hne]; [done|exfalso; apply Hfree; by right].
Qed.

(** ** The node executor: what every statement of it keeps *)

Ltac p_bind := apply preserves_bind; [assumption| |].
Ltac p_ret := apply preserves_ret; assumption.
Ltac p_raise := apply preserves_raise; assumption.
Ltac p_for_each := apply preserves_for_each; [assumption|assumption|].

Section WorkerFrame.

Variable P : World → World → Prop.
Hypothesis P_refl : ∀ w, P w w.
Hypothesis P_trans : ∀ a b c, P a b → P b c → P a c.

Variable X : Externals.

(** What the node executor does to the world, it does through these
    calls. *)
Hypothesis P_upsert_input : ∀ n g i v, preserves P (upsert_execution_input n g i v).
Hypothesis P_status : ∀ i st input, preserves P (update_node_execution_status i st input).
Hypothesis P_send : ∀ upd, preserves P (send_execution_update upd).
Hypothesis P_output : ∀ i n v, preserves P (upsert_execution_output i n v).
Hypothesis P_yield : ∀ e, preserves P (yield_ e).
Hypothesis P_acquire : ∀ user cid, preserves P (acquire user cid).
Hypothesis P_release : ∀ lock, preserves P (release_creds_lock lock).
Hypothesis P_block_run : ∀ i w, P w (with_block_runs (λ rs, rs ++ [i]) w).

Lemma frame_resolver node output u ge g :
  preserves P (_enqueue_next_nodes X node output u ge g).
Proof using P_refl P_trans P_upsert_input P_status P_send.
  apply preserves_enqueue_next_nodes; auto.
Qed.

Lemma frame_update_execution_status i st : preserves P (update_execution_status i st).
Proof using P_refl P_trans P_status P_send.
  unfold update_execution_status.
  p_bind; [apply P_status | intros r].
  p_bind; [apply P_send | intros _; p_ret].
Qed.

Lemma frame_process_output node e o : preserves P (process_output X node e o).
Proof using P_refl P_trans P_upsert_input P_status P_send P_output P_yield.
  unfold process_output, push_output. destruct o as [n v].
  p_bind; [apply P_output | intros _].
  p_bind; [apply frame_resolver | intros execs].
  p_for_each; auto.
Qed.

Lemma frame_end_of_outputs e failure : preserves P (end_of_outputs e failure).
Proof using P_refl P_trans P_status P_send.
  unfold end_of_outputs. destruct failure; [p_raise|].
  p_bind; [apply frame_update_execution_status | intros _; p_ret].
Qed.

Lemma frame_on_exception node e err : preserves P (on_exception X node e err).
Proof using P_refl P_trans P_upsert_input P_status P_send P_output P_yield.
  unfold on_exception, push_output.
  p_bind; [apply P_output | intros _].
  p_bind; [apply frame_update_execution_status | intros _].
  p_bind; [apply frame_resolver | intros execs].
  p_bind; [p_for_each; auto | intros _; p_raise].
Qed.

Lemma frame_acquire_credentials user input fields kw lock :
  preserves P (acquire_credentials user input fields kw lock).
Proof using P_refl P_trans P_acquire.
  revert kw lock. induction fields as [|f fields IH]; intros kw lock; simpl.
  - p_ret.
  - destruct (input !! f) as [v|]; [|p_raise].
    destruct (credentials_meta v) as [c|]; [|p_raise].
    p_bind; [apply P_acquire | intros [cr l]; apply IH].
Qed.

Lemma frame_execute_node_start e : preserves P (execute_node_start X e).
Proof using P_refl P_trans P_status P_send P_output P_acquire.
  unfold execute_node_start, push_output.
  p_bind; [apply preserves_get_node; assumption | intros node].
  p_bind.
  { unfold node_block_of. destruct (get_block X _); [p_ret|p_raise]. }
  intros b. destruct (validate_exec X node (data e) false) as [[d|] msg].
  - p_bind; [apply frame_update_execution_status | intros _].
    p_bind; [apply frame_acquire_credentials | intros [kw lock]].
    p_ret.
  - p_bind; [apply P_output | intros _].
    p_bind; [apply frame_update_execution_status | intros _].
    p_ret.
Qed.

Lemma frame_block_body e p :
  preserves P
    (try_except
       (modify (with_block_runs (λ rs, rs ++ [node_exec_id e]));;
        let '(outs, failure) := execute (p_block p) (p_input p) (p_kwargs p) in
        for_each outs (process_output X (p_node p) e);;
        end_of_outputs e failure)
       (on_exception X (p_node p) e)).
Proof using P_refl P_trans P_upsert_input P_status P_send P_output P_yield P_block_run.
  apply preserves_try_except; [assumption| |intros err; apply frame_on_exception].
  p_bind.
  { intros w w' r [= <- _]. apply P_block_run. }
  intros _. destruct (execute _ _ _) as [outs failure].
  p_bind; [|intros _; apply frame_end_of_outputs].
  p_for_each. intros o. apply frame_process_output.
Qed.

Lemma frame_run_block e p : preserves P (run_block X e p).
Proof using P_refl P_trans P_upsert_input P_status P_send P_output P_yield P_release
  P_block_run.
  unfold run_block. apply preserves_try_finally; [assumption|apply frame_block_body|apply P_release].
Qed.

Lemma frame_execute_node e : preserves P (execute_node X e).
Proof using P_refl P_trans P_upsert_input P_status P_send P_output P_yield P_acquire
  P_release P_block_run.
  unfold execute_node.
  p_bind; [apply frame_execute_node_start | intros [p|]].
  - apply frame_run_block.
  - p_ret.
Qed.

(** A stretch of a worker, from the world in which nothing was yielded. *)
Lemma frame_worker_stretch e st w w' ys st' :
  (∀ w, P w (with_yielded (λ _, []) w)) →
  worker_stretch X e st w = Some (w', ys, st') → P w w'.
Proof using P_refl P_trans P_upsert_input P_status P_send P_output P_yield P_acquire
  P_release P_block_run.
  intros P_reset. unfold worker_stretch, run_generator.
  destruct st as [|p [|o outs] failure| |]; [| | |done|done].
  - destruct (execute_node_start X e _) as [w1 [[p|]|err]] eqn:E;
      pose proof (frame_execute_node_start e _ _ _ E) as H1.
    + destruct (execute _ _ _) as [outs failure]. intros [= <- _ _].
      eapply P_trans; [apply P_reset|]. eapply P_trans; [exact H1|apply P_block_run].
    + intros [= <- _ _]. eapply P_trans; [apply P_reset|exact H1].
    + intros [= <- _ _]. eapply P_trans; [apply P_reset|exact H1].
  - match goal with
    | |- context [try_finally ?a ?b ?w0] =>
        destruct (try_finally a b w0) as [w1 [[]|err]] eqn:E;
        assert (P w0 w1) as H1
    end.
    1,3: (eapply (preserves_try_finally P P_trans); [| |exact E];
          [apply preserves_try_except; [assumption|apply frame_end_of_outputs|
                                        intros; apply frame_on_exception]
          |apply P_release]).
    + intros [= <- _ _]. eapply P_trans; [apply P_reset|exact H1].
    + intros [= <- _ _]. eapply P_trans; [apply P_reset|exact H1].
  - destruct (process_output X (p_node p) e o _) as [w1 [[]|err]] eqn:E;
      pose proof (frame_process_output _ _ _ _ _ _ E) as H1.
    + intros [= <- _ _]. eapply P_trans; [apply P_reset|exact H1].
    + match goal with
      | |- context [try_finally ?a ?b w1] =>
          destruct (try_finally a b w1) as [w2 [[]|err']] eqn:E2;
          assert (P w1 w2) as H2
      end.
      1,3: (eapply (preserves_try_finally P P_trans); [| |exact E2];
            [apply frame_on_exception|apply P_release]).
      * intros [= <- _ _]. eapply P_trans; [apply P_reset|]. by eapply P_trans.
      * intros [= <- _ _]. eapply P_trans; [apply P_reset|]. by eapply P_trans.
Qed.

End WorkerFrame.

Ltac frame_solve :=
  unfold executor_frame; simpl; repeat apply conj;
  first [done | reflexivity | by apply prefix_app_r].

Lemma executor_frame_refl w : executor_frame w w.
Proof. frame_solve. Qed.

Lemma executor_frame_trans a b c :
  executor_frame a b → executor_frame b c → executor_frame a c.
Proof.
  intros (?&?&?&?&?&?&?&?&?&?) (?&?&?&?&?&?&?&?&?&?).
  unfold executor_frame. repeat apply conj; try congruence; by etrans.
Qed.

Section ExecutorFrame.

Variable X : Externals.

Lemma executor_frame_upsert_input n g i v :
  preserves executor_frame (upsert_execution_input n g i v).
Proof.
  intros w w' r. unfold upsert_execution_input.
  destruct (attach_input _ _ _ _) as [[r0 rows]|]; intros [= <- _]; frame_solve.
Qed.

Lemma executor_frame_status i st input :
  preserves executor_frame (update_node_execution_status i st input).
Proof.
  intros w w' r. unfold update_node_execution_status.
  destruct (List.find _ _); intros [= <- _]; frame_solve.
Qed.

Lemma executor_frame_send upd : preserves executor_frame (send_execution_update upd).
Proof. intros w w' r [= <- _]. frame_solve. Qed.

Lemma executor_frame_output i n v : preserves executor_frame (upsert_execution_output i n v).
Proof. intros w w' r [= <- _]. frame_solve. Qed.

Lemma executor_frame_yield e : preserves executor_frame (yield_ e).
Proof. intros w w' r [= <- _]. frame_solve. Qed.

Lemma executor_frame_acquire user cid : preserves executor_frame (acquire user cid).
Proof. intros w w' r [= <- _]. frame_solve. Qed.

Lemma executor_frame_release lock : preserves executor_frame (release_creds_lock lock).
Proof.
  intros w w' r. unfold release_creds_lock. destruct lock as [l|]; munfold.
  - destruct (bool_decide _); intros [= <- _]; frame_solve.
  - intros [= <- _]. frame_solve.
Qed.

Lemma executor_frame_block_run i w :
  executor_frame w (with_block_runs (λ rs, rs ++ [i]) w).
Proof. frame_solve. Qed.

(** X11. The footprint of the node executor.  Whatever [execute_node] returns
    or raises, it has not touched the user's credits, the notification
    queue, the graph executions, the graphs and nodes, the credential store
    or the manager's queue; and the outputs, the broadcast updates and the
    record of block runs have only grown at their end. *)
Theorem node_executor_footprint e w w' r :
  execute_node X e w = (w', r) →
  credits w' = credits w
  ∧ notifications w' = notifications w
  ∧ graph_executions w' = graph_executions w
  ∧ graphs w' = graphs w
  ∧ nodes w' = nodes w
  ∧ credentials_store w' = credentials_store w
  ∧ intake_queue w' = intake_queue w
  ∧ execution_outputs w `prefix_of` execution_outputs w'
  ∧ sent_updates w `prefix_of` sent_updates w'
  ∧ block_runs w `prefix_of` block_runs w'.
Proof.
  revert w w' r. change (preserves executor_frame (execute_node X e)).
  apply frame_execute_node.
  - apply executor_frame_refl.
  - apply executor_frame_trans.
  - apply executor_frame_upsert_input.
  - apply executor_frame_status.
  - apply executor_frame_send.
  - apply executor_frame_output.
  - apply executor_frame_yield.
  - apply executor_frame_acquire.
  - apply executor_frame_release.
  - apply executor_frame_block_run.
Qed.

Lemma worker_stretch_frame e st w w' ys st' :
  worker_stretch X e st w = Some (w', ys, st') → executor_frame w w'.
Proof.
  apply frame_worker_stretch.
  - apply executor_frame_refl.
  - apply executor_frame_trans.
  - apply executor_frame_upsert_input.
  - apply executor_frame_status.
  - apply executor_frame_send.
  - apply executor_frame_output.
  - apply executor_frame_yield.
  - apply executor_frame_acquire.
  - apply executor_frame_release.
  - apply executor_frame_block_run.
  - intros w1. frame_solve.
Qed.

End ExecutorFrame.

(** ** Credential locks *)

Lemma remove_first_cons_perm (l : string * string) ls :
  l ∈ ls → l :: remove_first l ls ≡ₚ ls.
Proof.
  induction ls as [|x ls IH]; intros Hin; [by apply elem_of_nil in Hin|]. simpl.
  destruct (bool_decide (x = l)) eqn:E.
  - apply bool_decide_eq_true in E. by subst.
  - apply bool_decide_eq_false in E. apply elem_of_cons in Hin as [->|Hin]; [done|].
    rewrite Permutation_swap. by rewrite IH.
Qed.

Lemma remove_first_last_perm (l : string * string) ls :
  remove_first l (ls ++ [l]) ≡ₚ ls.
Proof.
  apply (Permutation_cons_inv (a := l)).
  rewrite remove_first_cons_perm.
  - by rewrite Permutation_app_comm.
  - apply elem_of_app. right. by apply list_elem_of_singleton.
Qed.

Section Locks.

Variable X : Externals.

Lemma same_locks_body e p :
  preserves same_locks
    (try_except
       (modify (with_block_runs (λ rs, rs ++ [node_exec_id e]));;
        let '(outs, failure) := execute (p_block p) (p_input p) (p_kwargs p) in
        for_each outs (process_output X (p_node p) e);;
        end_of_outputs e failure)
       (on_exception X (p_node p) e)).
Proof.
  apply frame_block_body; unfold same_locks; try done.
  - congruence.
  - intros n g i v w w' r. unfold upsert_execution_input.
    by destruct (attach_input _ _ _ _) as [[r0 rows]|]; intros [= <- _].
  - intros i st input w w' r. unfold update_node_execution_status.
    by destruct (List.find _ _); intros [= <- _].
  - by intros upd w w' r [= <- _].
  - by intros i n v w w' r [= <- _].
  - by intros e0 w w' r [= <- _].
Qed.

(** The [finally] clause releases the lock [creds_lock] names, if it is
    held. *)
Lemma run_block_locks e p w w' r :
  run_block X e p w = (w', r) →
  held_locks w' = match p_lock p with
                  | Some l => if bool_decide (l ∈ held_locks w)
                              then remove_first l (held_locks w) else held_locks w
                  | None => held_locks w
                  end.
Proof.
  unfold run_block, try_finally.
  match goal with
  | |- context [try_except ?a ?b w] =>
      destruct (try_except a b w) as [w1 r1] eqn:E;
      pose proof (same_locks_body e p w w1 r1 E) as Hl
  end.
  unfold same_locks in Hl. unfold release_creds_lock. destruct (p_lock p) as [l|]; munfold.
  - rewrite Hl. destruct (bool_decide _); intros [= <- _]; simpl; by rewrite ?Hl.
  - by intros [= <- _].
Qed.

Lemma update_execution_status_locks i st w w' r :
  update_execution_status i st w = (w', r) → held_locks w' = held_locks w.
Proof.
  unfold update_execution_status, update_node_execution_status, send_execution_update. munfold.
  destruct (List.find _ _); by intros [= <- _].
Qed.

(** X12. A block with at most one credentials field.  Whatever happens in
    [execute_node] (the node or its block is missing, the input is
    refused, the credentials cannot be read, the block completes or raises,
    the resolver raises), the credential locks held afterwards are those
    held before: the one lock that was taken has been released. *)
Theorem single_credential_lock_is_released e w w' r :
  (∀ node b, List.find (λ n, bool_decide (n_id n = node_id e)) (nodes w) = Some node →
             get_block X (node_block_id node) = Some b →
             (length (get_credentials_fields (input_schema b)) ≤ 1)%nat) →
  execute_node X e w = (w', r) →
  held_locks w' ≡ₚ held_locks w.
Proof.
  intros Hone. unfold execute_node, execute_node_start, get_node, node_block_of, push_output,
    upsert_execution_output. munfold.
  destruct (List.find _ (nodes w)) as [node|] eqn:Hnode; [|by intros [= <- _]].
  destruct (get_block X (node_block_id node)) as [b|] eqn:Hb; [|by intros [= <- _]].
  specialize (Hone node b eq_refl Hb).
  destruct (validate_exec X node (data e) false) as [[d|] msg].
  - destruct (update_execution_status (node_exec_id e) RUNNING w) as [w1 [r1|err]] eqn:Hu;
      apply update_execution_status_locks in Hu; [|intros [= <- _]; by rewrite Hu].
    destruct (get_credentials_fields (input_schema b)) as [|f [|f' fs]];
      [| |simpl in Hone; lia]; simpl; munfold.
    + intros Hrun. apply run_block_locks in Hrun. simpl in Hrun. by rewrite Hrun, Hu.
    + match goal with |- context [?inp !! f] => destruct (inp !! f) as [v|] end;
        [|intros [= <- _]; by rewrite Hu].
      destruct (credentials_meta v) as [c|]; [|intros [= <- _]; by rewrite Hu].
      unfold acquire. simpl.
      intros Hrun. apply run_block_locks in Hrun. simpl in Hrun. rewrite Hrun.
      rewrite bool_decide_eq_true_2.
      * rewrite Hu. apply remove_first_last_perm.
      * apply elem_of_app. right. by apply list_elem_of_singleton.
  - simpl.
    destruct (update_execution_status (node_exec_id e) FAILED _) as [w1 [r1|err]] eqn:Hu;
      apply update_execution_status_locks in Hu; intros [= <- _]; by rewrite Hu.
Qed.

End Locks.

(** ** Charging *)

Lemma charge_usage_accounts X e count stats w w' stats' r :
  _charge_usage X e count stats w = (w', stats', r) →
  cost stats' - cost stats = credits w - credits w'
  ∧ 0 ≤ credits w - credits w'
  ∧ w' = with_credits (λ _, credits w') w
  ∧ node_count stats' = node_count stats
  ∧ node_error_count stats' = node_error_count stats
  ∧ (get_block X (block_id e) = None → w' = w ∧ stats' = stats ∧ r = Ok count).
Proof.
  assert (∀ w0 : World, w0 = with_credits (λ _, credits w0) w0) as Hid by (by intros []).
  unfold _charge_usage, spend_credits.
  destruct (get_block X (block_id e)) as [b|].
  2:{ intros [= <- <- <-]. repeat split; try done; try lia. }
  destruct (block_usage_cost X b (data e)) as [c1 f].
  destruct (execution_usage_cost X count) as [c2 c'].
  destruct (0 <? c1) eqn:E1; [destruct (credits w <? c1) eqn:B1|].
  - intros [= <- <- <-]. repeat split; try done; try lia.
  - apply Z.ltb_lt in E1. apply Z.ltb_ge in B1.
    destruct (0 <? c2) eqn:E2; [destruct (credits _ <? c2) eqn:B2|];
      cbv beta iota; intros [= <- <- <-]; simpl in *;
      apply Z.ltb_lt in E2 || apply Z.ltb_ge in E2;
      (repeat split; try done; simpl; try lia; try (by destruct w)).
  - apply Z.ltb_ge in E1.
    destruct (0 <? c2) eqn:E2; [destruct (credits _ <? c2) eqn:B2|];
      cbv beta iota; intros [= <- <- <-]; simpl in *;
      apply Z.ltb_lt in E2 || apply Z.ltb_ge in E2;
      (repeat split; try done; simpl; try lia; try (by destruct w)).
Qed.

(** X13. [_charge_usage] adds to the run's cost exactly what it took from the
    user's credits, on every exit: also when the second debit raises after
    the first one went through.  It never credits the user, changes nothing
    but the balance, leaves the counters of the statistics alone, and
    charges nothing for a block that is not in the catalog. *)
Theorem charge_usage_adds_what_it_debits X e count stats w w' stats' r :
  _charge_usage X e count stats w = (w', stats', r) →
  cost stats' - cost stats = credits w - credits w'
  ∧ 0 ≤ credits w - credits w'
  ∧ w' = with_credits (λ _, credits w') w
  ∧ node_count stats' = node_count stats
  ∧ node_error_count stats' = node_error_count stats
  ∧ (get_block X (block_id e) = None → w' = w ∧ stats' = stats ∧ r = Ok count).
Proof. apply charge_usage_accounts. Qed.

(** ** The graph scheduler: tasks, accounts and undisturbed runs *)

Lemma worker_stretch_states X e st w w' ys st' :
  worker_stretch X e st w = Some (w', ys, st') →
  (st = Pending ∨ ∃ p o f, st = Streaming p o f) ∧ st' ≠ Killed ∧ st' ≠ Pending.
Proof.
  unfold worker_stretch. destruct st as [|p [|o outs] failure| |]; [| | |done|done].
  - destruct (run_generator _ _) as [[w1 ys1] [[p|]|err]].
    + destruct (execute _ _ _). intros [= _ _ <-]. split; [by left|done].
    + intros [= _ _ <-]. split; [by left|done].
    + intros [= _ _ <-]. split; [by left|done].
  - destruct (run_generator _ _) as [[w1 ys1] [[]|err]]; intros [= _ _ <-];
      (split; [right; eauto|done]).
  - destruct (run_generator _ _) as [[w1 ys1] [[]|err]].
    + intros [= _ _ <-]. split; [right; eauto|done].
    + destruct (try_finally _ _ _) as [w2 [[]|err']]; intros [= _ _ <-];
        (split; [right; eauto|done]).
Qed.

(** What the callback changes. *)
Lemma callback_on_effect e res s :
  tasks (callback_on e res s) = tasks s
  ∧ queue (callback_on e res s) = queue s
  ∧ pc (callback_on e res s) = pc s
  ∧ cancel (callback_on e res s) = cancel s
  ∧ finished (callback_on e res s) = finished s
  ∧ watcher (callback_on e res s) = watcher s
  ∧ pool_up (callback_on e res s) = pool_up s
  ∧ error (callback_on e res s) = error s
  ∧ returned (callback_on e res s) = returned s
  ∧ execution_status (callback_on e res s) = execution_status s
  ∧ running_executions (callback_on e res s) = delete (node_id e) (running_executions s)
  ∧ cost (execution_stats (callback_on e res s)) = cost (execution_stats s)
  ∧ node_count (execution_stats (callback_on e res s))
    = node_count (execution_stats s) + match res with Some _ => 1 | None => 0 end
  ∧ node_error_count (execution_stats (callback_on e res s))
    = node_error_count (execution_stats s)
      + match res with
        | Some {| nes_error := ErrorException _ |} => 1
        | _ => 0
        end
  ∧ credits (world (callback_on e res s)) = credits (world s)
  ∧ notifications (world (callback_on e res s)) = notifications (world s).
Proof.
  unfold callback_on, update_graph_execution_stats, send_execution_update. munfold.
  destruct res as [[err]|]; simpl.
  - destruct (graph_executions (world s) !! _), err; simpl; repeat split; try done; lia.
  - repeat split; try done; lia.
Qed.

Lemma callback_effect e s :
  tasks (callback e s) = tasks s
  ∧ queue (callback e s) = queue s
  ∧ pc (callback e s) = pc s
  ∧ cancel (callback e s) = cancel s
  ∧ finished (callback e s) = finished s
  ∧ watcher (callback e s) = watcher s
  ∧ pool_up (callback e s) = pool_up s
  ∧ error (callback e s) = error s
  ∧ returned (callback e s) = returned s
  ∧ execution_status (callback e s) = execution_status s
  ∧ running_executions (callback e s) = delete (node_id e) (running_executions s)
  ∧ cost (execution_stats (callback e s)) = cost (execution_stats s)
  ∧ node_count (execution_stats (callback e s)) = node_count (execution_stats s) + 1
  ∧ node_error_count (execution_stats (callback e s)) = node_error_count (execution_stats s)
  ∧ credits (world (callback e s)) = credits (world s)
  ∧ notifications (world (callback e s)) = notifications (world s).
Proof.
  unfold callback.
  destruct (callback_on_effect e (Some {| nes_error := NoError |}) s)
    as (? & ? & ? & ? & ? & ? & ? & ? & ? & ? & ? & ? & ? & Herr & ? & ?).
  simpl in Herr. rewrite Z.add_0_r in Herr. by repeat split.
Qed.

(** What a task hands to the pool: statistics whose error is absent or a
    string, or nothing when the store refused the statistics; the world
    stays as it is. *)
Lemma task_result_spec e err w :
  ∃ result, task_result e err w = (w, result)
    ∧ ∀ stats, result = Some stats →
        nes_error stats = match err with
                          | Some x => ErrorString (exn_str x)
                          | None => NoError
                          end.
Proof.
  unfold task_result, error_logged, try_except, report_node_execution,
    update_node_execution_stats. munfold.
  destruct (List.find _ _); eexists; (split; [reflexivity|]); [|done].
  intros stats [= <-]. by destruct err.
Qed.

Section SchedulerFacts.

Variable X : Externals.
Variable graph_exec : GraphExecutionEntry.

(** What a move of a worker changes. *)
Lemma work_effect t s s' :
  work X t s = Some s' →
  ∃ task w ys st result,
    tasks s !! t = Some task
    ∧ worker_stretch X (t_entry task) (t_state task) (world s) = Some (w, ys, st)
    ∧ tasks s'
      = <[t := {| t_entry := t_entry task; t_state := st; t_result := result |}]> (tasks s)
    ∧ queue s' = queue s ++ ys
    ∧ pc s' = pc s ∧ cancel s' = cancel s ∧ finished s' = finished s
    ∧ watcher s' = watcher s ∧ pool_up s' = pool_up s ∧ error s' = error s
    ∧ returned s' = returned s ∧ execution_status s' = execution_status s
    ∧ cost (execution_stats s') = cost (execution_stats s)
    ∧ node_error_count (execution_stats s') = node_error_count (execution_stats s)
    ∧ credits (world s') = credits (world s)
    ∧ notifications (world s') = notifications (world s)
    ∧ match st with
      | Done _ =>
          running_executions s' = delete (node_id (t_entry task)) (running_executions s)
          ∧ node_count (execution_stats s')
            = node_count (execution_stats s) + match result with Some _ => 1 | None => 0 end
      | _ =>
          running_executions s' = running_executions s
          ∧ node_count (execution_stats s') = node_count (execution_stats s)
          ∧ result = None
      end.
Proof.
  unfold work. destruct (tasks s !! t) as [task|] eqn:Ht; [|done].
  destruct (worker_stretch X (t_entry task) (t_state task) (world s))
    as [[[w ys] st]|] eqn:Hw; [|done].
  pose proof (worker_stretch_frame X _ _ _ _ _ _ Hw) as (Hcr & Hno & _).
  destruct st as [|p outs failure|err|];
    try (intros [= <-]; exists task, w, ys; eexists; exists None; simpl; repeat split; done).
  destruct (task_result_spec (t_entry task) err w) as (result & -> & Hresult).
  intros [= <-]. exists task, w, ys, (Done err), result. split; [done|]. split; [done|].
  match goal with
  | |- context [callback_on ?e ?r ?s0] =>
      destruct (callback_on_effect e r s0)
        as (-> & -> & -> & -> & -> & -> & -> & -> & -> & -> & -> & -> & -> & -> & -> & ->)
  end.
  simpl. repeat split; try done.
  destruct result as [[e0]|]; [|lia]. specialize (Hresult _ eq_refl). simpl in Hresult.
  destruct err; subst e0; lia.
Qed.

(** *** The tasks of the pool *)

Lemma task_inv_transfer s s' :
  task_inv s →
  tasks s' = tasks s →
  running_executions s' = running_executions s →
  (∀ e t0, pc s' = AtWaitSame e t0 →
     ∀ t task, tasks s !! t = Some task → ready task = false →
               node_id (t_entry task) = node_id e → t = t0) →
  (∀ e, pc s' = AtCharge e ∨ pc s' = AtSubmit e →
     ∀ t task, tasks s !! t = Some task → node_id (t_entry task) = node_id e →
               ready task = true) →
  task_inv s'.
Proof.
  intros [Ireg Iwait Ifree] Ht Hr Hw Hf. split; rewrite ?Ht, ?Hr; done.
Qed.

Ltac task_transfer s :=
  apply (task_inv_transfer s); simpl;
  [ done
  | done
  | done
  | try done; try (by intros ? ? [=]); try (by eauto)
  | try done; try (by intros ? [[=]|[=]]); try (by eauto) ].

Lemma main_step_task s s' :
  task_inv s → main_step X graph_exec s = Some s' → task_inv s'.
Proof.
  intros Hinv. pose proof Hinv as [Ireg Iwait Ifree]. unfold main_step.
  destruct (pc s) eqn:Hpc.
  - (* AtLoop *)
    destruct (queue s) as [|exec_data rest] eqn:Hq.
    { intros [= <-]. task_transfer s. }
    destruct (cancel s).
    { intros [= <-]. task_transfer s. }
    simpl.
    destruct (running_executions s !! node_id exec_data) as [t|] eqn:Hreg.
    + destruct (task_ready (set_queue rest s) t) eqn:Hready; intros [= <-].
      * task_transfer s.
        intros e' [[= <-]|[=]] t' task Ht' Hn.
        destruct (ready task) eqn:Hr; [done|].
        pose proof (Ireg t' task Ht' Hr) as Hreg'.
        rewrite Hn, Hreg in Hreg'. injection Hreg' as <-.
        apply task_ready_true in Hready as (task0 & Ht0 & Hr0). simpl in Ht0. congruence.
      * task_transfer s.
        intros e' t0' [= <- <-] t' task Ht' Hr Hn.
        pose proof (Ireg t' task Ht' Hr) as Hreg'.
        rewrite Hn, Hreg in Hreg'. by injection Hreg'.
    + intros [= <-]. task_transfer s.
      intros e' [[= <-]|[=]] t' task Ht' Hn.
      destruct (ready task) eqn:Hr; [done|].
      pose proof (Ireg t' task Ht' Hr) as Hreg'.
      rewrite Hn, Hreg in Hreg'. done.
  - (* AtWaitSame *)
    destruct (task_ready s t) eqn:Hready; [|done]. intros [= <-].
    task_transfer s.
    intros e' [[= <-]|[=]] t' task Ht' Hn.
    destruct (ready task) eqn:Hr; [done|].
    pose proof (Iwait e t eq_refl t' task Ht' Hr Hn) as ->.
    apply task_ready_true in Hready as (task0 & Ht0 & Hr0). congruence.
  - (* AtCharge *)
    destruct (_charge_usage X e _ _ _) as [[w stats] res] eqn:Hc.
    destruct res as [count|err].
    { intros [= <-]. task_transfer s.
      intros e' [[=]|[= <-]]. apply Ifree. by left. }
    destruct err as [| | | msg balance amount |];
      try (intros [= <-]; by task_transfer s).
    unfold upsert_execution_output. munfold.
    destruct (fail_low_balance _ _ _ _ _ _ _) as [w2 [[]|err2]]; intros [= <-];
      by task_transfer s.
  - (* AtSubmit *)
    destruct (pool_up s).
    2:{ intros [= <-]. task_transfer s. }
    intros [= <-]. split; simpl.
    + intros t task Ht Hr. apply lookup_app_Some in Ht as [Ht|[Hlen Ht]].
      * assert (node_id (t_entry task) ≠ node_id e) as Hne.
        { intros Hn. pose proof (Ifree e (or_intror eq_refl) t task Ht Hn). congruence. }
        rewrite lookup_insert_ne by done. by apply Ireg.
      * destruct (t - length (tasks s))%nat eqn:Hd; [|done]. injection Ht as <-. simpl.
        rewrite lookup_insert_eq. f_equal. lia.
    + done.
    + intros e' [[=]|[=]].
  - (* AtIdle *)
    destruct (queue s); [destruct (bool_decide _)|]; intros [= <-]; task_transfer s.
  - (* AtIdleFor *)
    destruct items as [|[nid t] items].
    { intros [= <-]. task_transfer s. }
    destruct (cancel s); [|destruct (queue s)]; intros [= <-]; task_transfer s.
  - intros [= <-]. task_transfer s.
  - destruct (cancel s); intros [= <-]; task_transfer s.
  - destruct (watcher s); try done. intros [= <-]. task_transfer s.
  - destruct (returned s) as [st|]; [|done].
    destruct (persist_result _ _ _ _ _) as [w r]. intros [= <-]. task_transfer s.
  - done.
Qed.

Lemma watcher_step_task s s' :
  task_inv s → watcher_step s = Some s' → task_inv s'.
Proof.
  intros Hinv. pose proof Hinv as [Ireg Iwait Ifree]. unfold watcher_step.
  destruct (watcher s).
  - destruct (cancel s); [|done]. intros [= <-]. by task_transfer s.
  - intros [= <-]. by task_transfer s.
  - intros [= <-]. by task_transfer s.
  - intros [= <-]. split; simpl.
    + intros t task Ht Hr. rewrite list_lookup_fmap in Ht.
      destruct (tasks s !! t) as [task0|] eqn:Ht0; [|done]. injection Ht as <-.
      destruct (kill_fields task0) as (-> & Hrk & _). rewrite Hrk in Hr.
      by apply Ireg.
    + intros e t0 Hpc t task Ht Hr Hn. rewrite list_lookup_fmap in Ht.
      destruct (tasks s !! t) as [task0|] eqn:Ht0; [|done]. injection Ht as <-.
      destruct (kill_fields task0) as (He & Hrk & _). rewrite He in Hn. rewrite Hrk in Hr.
      by eapply Iwait.
    + intros e Hpc t task Ht Hn. rewrite list_lookup_fmap in Ht.
      destruct (tasks s !! t) as [task0|] eqn:Ht0; [|done]. injection Ht as <-.
      destruct (kill_fields task0) as (He & -> & _). rewrite He in Hn.
      by eapply Ifree.
  - intros [= <-]. by task_transfer s.
  - done.
Qed.

Lemma work_task t s s' :
  task_inv s → work X t s = Some s' → task_inv s'.
Proof.
  intros [Ireg Iwait Ifree] Hwork.
  apply work_effect in Hwork
    as (task & w & ys & st & result & Ht & Hw & Htasks & _ & Hpc & _ & _ & _ & _ & _ & _ & _
        & _ & _ & _ & _ & Hrun).
  apply worker_stretch_states in Hw as (Hst & _ & _).
  assert (ready task = false) as Hunready.
  { unfold ready. destruct Hst as [->|(? & ? & ? & ->)]; done. }
  assert (t < length (tasks s))%nat as Hlen by (by eapply lookup_lt_Some).
  set (task' := {| t_entry := t_entry task; t_state := st; t_result := result |}) in *.
  assert (∀ t1 task1, tasks s' !! t1 = Some task1 →
            ∃ task0, tasks s !! t1 = Some task0 ∧ t_entry task1 = t_entry task0
                     ∧ (t1 ≠ t → task1 = task0) ∧ (t1 = t → task1 = task')) as Hold.
  { intros t1 task1 H1. rewrite Htasks in H1. destruct (decide (t = t1)) as [<-|Hne].
    - rewrite list_lookup_insert_eq in H1 by done. injection H1 as <-.
      exists task. done.
    - rewrite list_lookup_insert_ne in H1 by done. exists task1. done. }
  assert (∀ t1 task1, tasks s' !! t1 = Some task1 → ready task1 = false →
            ∃ task0, tasks s !! t1 = Some task0 ∧ t_entry task1 = t_entry task0
                     ∧ ready task0 = false ∧ (ready task' = true → t1 ≠ t)) as Hunr.
  { intros t1 task1 H1 Hr. destruct (Hold t1 task1 H1) as (task0 & H0 & He & Hne & Heq).
    exists task0. split; [done|]. split; [done|].
    destruct (decide (t1 = t)) as [->|Hd].
    - split; [congruence|]. rewrite (Heq eq_refl) in Hr. congruence.
    - split; [by rewrite <- (Hne Hd)|done]. }
  split.
  - intros t1 task1 H1 Hr.
    destruct (Hunr t1 task1 H1 Hr) as (task0 & H0 & He & Hr0 & Hnt). rewrite He.
    pose proof (Ireg t1 task0 H0 Hr0) as Hreg.
    destruct st; try (destruct Hrun as [-> _]; done).
    destruct Hrun as [-> _].
    rewrite lookup_delete_ne; [done|]. intros Heq.
    pose proof (Ireg t task Ht Hunready) as R2. rewrite Heq in R2.
    assert (t1 = t) by congruence. by apply Hnt.
  - rewrite Hpc. intros e t0 Hp t1 task1 H1 Hr Hn.
    destruct (Hunr t1 task1 H1 Hr) as (task0 & H0 & He & Hr0 & _). rewrite He in Hn.
    by eapply Iwait.
  - rewrite Hpc. intros e Hp t1 task1 H1 Hn.
    destruct (Hold t1 task1 H1) as (task0 & H0 & He & Hne & Heq). rewrite He in Hn.
    pose proof (Ifree e Hp t1 task0 H0 Hn) as Hr0.
    destruct (decide (t1 = t)) as [->|Hd]; [congruence|]. by rewrite (Hne Hd).
Qed.

Lemma step_task l s s' :
  task_inv s → step X graph_exec l s = Some s' → task_inv s'.
Proof.
  destruct l; simpl.
  - apply main_step_task.
  - apply watcher_step_task.
  - apply work_task.
  - intros [Ireg Iwait Ifree] [= <-]. by split.
Qed.

Lemma run_task ls s s' :
  task_inv s → run X graph_exec ls s = Some s' → task_inv s'.
Proof.
  revert s. induction ls as [|l ls IH]; intros s Hinv; simpl.
  - by intros [= <-].
  - destruct (step X graph_exec l s) as [s1|] eqn:Hs; [|done].
    apply IH. by eapply step_task.
Qed.

Lemma init_task w : task_inv (init graph_exec w).
Proof. by split. Qed.

End SchedulerFacts.

(** X14. One task per node, at any time and whatever the store holds.  After
    any sequence of moves of the scheduler thread, the watcher thread, the
    workers and the canceller, two tasks of the pool that have not
    finished are for different nodes, and every unfinished task is the one
    registered in [running_executions] under its node. *)
Theorem pool_runs_one_task_per_node X graph_exec w ls s :
  run X graph_exec ls (init graph_exec w) = Some s →
  (∀ t task, tasks s !! t = Some task → ready task = false →
             running_executions s !! node_id (t_entry task) = Some t)
  ∧ (∀ t1 t2 task1 task2,
       tasks s !! t1 = Some task1 → tasks s !! t2 = Some task2 →
       ready task1 = false → ready task2 = false →
       node_id (t_entry task1) = node_id (t_entry task2) → t1 = t2).
Proof.
  intros Hrun.
  destruct (run_task X graph_exec ls _ _ (init_task graph_exec w) Hrun) as [Ireg _ _].
  split; [done|]. intros t1 t2 task1 task2 H1 H2 Hr1 Hr2 Hn.
  pose proof (Ireg t1 task1 H1 Hr1) as R1. pose proof (Ireg t2 task2 H2 Hr2) as R2.
  rewrite Hn in R1. congruence.
Qed.

(** *** The accounts of a run *)

Lemma reported_count_insert (ts : list Task) t old new :
  ts !! t = Some old →
  (length (filter (λ task, has_stats task = true) (<[t := new]> ts))
   + (if has_stats old then 1 else 0)
   = length (filter (λ task, has_stats task = true) ts) + (if has_stats new then 1 else 0))%nat.
Proof.
  revert t. induction ts as [|x ts IH]; intros t Ht; [done|].
  destruct t as [|t]; simpl in *.
  - injection Ht as ->. rewrite !filter_cons.
    destruct (decide (has_stats new = true)) as [->|Hn],
             (decide (has_stats old = true)) as [->|Ho]; simpl; try lia.
    + apply not_true_is_false in Ho. rewrite Ho. lia.
    + apply not_true_is_false in Hn. rewrite Hn. lia.
    + apply not_true_is_false in Hn. apply not_true_is_false in Ho. rewrite Hn, Ho. lia.
  - rewrite !filter_cons. specialize (IH t Ht).
    destruct (decide (has_stats x = true)); simpl; lia.
Qed.

Lemma kill_result (x : Task) :
  has_stats (kill x) = has_stats x ∧ (ready x = true → ready (kill x) = true).
Proof. unfold kill, has_stats, ready. simpl. by destruct (t_state x). Qed.

Lemma reported_count_kill (ts : list Task) :
  length (filter (λ task, has_stats task = true) (map kill ts))
  = length (filter (λ task, has_stats task = true) ts).
Proof.
  induction ts as [|x ts IH]; [done|]. simpl. rewrite !filter_cons.
  destruct (kill_result x) as [-> _].
  destruct (decide (has_stats x = true)); simpl; by rewrite IH.
Qed.

Lemma reported_count_submit (ts : list Task) e :
  length (filter (λ task, has_stats task = true)
            (ts ++ [{| t_entry := e; t_state := Pending; t_result := None |}]))
  = length (filter (λ task, has_stats task = true) ts).
Proof. rewrite filter_app. rewrite length_app. simpl. lia. Qed.

Lemma finishing_not_loop p : finishing p → ∀ q, (q = AtFinally ∨ q = AtFinished ∨ q = AtJoin
                                               ∨ q = AtReturn ∨ q = Exited) → finishing q.
Proof. intros _ q [->|[->|[->|[->| ->]]]]; done. Qed.

Section Accounts.

Variable X : Externals.
Variable graph_exec : GraphExecutionEntry.
Variable w0 : World.

Lemma fail_low_balance_accounts e stats b a w w' r :
  fail_low_balance X graph_exec e stats b a w = (w', r) →
  credits w' = credits w
  ∧ (notifications w' = notifications w
     ∨ ∃ lb, notifications w' = notifications w ++ [low_balance_note graph_exec lb]).
Proof.
  unfold fail_low_balance, update_node_execution_status, send_execution_update,
    _handle_low_balance_notif, get_graph_metadata, queue_notification. munfold.
  destruct (List.find _ _); intros [= <- _]; simpl.
  - split; [done|]. right. eexists. reflexivity.
  - split; [done|]. by left.
Qed.

Lemma persist_result_accounts st stats err w :
  credits (persist_result graph_exec st stats err w).1 = credits w
  ∧ ∃ d, notifications (persist_result graph_exec st stats err w).1
         = notifications w ++ [agent_run_note graph_exec d]
         ∧ credits_used d = cost stats
         ∧ ar_graph_id d = g_graph_id graph_exec.
Proof.
  unfold persist_result, update_graph_execution_stats, send_execution_update,
    _handle_agent_run_notif, get_graph_metadata, queue_notification. munfold.
  destruct (graph_executions w !! _); simpl; (split; [done|]); eexists; split; done.
Qed.

(** A move that leaves the world, the statistics and the results of the
    tasks alone. *)
Lemma acct_inv_transfer_tasks s s' :
  acct_inv graph_exec w0 s →
  world s' = world s →
  execution_stats s' = execution_stats s →
  length (reported_tasks s') = length (reported_tasks s) →
  (∀ task, task ∈ tasks s' → has_stats task = true → ready task = true) →
  pc s' = pc s ∨ (pc s ≠ Exited ∧ pc s' ≠ Exited ∧ (finishing (pc s) → finishing (pc s'))) →
  acct_inv graph_exec w0 s'.
Proof.
  intros [Icost Icount Irep Ierr (pre & Hpre & Hnotes)] Hw Hs Hf Hr Hpc.
  split; rewrite ?Hw, ?Hs, ?Hf; try done.
  exists pre. destruct Hpc as [->|(Hne & Hne' & Hfin)]; [done|].
  split.
  - destruct Hpre as [?|[? ?]]; [by left|right; split; [by apply Hfin|done]].
  - destruct (pc s), (pc s'); done.
Qed.

Lemma acct_inv_transfer s s' :
  acct_inv graph_exec w0 s →
  world s' = world s →
  execution_stats s' = execution_stats s →
  tasks s' = tasks s →
  pc s' = pc s ∨ (pc s ≠ Exited ∧ pc s' ≠ Exited ∧ (finishing (pc s) → finishing (pc s'))) →
  acct_inv graph_exec w0 s'.
Proof.
  intros Hinv Hw Hs Ht Hpc. apply (acct_inv_transfer_tasks s); try done.
  - unfold reported_tasks. by rewrite Ht.
  - rewrite Ht. by destruct Hinv.
Qed.

Ltac acct_transfer s :=
  apply (acct_inv_transfer s);
  [ done | done | done | done
  | first [ by left
          | right; simpl;
            match goal with H : pc s = _ |- _ => rewrite H end;
            split; [done|]; split; [done|]; simpl; tauto ] ].

Lemma main_step_acct s s' :
  acct_inv graph_exec w0 s → main_step X graph_exec s = Some s' → acct_inv graph_exec w0 s'.
Proof.
  intros Hinv. pose proof Hinv as [Icost Icount Irep Ierr (pre & Hpre & Hnotes)].
  unfold main_step.
  destruct (pc s) eqn:Hpc.
  - (* AtLoop *)
    destruct (queue s) as [|exec_data rest] eqn:Hq.
    { intros [= <-]. acct_transfer s. }
    destruct (cancel s).
    { intros [= <-]. acct_transfer s. }
    simpl. destruct (running_executions s !! node_id exec_data) as [t|].
    + destruct (task_ready _ t); intros [= <-]; acct_transfer s.
    + intros [= <-]. acct_transfer s.
  - (* AtWaitSame *)
    destruct (task_ready s t); [|done]. intros [= <-]. acct_transfer s.
  - (* AtCharge *)
    destruct Hpre as [->|[Hfin _]]; [|done]. rewrite app_nil_r in Hnotes.
    destruct (_charge_usage X e _ _ _) as [[w stats] res] eqn:Hc.
    apply charge_usage_accounts in Hc as (Hcost & _ & Hw & Hcount & Herr & _).
    assert (notifications w = notifications (world s)) as Hn by (by rewrite Hw).
    destruct res as [count|err].
    { intros [= <-]. split; simpl.
      - lia.
      - by rewrite Hcount.
      - done.
      - by rewrite Herr.
      - exists []. split; [by left|]. by rewrite app_nil_r, Hn. }
    assert (∀ s1, world s1 = w → execution_stats s1 = stats →
                  tasks s1 = tasks s → pc s1 = AtFinally →
                  acct_inv graph_exec w0 s1) as Hplain.
    { intros s1 H1 H2 H3 H4. split; unfold reported_tasks in *; rewrite ?H1, ?H2, ?H3;
        [lia|congruence|done|congruence|].
      exists []. split; [by left|]. rewrite H4, app_nil_r. congruence. }
    destruct err as [| | | msg balance amount |];
      try (intros [= <-]; by apply Hplain).
    unfold upsert_execution_output. munfold.
    destruct (fail_low_balance _ _ _ _ _ _ _) as [w2 r2] eqn:Hfl.
    apply fail_low_balance_accounts in Hfl as (Hcr & Hno). simpl in Hcr, Hno.
    assert (∀ s1, world s1 = w2 → execution_stats s1 = stats →
                  tasks s1 = tasks s → pc s1 = AtFinally →
                  acct_inv graph_exec w0 s1) as Hlow.
    { intros s1 H1 H2 H3 H4. split; unfold reported_tasks in *; rewrite ?H1, ?H2, ?H3;
        [lia|congruence|done|congruence|].
      destruct Hno as [Hno|[lb Hno]].
      - exists []. split; [by left|]. rewrite H4, app_nil_r. congruence.
      - exists [low_balance_note graph_exec lb]. split.
        + right. rewrite H4. split; [done|]. by exists lb.
        + rewrite H4, Hno. congruence. }
    destruct r2; intros [= <-]; by apply Hlow.
  - (* AtSubmit *)
    destruct (pool_up s).
    2:{ intros [= <-]. acct_transfer s. }
    intros [= <-]. apply (acct_inv_transfer_tasks s); try done.
    + unfold reported_tasks. simpl. apply reported_count_submit.
    + simpl. intros task [Hin|Hin]%elem_of_app; [by apply Irep|].
      apply list_elem_of_singleton in Hin as ->. done.
    + right. simpl. rewrite Hpc. done.
  - (* AtIdle *)
    destruct (queue s); [destruct (bool_decide _)|]; intros [= <-]; acct_transfer s.
  - (* AtIdleFor *)
    destruct items as [|[nid t] items].
    { intros [= <-]. acct_transfer s. }
    destruct (cancel s); [|destruct (queue s)]; intros [= <-]; acct_transfer s.
  - intros [= <-]. acct_transfer s.
  - destruct (cancel s); intros [= <-]; acct_transfer s.
  - destruct (watcher s); try done. intros [= <-]. acct_transfer s.
  - (* AtReturn *)
    destruct (returned s) as [st|]; [|done].
    pose proof (persist_result_accounts st (execution_stats s) (error s) (world s))
      as (Hcr & d & Hno & Hused & Hgid).
    destruct (persist_result _ _ _ _ _) as [w r]. simpl in Hcr, Hno. intros [= <-].
    split; simpl; [lia|done|done|done|].
    exists pre. split.
    + destruct Hpre as [?|[_ ?]]; [by left|by right].
    + exists d. rewrite Hno, Hnotes. by rewrite <- app_assoc.
  - done.
Qed.

Lemma watcher_step_acct s s' :
  acct_inv graph_exec w0 s → watcher_step s = Some s' → acct_inv graph_exec w0 s'.
Proof.
  intros Hinv. unfold watcher_step. destruct (watcher s).
  - destruct (cancel s); [|done]. intros [= <-]. by apply (acct_inv_transfer s); auto.
  - intros [= <-]. by apply (acct_inv_transfer s); auto.
  - intros [= <-]. by apply (acct_inv_transfer s); auto.
  - intros [= <-]. apply (acct_inv_transfer_tasks s); auto.
    + unfold reported_tasks. simpl. apply reported_count_kill.
    + simpl. intros task (x & -> & Hx)%list_elem_of_fmap.
      destruct (kill_result x) as [-> Hr]. intros Hs. apply Hr.
      destruct Hinv as [_ _ Irep _ _]. by apply Irep.
  - intros [= <-]. by apply (acct_inv_transfer s); auto.
  - done.
Qed.

Lemma work_acct t s s' :
  acct_inv graph_exec w0 s → work X t s = Some s' → acct_inv graph_exec w0 s'.
Proof.
  intros [Icost Icount Irep Ierr (pre & Hpre & Hnotes)] Hwork.
  apply work_effect in Hwork
    as (task & w & ys & st & result & Ht & Hw & Htasks & _ & Hpc & _ & _ & _ & _ & _ & _ & _
        & Hcost & Herr & Hcr & Hno & Hrun).
  apply worker_stretch_states in Hw as (Hst & _ & _).
  assert (ready task = false) as Hunready.
  { unfold ready. destruct Hst as [->|(? & ? & ? & ->)]; done. }
  assert (has_stats task = false) as Hnone.
  { destruct (has_stats task) eqn:Hs; [|done].
    rewrite (Irep task (list_elem_of_lookup_2 _ _ _ Ht) Hs) in Hunready. done. }
  pose proof (reported_count_insert (tasks s) t task
                {| t_entry := t_entry task; t_state := st; t_result := result |} Ht) as Hlen.
  rewrite Hnone in Hlen. rewrite <- Htasks in Hlen. fold (reported_tasks s') in Hlen.
  fold (reported_tasks s) in Hlen.
  split.
  - lia.
  - destruct st; try (destruct Hrun as (_ & -> & ->); unfold has_stats in Hlen; simpl in Hlen;
                      lia).
    destruct Hrun as [_ ->]. unfold has_stats in Hlen. simpl in Hlen.
    destruct result; lia.
  - intros task1 Hin Hs. rewrite Htasks in Hin.
    apply list_elem_of_lookup in Hin as [t1 H1].
    destruct (decide (t = t1)) as [<-|Hne].
    + rewrite list_lookup_insert_eq in H1 by (by eapply lookup_lt_Some).
      injection H1 as <-. unfold has_stats in Hs. simpl in Hs. unfold ready. simpl.
      destruct st; try (destruct Hrun as (_ & _ & ->); done). done.
    + rewrite list_lookup_insert_ne in H1 by done.
      apply Irep; [|done]. by eapply list_elem_of_lookup_2.
  - by rewrite Herr.
  - exists pre. rewrite Hpc, Hno, Hcost. done.
Qed.

Lemma step_acct l s s' :
  acct_inv graph_exec w0 s → step X graph_exec l s = Some s' → acct_inv graph_exec w0 s'.
Proof.
  destruct l; simpl.
  - apply main_step_acct.
  - apply watcher_step_acct.
  - apply work_acct.
  - intros Hinv [= <-]. by apply (acct_inv_transfer s); auto.
Qed.

Lemma run_acct ls s s' :
  acct_inv graph_exec w0 s → run X graph_exec ls s = Some s' → acct_inv graph_exec w0 s'.
Proof.
  revert s. induction ls as [|l ls IH]; intros s Hinv; simpl.
  - by intros [= <-].
  - destruct (step X graph_exec l s) as [s1|] eqn:Hs; [|done].
    apply IH. by eapply step_acct.
Qed.

Lemma init_acct : acct_inv graph_exec w0 (init graph_exec w0).
Proof.
  split; simpl; [lia|done| |done|].
  - intros task Hin. by apply elem_of_nil in Hin.
  - exists []. split; [by left|]. by rewrite app_nil_r.
Qed.

End Accounts.

(** X15. The cost a run reports is what it has debited.  After any sequence
    of moves of the scheduler thread, the watcher thread, the workers and
    the canceller, [execution_stats.cost] equals the credits the user had
    when the run started minus the credits the user has now. *)
Theorem reported_cost_is_what_was_debited X graph_exec w ls s :
  run X graph_exec ls (init graph_exec w) = Some s →
  cost (execution_stats s) = credits w - credits (world s).
Proof. intros Hrun. by destruct (run_acct X graph_exec w ls _ _ (init_acct graph_exec w) Hrun). Qed.

(** *** Tasks that hand over no statistics *)

Section Reported.

Variable X : Externals.
Variable graph_exec : GraphExecutionEntry.

Lemma execute_node_start_rows e w w' res :
  execute_node_start X e w = (w', res) →
  rows_evolve (Some (node_exec_id e)) w w' ∧ yielded w' = yielded w.
Proof.
  unfold execute_node_start, get_node, node_block_of. munfold.
  destruct (List.find _ _) as [node|];
    [|intros [= <- _]; split; [apply rows_evolve_refl|done]].
  destruct (get_block X (node_block_id node)) as [b|]; simpl;
    [|intros [= <- _]; split; [apply rows_evolve_refl|done]].
  destruct (validate_exec X node (data e) false) as [[d|] msg].
  - destruct (update_execution_status (node_exec_id e) RUNNING w) as [w1 [r|err]] eqn:Hu;
      apply (update_execution_status_spec (Some (node_exec_id e))) in Hu
        as (Hev & Hy & _); try done.
    + match goal with
      | |- context [acquire_credentials ?u ?i ?f ?k ?l w1] =>
          destruct (acquire_credentials u i f k l w1) as [w2 r2] eqn:Ha
      end.
      apply acquire_credentials_rows in Ha as [Hrows Hy2].
      intros H. assert (w' = w2) as -> by (destruct r2 as [[? ?]|?]; by injection H as <- _).
      split; [|congruence].
      eapply rows_evolve_trans; [exact Hev|]. by apply rows_evolve_same.
    + by intros [= <- _].
  - unfold push_output, upsert_execution_output. munfold.
    set (w0 := with_execution_outputs _ w).
    destruct (update_execution_status (node_exec_id e) FAILED w0) as [w1 [r|err]] eqn:Hu;
      apply (update_execution_status_spec None) in Hu as (Hev & Hy & _); try done;
      intros [= <- _]; (split; [by apply rows_evolve_weaken|done]).
Qed.

(** A stretch of a worker removes no execution, and what it yields names
    stored executions. *)
Lemma worker_stretch_rows e st w w' ys st' :
  worker_stretch X e st w = Some (w', ys, st') →
  rows_evolve (Some (node_exec_id e)) w w' ∧ ∀ y, y ∈ ys → has_row w' y.
Proof.
  unfold worker_stretch, run_generator. set (wr := with_yielded (λ _, []) w).
  assert (rows_evolve None w wr) as Hreset by (by apply rows_evolve_same).
  destruct st as [|p outs failure| |]; [| |done|done].
  - destruct (execute_node_start X e wr) as [w1 res] eqn:Hs.
    apply execute_node_start_rows in Hs as (Hev & Hy).
    assert (rows_evolve (Some (node_exec_id e)) w w1) as Hev'.
    { eapply rows_evolve_trans; [|exact Hev]. by apply rows_evolve_weaken. }
    assert (∀ y, y ∈ yielded w1 → has_row w1 y) as Hnone.
    { rewrite Hy. intros y Hin. by apply elem_of_nil in Hin. }
    destruct res as [[p|]|err].
    + destruct (execute (p_block p) (p_input p) (p_kwargs p)) as [outs failure].
      intros [= <- <- <-]. split; [|exact Hnone].
      eapply rows_evolve_trans; [exact Hev'|]. by apply rows_evolve_same.
    + by intros [= <- <- <-].
    + by intros [= <- <- <-].
  - destruct outs as [|o outs].
    + destruct (try_finally _ _ wr) as [w1 res] eqn:Hf.
      apply finish_spec in Hf as [Hrel _].
      intros H. assert (w' = w1 ∧ ys = yielded w1) as [-> ->]
        by (destruct res; by injection H as <- <- _).
      split; [|by eapply yielded_after_reset].
      apply rows_evolve_weaken. eapply rows_evolve_trans; [exact Hreset|]. apply Hrel.
    + destruct (process_output X (p_node p) e o wr) as [w1 [[]|err]] eqn:Hp;
        apply process_output_rel in Hp as Hrel.
      * intros [= <- <- <-]. split; [|by eapply yielded_after_reset].
        apply rows_evolve_weaken. eapply rows_evolve_trans; [exact Hreset|]. apply Hrel.
      * destruct (try_finally _ _ w1) as [w2 res] eqn:Hf.
        apply fail_and_release_spec in Hf as [Hrel2 _].
        pose proof (stretch_rel_trans _ _ _ _ Hrel Hrel2) as Hrel3.
        intros H. assert (w' = w2 ∧ ys = yielded w2) as [-> ->]
          by (destruct res; by injection H as <- <- _).
        split; [|by eapply yielded_after_reset].
        apply rows_evolve_weaken. eapply rows_evolve_trans; [exact Hreset|]. apply Hrel3.
Qed.

(** The store takes the statistics of an execution it holds. *)
Lemma task_result_stored e err w :
  has_row w e → ∃ stats, task_result e err w = (w, Some stats).
Proof.
  intros (r & Hin & Hid & _).
  unfold task_result, error_logged, try_except, report_node_execution,
    update_node_execution_stats. munfold.
  destruct (List.find (has_id (node_exec_id e)) (node_executions w)) as [r0|] eqn:Hf;
    [by eexists|].
  apply list_elem_of_In in Hin. pose proof (List.find_none _ _ Hf r Hin) as Hno.
  unfold has_id in Hno. by rewrite bool_decide_eq_true_2 in Hno.
Qed.

(** A move of the scheduler thread or of the watcher that leaves the
    tasks alone. *)
Lemma rows_inv_transfer own s s' :
  rows_inv s →
  rows_evolve own (world s) (world s') →
  tasks s' = tasks s →
  (∀ e, e ∈ queue s' → e ∈ queue s) →
  (∀ e, pc_entry (pc s') = Some e → e ∈ queue s ∨ pc_entry (pc s) = Some e) →
  rows_inv s'.
Proof.
  intros [Iq It Ip Is] Hev Ht Hq Hpc. split.
  - intros e He. eapply has_row_evolve; [exact Hev|]. by apply Iq, Hq.
  - rewrite Ht. intros task Hin. eapply has_row_evolve; [exact Hev|]. by apply It.
  - intros e He. eapply has_row_evolve; [exact Hev|].
    destruct (Hpc e He) as [?|?]; [by apply Iq | by apply Ip].
  - rewrite Ht. exact Is.
Qed.

Ltac rows_transfer s :=
  apply (rows_inv_transfer None s); simpl;
  [ done
  | try apply rows_evolve_refl; try (by apply rows_evolve_same)
  | done
  | try done; try (by auto)
  | try done; try (by intros ? [=]); try (by auto) ].

Lemma main_step_rows s s' :
  rows_inv s → main_step X graph_exec s = Some s' → rows_inv s'.
Proof.
  intros Hinv. pose proof Hinv as [Iq It Ip Is]. unfold main_step.
  destruct (pc s) eqn:Hpc.
  - (* AtLoop *)
    destruct (queue s) as [|exec_data rest] eqn:Hq.
    { intros [= <-]. rows_transfer s. }
    destruct (cancel s).
    { intros [= <-]. rows_transfer s. }
    simpl.
    assert (∀ e, e ∈ rest → e ∈ queue s) as Hrest.
    { intros e He. rewrite Hq. apply elem_of_cons. by right. }
    assert (exec_data ∈ queue s) as Hhead.
    { rewrite Hq. apply elem_of_cons. by left. }
    destruct (running_executions s !! node_id exec_data) as [t|];
      [destruct (task_ready _ t)|]; intros [= <-]; rows_transfer s;
      intros e' [= <-]; by left.
  - (* AtWaitSame *)
    destruct (task_ready s t); [|done]. intros [= <-]. rows_transfer s.
    intros e' [= <-]. right. by rewrite Hpc.
  - (* AtCharge *)
    destruct (_charge_usage X e _ _ _) as [[w stats] res] eqn:Hc.
    apply charge_usage_rows in Hc.
    destruct res as [count|err].
    { intros [= <-]. rows_transfer s. intros e' [= <-]. right. by rewrite Hpc. }
    destruct err as [| | | msg balance amount |];
      try (intros [= <-]; by rows_transfer s).
    unfold upsert_execution_output. munfold.
    destruct (fail_low_balance _ _ _ _ _ _ _) as [w2 r2] eqn:Hfl.
    apply fail_low_balance_rows in Hfl. simpl in Hfl.
    assert (rows_evolve None (world s) w2) as Hev.
    { eapply rows_evolve_trans; [|exact Hfl]. by apply rows_evolve_same. }
    destruct r2; intros [= <-]; by rows_transfer s.
  - (* AtSubmit *)
    destruct (pool_up s).
    2:{ intros [= <-]. rows_transfer s. }
    intros [= <-]. split; simpl.
    + done.
    + intros task [Hin|Hin]%elem_of_app; [by apply It|].
      apply list_elem_of_singleton in Hin as ->. simpl. by apply Ip.
    + done.
    + intros task [Hin|Hin]%elem_of_app; [by apply Is|].
      apply list_elem_of_singleton in Hin as ->. done.
  - (* AtIdle *)
    destruct (queue s); [destruct (bool_decide _)|]; intros [= <-]; rows_transfer s.
  - (* AtIdleFor *)
    destruct items as [|[nid t] items].
    { intros [= <-]. rows_transfer s. }
    destruct (cancel s); [|destruct (queue s)]; intros [= <-]; rows_transfer s.
  - intros [= <-]. rows_transfer s.
  - destruct (cancel s); intros [= <-]; rows_transfer s.
  - destruct (watcher s); try done. intros [= <-]. rows_transfer s.
  - destruct (returned s) as [st|]; [|done].
    pose proof (persist_result_rows graph_exec st (execution_stats s) (error s) (world s))
      as Hrows.
    destruct (persist_result _ _ _ _ _) as [w r]. intros [= <-]. rows_transfer s.
  - done.
Qed.

Lemma watcher_step_rows s s' :
  rows_inv s → watcher_step s = Some s' → rows_inv s'.
Proof.
  intros Hinv. pose proof Hinv as [Iq It Ip Is]. unfold watcher_step.
  destruct (watcher s).
  - destruct (cancel s); [|done]. intros [= <-]. by rows_transfer s.
  - intros [= <-]. by rows_transfer s.
  - intros [= <-]. by rows_transfer s.
  - intros [= <-]. split; simpl; try done.
    + intros task (x & -> & Hx)%list_elem_of_fmap.
      destruct (kill_fields x) as (-> & _). by apply It.
    + intros task (x & -> & Hx)%list_elem_of_fmap.
      destruct (kill_fields x) as (_ & -> & _). destruct (kill_result x) as [-> _].
      by apply Is.
  - intros [= <-]. by rows_transfer s.
  - done.
Qed.

Lemma work_rows t s s' :
  rows_inv s → work X t s = Some s' → rows_inv s'.
Proof.
  intros [Iq It Ip Is]. unfold work.
  destruct (tasks s !! t) as [task|] eqn:Ht; [|done].
  destruct (worker_stretch X (t_entry task) (t_state task) (world s))
    as [[[w ys] st]|] eqn:Hw; [|done].
  pose proof (worker_stretch_rows _ _ _ _ _ _ Hw) as [Hev Hys].
  pose proof (worker_stretch_states _ _ _ _ _ _ _ Hw) as (_ & Hnk & Hnp).
  assert (has_row w (t_entry task)) as Hrow.
  { eapply has_row_evolve; [exact Hev|]. apply It. by eapply list_elem_of_lookup_2. }
  assert (∃ result,
            match st with
            | Done err => task_result (t_entry task) err w
            | _ => (w, None)
            end = (w, result)
            ∧ (ready {| t_entry := t_entry task; t_state := st; t_result := result |} = true
               → result ≠ None)) as (result & -> & Hres).
  { destruct st as [|p outs failure|err|]; try (by exists None).
    destruct (task_result_stored (t_entry task) err w Hrow) as [stats ->].
    by exists (Some stats). }
  set (task' := {| t_entry := t_entry task; t_state := st; t_result := result |}) in *.
  set (s1 := set_world w (set_queue (queue s ++ ys)
                            (set_tasks (<[t := task']> (tasks s)) s))).
  assert (rows_inv s1) as Hinv1.
  { split; simpl.
    - intros e [He|He]%elem_of_app; [|by apply Hys].
      eapply has_row_evolve; [exact Hev|]. by apply Iq.
    - intros task1 Hin. apply list_elem_of_lookup in Hin as [t1 H1].
      destruct (decide (t = t1)) as [<-|Hne].
      + rewrite list_lookup_insert_eq in H1 by (by eapply lookup_lt_Some).
        by injection H1 as <-.
      + rewrite list_lookup_insert_ne in H1 by done.
        eapply has_row_evolve; [exact Hev|]. apply It. by eapply list_elem_of_lookup_2.
    - intros e He. eapply has_row_evolve; [exact Hev|]. by apply Ip.
    - intros task1 Hin Hr. apply list_elem_of_lookup in Hin as [t1 H1].
      destruct (decide (t = t1)) as [<-|Hne].
      + rewrite list_lookup_insert_eq in H1 by (by eapply lookup_lt_Some).
        injection H1 as <-. unfold has_stats. simpl.
        specialize (Hres Hr). by destruct result.
      + rewrite list_lookup_insert_ne in H1 by done.
        apply Is; [|done]. by eapply list_elem_of_lookup_2. }
  intros [= <-]. destruct st; try done.
  destruct Hinv1 as [I1q I1t I1p I1s].
  destruct (callback_on_fields (t_entry task) result s1)
    as (Hrows & Htasks & Hqueue & Hpc & _).
  split; rewrite ?Htasks, ?Hqueue, ?Hpc; unfold has_row in *; rewrite ?Hrows; done.
Qed.

Lemma step_rows l s s' :
  rows_inv s → step X graph_exec l s = Some s' → rows_inv s'.
Proof.
  destruct l; simpl.
  - apply main_step_rows.
  - apply watcher_step_rows.
  - apply work_rows.
  - intros [Iq It Ip Is] [= <-]. by split.
Qed.

Lemma run_rows ls s s' :
  rows_inv s → run X graph_exec ls s = Some s' → rows_inv s'.
Proof.
  revert s. induction ls as [|l ls IH]; intros s Hinv; simpl.
  - by intros [= <-].
  - destruct (step X graph_exec l s) as [s1|] eqn:Hs; [|done].
    apply IH. by eapply step_rows.
Qed.

Lemma init_rows w :
  (∀ e, e ∈ start_node_execs graph_exec → has_row w e) → rows_inv (init graph_exec w).
Proof.
  intros Hstart. split; simpl; try done.
  - intros task Hin. by apply elem_of_nil in Hin.
  - intros task Hin. by apply elem_of_nil in Hin.
Qed.

End Reported.

(** X16. The count of a run.  After any sequence of moves, [node_count] is
    the number of tasks that handed a [NodeExecutionStats] to their
    callback, whether their node succeeded or failed; each of these tasks
    has finished, and a task that handed over nothing (its worker was
    killed, or the store refused its statistics and [error_logged]
    returned [None]) is not counted; [node_error_count] is still zero.
    When every starting entry of the run names a stored execution of its
    node, every finished task has handed over statistics, so that
    [node_count] is the number of finished tasks. *)
Theorem scheduler_counts_tasks_with_stats X graph_exec w ls s :
  run X graph_exec ls (init graph_exec w) = Some s →
  node_count (execution_stats s)
  = Z.of_nat (length (filter (λ task, has_stats task = true) (tasks s)))
  ∧ (∀ task, task ∈ tasks s → has_stats task = true → ready task = true)
  ∧ node_error_count (execution_stats s) = 0
  ∧ ((∀ e, e ∈ start_node_execs graph_exec → has_row w e) →
     (∀ task, task ∈ tasks s → ready task = true → has_stats task = true)
     ∧ node_count (execution_stats s)
       = Z.of_nat (length (filter (λ task, ready task = true) (tasks s)))).
Proof.
  intros Hrun.
  destruct (run_acct X graph_exec w ls _ _ (init_acct graph_exec w) Hrun)
    as [_ Hcount Hrep Herr _].
  split; [done|]. split; [done|]. split; [done|]. intros Hstart.
  destruct (run_rows X graph_exec ls _ _ (init_rows graph_exec w Hstart) Hrun)
    as [_ _ _ Hstats].
  split; [done|]. rewrite Hcount. unfold reported_tasks. do 2 f_equal.
  clear -Hrep Hstats. induction (tasks s) as [|x ts IH]; [done|].
  rewrite !filter_cons.
  assert (has_stats x = true ↔ ready x = true) as Hx.
  { split; [apply Hrep | apply Hstats]; apply list_elem_of_here. }
  assert (filter (λ task, has_stats task = true) ts = filter (λ task, ready task = true) ts)
    as ->.
  { apply IH; intros task Hin; [apply Hrep | apply Hstats]; by apply list_elem_of_further. }
  destruct (decide (has_stats x = true)) as [H1|H1], (decide (ready x = true)) as [H2|H2];
    try done; tauto.
Qed.

(** X17. The notifications of a run.  Until the scheduler has exited, it has
    queued nothing but, at most, one LOW_BALANCE notification (and then
    it has left its loop for good).  Once it has exited, it has queued
    after that exactly one AGENT_RUN notification, for the run's user and
    graph, whose [credits_used] is the credits debited from the user
    during the run. *)
Theorem exited_run_has_notified_once X graph_exec w ls s :
  run X graph_exec ls (init graph_exec w) = Some s →
  ∃ pre,
    (pre = [] ∨ (finishing (pc s) ∧ ∃ lb, pre = [low_balance_note graph_exec lb]))
    ∧ (pc s ≠ Exited → notifications (world s) = notifications w ++ pre)
    ∧ (pc s = Exited →
       ∃ d, notifications (world s) = notifications w ++ pre ++ [agent_run_note graph_exec d]
            ∧ credits_used d = credits w - credits (world s)
            ∧ ar_graph_id d = g_graph_id graph_exec).
Proof.
  intros Hrun.
  destruct (run_acct X graph_exec w ls _ _ (init_acct graph_exec w) Hrun)
    as [Hcost _ _ _ (pre & Hpre & Hnotes)].
  exists pre. split; [done|]. split.
  - intros Hne. by destruct (pc s).
  - intros Hex. rewrite Hex in Hnotes. destruct Hnotes as (d & ? & ? & ?).
    exists d. split; [done|]. split; [congruence|done].
Qed.

(** *** Runs that nobody cancels *)

Lemma final_status_cases s : final_status s = FAILED ∨ final_status s = COMPLETED.
Proof. unfold final_status. destruct (error s); auto. Qed.

Lemma all_ready_submit_free s :
  task_inv s → running_executions s = ∅ → all_ready s.
Proof.
  intros [Ireg _ _] Hempty task Hin.
  apply list_elem_of_lookup in Hin as [t Ht].
  destruct (ready task) eqn:Hr; [done|].
  pose proof (Ireg t task Ht Hr) as Hreg. by rewrite Hempty in Hreg.
Qed.

Section Quiet.

Variable X : Externals.
Variable graph_exec : GraphExecutionEntry.

Ltac quiet_fields :=
  split; unfold final_status in *; simpl in *;
  repeat match goal with H : pc _ = _ |- _ => rewrite H in * end;
  try done; try tauto; try (intuition congruence);
  try match goal with
      | Iret : ∀ st, returned _ = Some st → _ |- ∀ st, returned _ = Some st → _ =>
          let st := fresh "st" in
          let Hr := fresh "Hr" in
          intros st Hr; destruct (Iret st Hr) as [? [?|?]]; done
      end.

Lemma main_step_quiet s s' :
  task_inv s → quiet_inv s → main_step X graph_exec s = Some s' → quiet_inv s'.
Proof.
  intros Htask [Icancel Ifin Iwatch Ipool Ialive Isl Ist Iret Ierr Iloop Idr]. unfold main_step.
  destruct (pc s) eqn:Hpc; simpl in *.
  - (* AtLoop *)
    destruct (queue s) as [|exec_data rest] eqn:Hq.
    { intros [= <-]. quiet_fields. }
    destruct (cancel s) eqn:Hc.
    { destruct (Ifin (Icancel eq_refl)) as [?|[?|?]]; done. }
    simpl. destruct (running_executions s !! node_id exec_data) as [t|];
      [destruct (task_ready _ t)|]; intros [= <-]; quiet_fields.
  - (* AtWaitSame *)
    destruct (task_ready s t); [|done]. intros [= <-]. quiet_fields.
  - (* AtCharge *)
    destruct (_charge_usage X e _ _ _) as [[w stats] [count|err]].
    { intros [= <-]. quiet_fields. }
    destruct err as [| | | msg balance amount |];
      try (intros [= <-]; quiet_fields).
    destruct (fail_low_balance _ _ _ _ _ _ _) as [w2 [[]|err2]]; intros [= <-]; quiet_fields.
  - (* AtSubmit *)
    rewrite Ipool. intros [= <-]. quiet_fields.
    intros task [Hin|Hin]%elem_of_app; [by apply Ialive|].
    apply list_elem_of_singleton in Hin as ->. done.
  - (* AtIdle *)
    destruct (queue s) eqn:Hq; [destruct (bool_decide _) eqn:Hb|]; intros [= <-]; quiet_fields.
    intros _. right. change (all_ready s). apply all_ready_submit_free; [done|]. by apply bool_decide_eq_true in Hb.
  - (* AtIdleFor *)
    destruct items as [|[nid t] items].
    { intros [= <-]. quiet_fields. }
    destruct (cancel s) eqn:Hc.
    { destruct (Ifin (Icancel eq_refl)) as [?|[?|?]]; done. }
    destruct (queue s); intros [= <-]; quiet_fields.
  - (* AtFinally *)
    intros [= <-]. quiet_fields.
  - (* AtFinished *)
    destruct (cancel s) eqn:Hc.
    { destruct (Ifin (Icancel eq_refl)) as [?|[?|?]]; done. }
    intros [= <-]. quiet_fields.
  - (* AtJoin *)
    destruct (watcher s) eqn:Hwt; try done. intros [= <-]. quiet_fields.
  - (* AtReturn *)
    destruct (returned s) as [st|] eqn:Hret; [|done].
    destruct (persist_result _ _ _ _ _) as [w r]. intros [= <-]. quiet_fields.
    intros st' Hr. rewrite Hret in Hr. destruct (Iret st' Hr) as [? _]. split; [done|by right].
  - done.
Qed.

Lemma watcher_step_quiet s s' :
  quiet_inv s → watcher_step s = Some s' → quiet_inv s'.
Proof.
  intros [Icancel Ifin Iwatch Ipool Ialive Isl Ist Iret Ierr Iloop Idr]. unfold watcher_step.
  destruct (watcher s) eqn:Hwt.
  - destruct (cancel s) eqn:Hc; [|done]. intros [= <-]. split; simpl; auto.
  - destruct Iwatch as [?|[[_ Hf]|?]]; try done. rewrite Hf. intros [= <-].
    split; simpl; auto.
  - destruct Iwatch as [?|[[? ?]|?]]; done.
  - destruct Iwatch as [?|[[? ?]|?]]; done.
  - destruct Iwatch as [?|[[? ?]|?]]; done.
  - done.
Qed.

Lemma work_quiet t s s' :
  quiet_inv s → work X t s = Some s' → quiet_inv s'.
Proof.
  intros [Icancel Ifin Iwatch Ipool Ialive Isl Ist Iret Ierr Iloop Idr] Hwork.
  apply work_effect in Hwork
    as (task & w & ys & st & result & Ht & Hw & Htasks & Hq & Hpc & Hc & Hf & Hwt & Hpool
        & Herr & Hret & Hstatus & _).
  apply worker_stretch_states in Hw as (Hst & Hnk & _).
  assert (ready task = false) as Hunready.
  { unfold ready. destruct Hst as [->|(? & ? & ? & ->)]; done. }
  assert (¬ all_ready s) as Hbusy.
  { intros Hall. specialize (Hall task (list_elem_of_lookup_2 _ _ _ Ht)). congruence. }
  assert (final_status s' = final_status s) as Hfs by (unfold final_status; by rewrite Herr).
  split; rewrite ?Hpc, ?Hc, ?Hf, ?Hwt, ?Hpool, ?Herr, ?Hret, ?Hstatus, ?Hfs; try done.
  - intros task1 Hin. rewrite Htasks in Hin.
    apply list_elem_of_lookup in Hin as [t1 H1].
    destruct (decide (t = t1)) as [<-|Hne].
    + rewrite list_lookup_insert_eq in H1 by (by eapply lookup_lt_Some).
      by injection H1 as <-.
    + rewrite list_lookup_insert_ne in H1 by done.
      apply Ialive. by eapply list_elem_of_lookup_2.
  - intros Hp. destruct (Iloop Hp) as [Hne|?]; [|done]. left. rewrite Hq.
    destruct (queue s); [done|]. done.
  - intros Hp He. by destruct (Idr Hp He).
Qed.

Lemma step_quiet l s s' :
  l ≠ SetCancel → task_inv s → quiet_inv s → step X graph_exec l s = Some s' → quiet_inv s'.
Proof.
  destruct l; simpl; intros Hl Htask Hinv.
  - by apply main_step_quiet.
  - by apply watcher_step_quiet.
  - by apply work_quiet.
  - done.
Qed.

Lemma run_quiet ls s s' :
  SetCancel ∉ ls → task_inv s → quiet_inv s → run X graph_exec ls s = Some s' → quiet_inv s'.
Proof.
  revert s. induction ls as [|l ls IH]; intros s Hls Htask Hinv; simpl.
  - by intros [= <-].
  - destruct (step X graph_exec l s) as [s1|] eqn:Hs; [|done].
    apply not_elem_of_cons in Hls as [Hl Hls].
    apply IH; [done| |].
    + by eapply step_task.
    + by eapply step_quiet.
Qed.

Lemma init_quiet w : quiet_inv (init graph_exec w).
Proof.
  split; simpl; try done; auto.
  - intros task Hin. by apply elem_of_nil in Hin.
  - intros [?|[?|[?|?]]]; done.
  - intros _. right. intros task Hin. by apply elem_of_nil in Hin.
Qed.

End Quiet.

(** X18. A run that nobody cancels.  When no [cancel_event.set()] from outside
    is among the moves, the run's status is never TERMINATED, its pool is
    never terminated and none of its tasks loses its result; and the
    status [_on_graph_execution] returns is FAILED when the scheduler
    recorded an error and otherwise COMPLETED, the latter only with an
    empty queue and every submitted task finished. *)
Theorem undisturbed_run_completes_only_when_drained X graph_exec w ls s :
  SetCancel ∉ ls →
  run X graph_exec ls (init graph_exec w) = Some s →
  execution_status s ≠ TERMINATED
  ∧ pool_up s = true
  ∧ (∀ task, task ∈ tasks s → t_state task ≠ Killed)
  ∧ ∀ st, returned s = Some st →
          match error s with
          | Some _ => st = FAILED
          | None => st = COMPLETED ∧ queue s = []
                    ∧ ∀ task, task ∈ tasks s → ∃ err, t_state task = Done err
          end.
Proof.
  intros Hls Hrun.
  destruct (run_quiet X graph_exec ls _ _ Hls (init_task graph_exec w)
              (init_quiet graph_exec w) Hrun)
    as [Icancel Ifin Iwatch Ipool Ialive Isl Ist Iret Ierr Iloop Idr].
  split; [|split; [done|split; [done|]]].
  - destruct (final_status_cases s) as [Hfs|Hfs].
    + destruct (pc s); try (rewrite Ist; [congruence|tauto]);
        (destruct Isl as [->| ->]; [simpl; tauto|done|done]).
    + destruct (pc s); try (rewrite Ist; [congruence|tauto]);
        (destruct Isl as [->| ->]; [simpl; tauto|done|done]).
  - intros st Hret. destruct (Iret st Hret) as [-> Hpc]. unfold final_status.
    destruct (error s) eqn:He; [done|].
    assert (finishing (pc s)) as Hfin by (destruct Hpc as [-> | ->]; done).
    destruct (Idr Hfin eq_refl) as [Hq Hall]. split; [done|]. split; [done|].
    intros task Hin. specialize (Hall task Hin). unfold ready in Hall.
    destruct (t_state task); try done. by eexists.
Qed.

(** ** Logging, shutdown and dispatch *)

Lemma string_length_append (a b : string) :
  String.length (a +:+ b) = (String.length a + String.length b)%nat.
Proof. induction a as [|c a IH]; simpl; [done|by rewrite IH]. Qed.

Lemma string_length_substring (n m : nat) (s : string) :
  (String.length (String.substring n m s) ≤ m)%nat.
Proof.
  revert n m. induction s as [|c s IH]; intros [|n] [|m]; simpl; try lia.
  - specialize (IH 0%nat m). lia.
  - apply (IH n 0%nat).
  - apply (IH n (S m)).
Qed.

(** X19. The text of a log line.  Whatever keyword arguments are logged, the
    line is the prefix, the message and at most 1003 characters of their
    rendering, with single blanks between; a rendering of at most 1000
    characters is appended as it is, and a longer one is cut to its first
    1000 characters followed by three dots. *)
Theorem log_line_caps_the_extra (self : LogMetadata.t) (msg : string) (extra : option string) :
  ∃ shown,
    LogMetadata._wrap self msg extra = LogMetadata.prefix self +:+ " " +:+ msg +:+ " " +:+ shown
    ∧ (String.length shown ≤ 1003)%nat
    ∧ (String.length (LogMetadata._wrap self msg extra)
       ≤ String.length (LogMetadata.prefix self) + String.length msg + 1005)%nat
    ∧ match extra with
      | None => shown = ""
      | Some text =>
          if (1000 <? String.length text)%nat
          then shown = String.substring 0 1000 text +:+ "..."
               ∧ String.length shown = 1003%nat
          else shown = text
      end.
Proof.
  unfold LogMetadata._wrap. cbv zeta.
  set (text := default "" extra).
  set (shown := if (1000 <? String.length text)%nat
                then String.substring 0 1000 text +:+ "..." else text).
  exists shown.
  assert (String.length shown ≤ 1003)%nat as Hshown.
  { unfold shown. destruct (1000 <? String.length text)%nat eqn:Hlong.
    - rewrite string_length_append. pose proof (string_length_substring 0 1000 text).
      simpl. lia.
    - apply Nat.ltb_ge in Hlong. lia. }
  split; [done|]. split; [done|]. split.
  - rewrite !string_length_append. simpl. lia.
  - destruct extra as [t|]; simpl in *; [|done].
    unfold shown. change text with t.
    destruct (1000 <? String.length t)%nat eqn:Hlong; [|done].
    split; [done|]. apply Nat.ltb_lt in Hlong.
    rewrite string_length_append. simpl.
    assert (String.length (String.substring 0 1000 t) = 1000)%nat as ->; [|done].
    clear -Hlong. revert Hlong. generalize 1000%nat as m. intros m. revert t.
    induction m as [|m IH]; intros t Hlt.
    + by destruct t.
    + destruct t as [|c t]; simpl in *; [lia|]. f_equal. apply IH. lia.
Qed.

Lemma locked_process_ignores_handlers hs p :
  shutdown_lock p = true → run_handlers hs p = p.
Proof.
  intros Hp. induction hs as [|h hs IH]; [done|].
  unfold run_handlers in *. simpl.
  assert (run_handler h p = p) as ->; [|done].
  destruct h; simpl; unfold on_node_executor_stop, on_node_executor_sigterm; by rewrite Hp.
Qed.

(** X20. Shutdown cleans up once.  In a process that is not shutting down yet,
    however many times and in whatever order the exit handler and the
    SIGTERM handler are invoked, only the first invocation does anything:
    the locks are released and Redis is disconnected exactly once, and
    the database client is closed only when that first handler was the
    exit handler (after a SIGTERM it is never closed). *)
Theorem shutdown_cleans_up_once h hs p :
  shutdown_lock p = false →
  run_handlers (h :: hs) p = run_handler h p
  ∧ shutdown_lock (run_handlers (h :: hs) p) = true
  ∧ cleanup_calls (run_handlers (h :: hs) p)
    = cleanup_calls p
      ++ match h with
         | Stop => [release_all_locks; redis_disconnect; close_service_client]
         | Sigterm => [release_all_locks; redis_disconnect; sys_exit]
         end.
Proof.
  intros Hp.
  assert (shutdown_lock (run_handler h p) = true) as Hlocked.
  { destruct h; simpl; unfold on_node_executor_stop, on_node_executor_sigterm; by rewrite Hp. }
  assert (run_handlers (h :: hs) p = run_handler h p) as ->.
  { change (run_handlers (h :: hs) p) with (run_handlers hs (run_handler h p)).
    by apply locked_process_ignores_handlers. }
  split; [done|]. split; [done|].
  destruct h; simpl; unfold on_node_executor_stop, on_node_executor_sigterm; by rewrite Hp.
Qed.

(** X21. The done-callback pops the latest dispatch.  When the manager has
    dispatched run [a] and then run [b], and the future of [a] completes,
    its done-callback removes the entry of [b] from [active_graph_runs]
    and leaves the entry of the finished run [a] in place. *)
Theorem done_callback_pops_the_latest_dispatch s a b rest :
  intake_queue (RunService.world s) = a :: b :: rest →
  g_graph_exec_id a ≠ g_graph_exec_id b →
  ∃ s1 s2,
    RunService.dispatch s = Some s1
    ∧ RunService.dispatch s1 = Some s2
    ∧ RunService.futures s2 !! length (RunService.futures s) = Some a
    ∧ let s3 := RunService.done_callback (length (RunService.futures s)) s2 in
      RunService.active_graph_runs s3 !! g_graph_exec_id a = Some (length (RunService.futures s))
      ∧ RunService.active_graph_runs s3 !! g_graph_exec_id b = None.
Proof.
  intros Hq Hne. unfold RunService.dispatch. rewrite Hq. eexists. eexists.
  split; [done|]. simpl. split; [done|]. split.
  - rewrite <- app_assoc. simpl. by apply list_lookup_middle.
  - unfold RunService.done_callback. simpl. split.
    + rewrite lookup_delete_ne by done. rewrite lookup_insert_ne by done.
      by rewrite lookup_insert_eq.
    + by rewrite lookup_delete_eq.
Qed.

(** X22. The pool's callback never counts an error.  The statistics
    [on_node_execution] returns carry no exception: a failure of the node
    is recorded there as a string.  The callback of the scheduler, which
    counts a node as failed when its statistics carry an exception,
    therefore leaves [node_error_count] as it was, whether the node
    failed or not. *)
Theorem pool_callback_never_counts_an_error X node_exec w w' stats s :
  on_node_execution X node_exec w = (w', Ok stats) →
  (nes_error stats = NoError ∨ ∃ text, nes_error stats = ErrorString text)
  ∧ callback_on node_exec (Some stats) s = callback node_exec s
  ∧ node_error_count (execution_stats (callback_on node_exec (Some stats) s))
    = node_error_count (execution_stats s).
Proof.
  unfold on_node_execution, report_node_execution, update_node_execution_stats. munfold.
  destruct (_on_node_execution X node_exec w) as [w1 [[err|]|err]]; [| |done];
    (destruct (List.find _ _); [|done]).
  - intros [= <- <-]. split; [right; by eexists|].
    assert (callback_on node_exec (Some {| nes_error := ErrorString (exn_str err) |}) s
            = callback node_exec s) as Heq by done.
    rewrite Heq. split; [done|]. apply callback_effect.
  - intros [= <- <-]. split; [by left|].
    assert (callback_on node_exec (Some {| nes_error := NoError |}) s
            = callback node_exec s) as Heq by done.
    rewrite Heq. split; [done|]. apply callback_effect.
Qed.

(** ** Examples *)

(** Graph [ask] starts at the input node [I], named [topic]; the request
    gives [topic]. *)
Lemma accepted_start_is_seeded_and_queued_witness :
  ∃ w' entry,
    add_execution Demo3.X "ask" {[ "topic" := PStr "rocq" ]} "u" None Demo3.world0
    = (w', Ok entry)
    ∧ intake_queue w' = [entry]
    ∧ map (λ e, (node_id e, data e !! "value")) (start_node_execs entry)
      = [("I", Some (PStr "rocq"))].
Proof.
  destruct (add_execution Demo3.X "ask" {[ "topic" := PStr "rocq" ]} "u" None Demo3.world0)
    as [w' [entry|err]] eqn:Hrun; [|vm_compute in Hrun; discriminate].
  destruct (accepted_start_is_seeded_and_queued Demo3.X "ask" {[ "topic" := PStr "rocq" ]}
              "u" None Demo3.world0 w' entry Hrun)
    as (g & _ & Hq & _).
  exists w', entry. split; [reflexivity|]. split; [exact Hq|].
  vm_compute in Hrun. injection Hrun as <- <-. reflexivity.
Defined.

(** Graph [hooked] starts at a webhook node, and the request carries no
    payload for it. *)
Lemma missing_webhook_payload_refuses_the_start_witness :
  ∃ e, add_execution Demo2.X "hooked" ∅ "u" None Demo2.world0 = (Demo2.world0, Raised e).
Proof.
  apply (missing_webhook_payload_refuses_the_start Demo2.X "hooked" ∅ "u" None Demo2.world0
           (Demo.graph "hooked" [Demo2.node_H] [Demo2.node_H]) Demo2.node_H Demo2.hook "wh1").
  - reflexivity.
  - apply list_elem_of_here.
  - reflexivity.
  - left. reflexivity.
  - reflexivity.
  - discriminate.
  - reflexivity.
Defined.

(** The two credentials of node [M] are in the store of user [u]. *)
Lemma checked_credentials_exist_and_match_witness :
  ∃ w', _validate_node_input_credentials Demo.X
          (Demo.graph "m" [Demo.node_M] [Demo.node_M]) "u" Demo.world0 = (w', Ok ())
        ∧ w' = Demo.world0.
Proof.
  destruct (_validate_node_input_credentials Demo.X
              (Demo.graph "m" [Demo.node_M] [Demo.node_M]) "u" Demo.world0)
    as [w' [[]|err]] eqn:Hrun; [|vm_compute in Hrun; discriminate].
  exists w'. split; [reflexivity|].
  apply (checked_credentials_exist_and_match Demo.X _ _ _ _ Hrun).
Defined.

(** A queued execution of run [run] beside a queued execution of another
    run: the latter is still there after [run] was cancelled. *)
Lemma cancel_execution_spares_other_executions_witness :
  ∃ w', cancel_execution "run" None
          (Demo.with_rows [Demo.row "e1" "A" "producer" QUEUED ∅;
                           row_with QUEUED None
                             {| r_node_exec_id := "o1"; r_graph_exec_id := "other";
                                r_graph_id := "g"; r_node_id := "A"; r_block_id := "producer";
                                r_status := QUEUED; r_input_data := ∅ |}] Demo.world0)
        = (w', Ok ())
      ∧ map r_node_exec_id (node_executions w') = ["e1"; "o1"]
      ∧ execution_outputs w' = [].
Proof.
  edestruct (cancel_execution_spares_other_executions "run" None
               (Demo.with_rows [Demo.row "e1" "A" "producer" QUEUED ∅;
                                row_with QUEUED None
                                  {| r_node_exec_id := "o1"; r_graph_exec_id := "other";
                                     r_graph_id := "g"; r_node_id := "A";
                                     r_block_id := "producer";
                                     r_status := QUEUED; r_input_data := ∅ |}] Demo.world0))
    as (w' & Hrun & _ & _ & Hout & Hids).
  - reflexivity.
  - compute_done.
  - exists w'. split; [exact Hrun|]. split; [exact Hids|exact Hout].
Defined.

(** An integer for the pin [x] of node [C], which is typed as one. *)
Lemma validation_keeps_well_typed_values_witness :
  ∃ d msg,
    validate_exec Demo.X Demo.node_C {[ "x" := PInt 3; "cfg" := PStr "k" ]} false = (Some d, msg)
    ∧ msg = "Consumer"
    ∧ d !! "x" = Some (PInt 3).
Proof.
  destruct (validate_exec Demo.X Demo.node_C {[ "x" := PInt 3; "cfg" := PStr "k" ]} false)
    as [[d|] msg] eqn:Hrun; [|vm_compute in Hrun; discriminate].
  destruct (validation_keeps_well_typed_values Demo.X Demo.node_C
              {[ "x" := PInt 3; "cfg" := PStr "k" ]} d msg Demo.consumer "x" eq_refl Hrun)
    as (Hmsg & Hkeep & _).
  exists d, msg. split; [reflexivity|]. split; [exact Hmsg|].
  apply Hkeep; [reflexivity|].
  intros _ t Hin. apply list_elem_of_singleton in Hin. by injection Hin as ->.
Defined.

(** Node [A] has one link, from its pin [out]; an output on the pin
    [error] goes nowhere. *)
Lemma unlinked_output_enqueues_nothing_witness :
  _enqueue_next_nodes Demo.X Demo.node_A ("error", PStr "oops") "u" "run" "g" Demo.world0
  = (Demo.world0, Ok []).
Proof.
  apply (unlinked_output_enqueues_nothing Demo.X).
  intros l Hin. apply list_elem_of_singleton in Hin as ->. reflexivity.
Defined.

(** The value of [A.out] reaches the two waiting executions of [C]. *)
Lemma resolver_writes_executions_and_updates_only_witness :
  ∃ w' r,
    _enqueue_next_nodes Demo.X Demo.node_A ("out", PInt 7) "u" "run" "g"
      (Demo.world_waiting (PInt 1)) = (w', r)
    ∧ ∀ x, x ∈ node_executions w' →
           x ∈ node_executions (Demo.world_waiting (PInt 1))
           ∨ r_status x = INCOMPLETE ∨ r_status x = QUEUED.
Proof.
  destruct (_enqueue_next_nodes Demo.X Demo.node_A ("out", PInt 7) "u" "run" "g"
              (Demo.world_waiting (PInt 1))) as [w' r] eqn:Hrun.
  exists w', r. split; [reflexivity|].
  apply (resolver_writes_executions_and_updates_only Demo.X _ _ _ _ _ _ _ _ Hrun).
Defined.

(** The completed execution [e3] of [A] stays as it is. *)
Lemma resolver_leaves_settled_executions_alone_witness :
  ∃ w' r,
    _enqueue_next_nodes Demo.X Demo.node_A ("out", PInt 7) "u" "run" "g"
      (Demo.world_waiting (PInt 1)) = (w', r)
    ∧ Demo.row "e3" "A" "producer" COMPLETED ∅ ∈ node_executions w'.
Proof.
  destruct (_enqueue_next_nodes Demo.X Demo.node_A ("out", PInt 7) "u" "run" "g"
              (Demo.world_waiting (PInt 1))) as [w' r] eqn:Hrun.
  exists w', r. split; [reflexivity|].
  assert (NoDup (row_ids (Demo.world_waiting (PInt 1)))) as Hids by compute_done.
  destruct (resolver_leaves_settled_executions_alone Demo.X _ _ _ _ _ _ _ _ Hids Hrun)
    as [_ Hkeep].
  apply Hkeep; [|by left]. simpl. do 2 apply list_elem_of_further. apply list_elem_of_here.
Defined.

(** The two waiting executions of [C] are enqueued, each once. *)
Lemma enqueued_entries_are_queued_once_witness :
  ∃ w' es,
    _enqueue_next_nodes Demo.X Demo.node_A ("out", PInt 7) "u" "run" "g"
      (Demo.world_waiting (PInt 1)) = (w', Ok es)
    ∧ NoDup (map node_exec_id es)
    ∧ ∀ e, e ∈ es → graph_exec_id e = "run".
Proof.
  destruct (_enqueue_next_nodes Demo.X Demo.node_A ("out", PInt 7) "u" "run" "g"
              (Demo.world_waiting (PInt 1))) as [w' [es|err]] eqn:Hrun;
    [|vm_compute in Hrun; discriminate].
  exists w', es. split; [reflexivity|].
  assert (NoDup (row_ids (Demo.world_waiting (PInt 1)))) as Hids by compute_done.
  destruct (enqueued_entries_are_queued_once Demo.X _ _ _ _ _ _ _ _ Hids Hrun)
    as [Hnd Hes].
  split; [exact Hnd|]. intros e He. by destruct (Hes e He).
Defined.

(** A queued execution of node [A]. *)
Lemma node_executor_footprint_witness :
  ∃ w' r,
    execute_node Demo.X (Demo.entry "e1" "A" "producer" ∅) (Demo.world_of "A" "producer" ∅)
    = (w', r)
    ∧ credits w' = 5 ∧ notifications w' = [] ∧ intake_queue w' = [].
Proof.
  destruct (execute_node Demo.X (Demo.entry "e1" "A" "producer" ∅)
              (Demo.world_of "A" "producer" ∅)) as [w' r] eqn:Hrun.
  exists w', r. split; [reflexivity|].
  destruct (node_executor_footprint Demo.X _ _ _ _ Hrun) as (Hc & Hn & _ & _ & _ & _ & Hq & _).
  split; [exact Hc|]. split; [exact Hn|exact Hq].
Defined.

(** Node [S] runs a block with one credential field. *)
Lemma single_credential_lock_is_released_witness :
  ∃ w' r,
    execute_node Demo2.X (Demo.entry "e1" "S" "signer" (input_default Demo2.node_S))
      (Demo.with_rows [Demo.row "e1" "S" "signer" QUEUED (input_default Demo2.node_S)]
         Demo2.world0) = (w', r)
    ∧ block_runs w' = ["e1"]
    ∧ held_locks w' ≡ₚ [].
Proof.
  destruct (execute_node Demo2.X (Demo.entry "e1" "S" "signer" (input_default Demo2.node_S))
              (Demo.with_rows [Demo.row "e1" "S" "signer" QUEUED (input_default Demo2.node_S)]
                 Demo2.world0)) as [w' r] eqn:Hrun.
  exists w', r. split; [reflexivity|]. split.
  - vm_compute in Hrun. by injection Hrun as <- <-.
  - apply (single_credential_lock_is_released Demo2.X
             (Demo.entry "e1" "S" "signer" (input_default Demo2.node_S))
             (Demo.with_rows [Demo.row "e1" "S" "signer" QUEUED (input_default Demo2.node_S)]
                Demo2.world0) w' r); [|exact Hrun].
    intros node b Hn Hb. vm_compute in Hn. injection Hn as <-.
    vm_compute in Hb. injection Hb as <-. simpl. lia.
Defined.

(** A user with 50 credits runs the block that costs 10. *)
Lemma charge_usage_adds_what_it_debits_witness :
  ∃ w' stats' r,
    _charge_usage Demo.X (Demo.entry "e1" "P" "paid" ∅) 1 GraphExecutionStats_new
      (with_credits (λ _, 50) Demo.world0) = (w', stats', r)
    ∧ cost stats' = 50 - credits w'.
Proof.
  destruct (_charge_usage Demo.X (Demo.entry "e1" "P" "paid" ∅) 1 GraphExecutionStats_new
              (with_credits (λ _, 50) Demo.world0)) as [[w' stats'] r] eqn:Hrun.
  exists w', stats', r. split; [reflexivity|].
  destruct (charge_usage_adds_what_it_debits Demo.X _ _ _ _ _ _ _ Hrun) as (Hcost & _).
  simpl in Hcost. lia.
Defined.

(** Two queued executions of node [A]: while the first runs, the only
    unfinished task is the one registered for [A]. *)
Lemma pool_runs_one_task_per_node_witness :
  ∃ s,
    run Demo.X Demo.two_of_A [Main; Main; Main; Main; Main; Work 0]
      (init Demo.two_of_A Demo.world_two_of_A) = Some s
    ∧ ∀ t task, tasks s !! t = Some task → ready task = false →
                running_executions s !! node_id (t_entry task) = Some t.
Proof.
  destruct (run Demo.X Demo.two_of_A [Main; Main; Main; Main; Main; Work 0]
              (init Demo.two_of_A Demo.world_two_of_A)) as [s|] eqn:Hrun;
    [|vm_compute in Hrun; discriminate].
  exists s. split; [reflexivity|].
  by destruct (pool_runs_one_task_per_node Demo.X _ _ _ _ Hrun).
Defined.

(** A run of the block that costs 10, by a user with 50 credits. *)
Lemma reported_cost_is_what_was_debited_witness :
  ∃ s,
    run Demo.X (Demo.run_of [Demo.entry "e1" "P" "paid" ∅]) [Main; Main; Main]
      (init (Demo.run_of [Demo.entry "e1" "P" "paid" ∅])
         (with_credits (λ _, 50) (Demo.world_of "P" "paid" ∅))) = Some s
    ∧ cost (execution_stats s) = 50 - credits (world s)
    ∧ credits (world s) = 40.
Proof.
  destruct (run Demo.X (Demo.run_of [Demo.entry "e1" "P" "paid" ∅]) [Main; Main; Main]
              (init (Demo.run_of [Demo.entry "e1" "P" "paid" ∅])
                 (with_credits (λ _, 50) (Demo.world_of "P" "paid" ∅)))) as [s|] eqn:Hrun;
    [|vm_compute in Hrun; discriminate].
  exists s. split; [reflexivity|]. split.
  - apply (reported_cost_is_what_was_debited Demo.X _ _ _ _ Hrun).
  - vm_compute in Hrun. by injection Hrun as <-.
Defined.

(** The run of one execution of the failing node [F], whose error pin
    feeds [D]: two nodes are counted, the failed one among them, and no
    error. *)
Lemma scheduler_counts_tasks_with_stats_witness :
  ∃ s,
    run Demo.X Demo3.one_of_F
      [Main; Main; Main; Work 0; Work 0; Main; Main; Main; Main; Work 1; Work 1;
       Main; Main; Main; Main; Watch; Watch; Main; Main]
      (init Demo3.one_of_F (Demo.world_of "F" "failing" ∅)) = Some s
    ∧ node_count (execution_stats s) = 2
    ∧ node_error_count (execution_stats s) = 0.
Proof.
  destruct (run Demo.X Demo3.one_of_F
              [Main; Main; Main; Work 0; Work 0; Main; Main; Main; Main; Work 1; Work 1;
               Main; Main; Main; Main; Watch; Watch; Main; Main]
              (init Demo3.one_of_F (Demo.world_of "F" "failing" ∅))) as [s|] eqn:Hrun;
    [|vm_compute in Hrun; discriminate].
  exists s. split; [reflexivity|].
  destruct (scheduler_counts_tasks_with_stats Demo.X _ _ _ _ Hrun) as (_ & _ & Herr & Hall).
  split; [|exact Herr].
  assert (∀ e, e ∈ start_node_execs Demo3.one_of_F
               → has_row (Demo.world_of "F" "failing" ∅) e) as Hstart.
  { intros e He. apply list_elem_of_singleton in He. rewrite He.
    exists (Demo.row "e1" "F" "failing" QUEUED ∅).
    split; [apply list_elem_of_here|split; reflexivity]. }
  destruct (Hall Hstart) as [_ Hcount]. rewrite Hcount.
  vm_compute in Hrun. injection Hrun as <-. reflexivity.
Defined.

Lemma exited_run_has_notified_once_witness :
  ∃ s,
    run Demo.X Demo2.one_of_A Demo2.whole_run
      (init Demo2.one_of_A (Demo.world_of "A" "producer" ∅)) = Some s
    ∧ pc s = Exited
    ∧ ∃ pre d, notifications (world s) = pre ++ [agent_run_note Demo2.one_of_A d]
               ∧ credits_used d = 5 - credits (world s).
Proof.
  destruct (run Demo.X Demo2.one_of_A Demo2.whole_run
              (init Demo2.one_of_A (Demo.world_of "A" "producer" ∅))) as [s|] eqn:Hrun;
    [|vm_compute in Hrun; discriminate].
  exists s. split; [reflexivity|].
  assert (pc s = Exited) as Hpc by (vm_compute in Hrun; by injection Hrun as <-).
  split; [exact Hpc|].
  destruct (exited_run_has_notified_once Demo.X _ _ _ _ Hrun) as (pre & _ & _ & Hex).
  destruct (Hex Hpc) as (d & Hn & Hused & _).
  exists pre, d. split; [exact Hn|exact Hused].
Defined.

Lemma undisturbed_run_completes_only_when_drained_witness :
  ∃ s,
    run Demo.X Demo2.one_of_A Demo2.whole_run
      (init Demo2.one_of_A (Demo.world_of "A" "producer" ∅)) = Some s
    ∧ returned s = Some COMPLETED
    ∧ queue s = []
    ∧ ∀ task, task ∈ tasks s → ∃ err, t_state task = Done err.
Proof.
  destruct (run Demo.X Demo2.one_of_A Demo2.whole_run
              (init Demo2.one_of_A (Demo.world_of "A" "producer" ∅))) as [s|] eqn:Hrun;
    [|vm_compute in Hrun; discriminate].
  exists s. split; [reflexivity|].
  assert (returned s = Some COMPLETED ∧ error s = None) as [Hret Herr]
    by (vm_compute in Hrun; by injection Hrun as <-).
  split; [exact Hret|].
  assert (SetCancel ∉ Demo2.whole_run) as Hquiet.
  { unfold Demo2.whole_run. intros Hin.
    repeat (apply elem_of_cons in Hin as [Hin|Hin]; [discriminate Hin|]).
    by apply elem_of_nil in Hin. }
  destruct (undisturbed_run_completes_only_when_drained Demo.X _ _ _ _ Hquiet Hrun)
    as (_ & _ & _ & Hdone).
  specialize (Hdone COMPLETED Hret). rewrite Herr in Hdone.
  destruct Hdone as (_ & Hq & Hall). split; [exact Hq|exact Hall].
Defined.

(** SIGTERM first, then the exit handler that [sys.exit] triggers. *)
Lemma shutdown_cleans_up_once_witness :
  cleanup_calls (run_handlers [Sigterm; Stop] {| shutdown_lock := false; cleanup_calls := [] |})
  = [release_all_locks; redis_disconnect; sys_exit].
Proof.
  by destruct (shutdown_cleans_up_once Sigterm [Stop]
                 {| shutdown_lock := false; cleanup_calls := [] |} eq_refl) as (_ & _ & ->).
Defined.

(** Runs [run-a] and [run-b] are dispatched in that order. *)
Lemma done_callback_pops_the_latest_dispatch_witness :
  ∃ s2,
    RunService.dispatch (RunService.init
      (with_intake_queue (λ _, [ {| g_user_id := "u"; g_graph_exec_id := "run-a";
                                    g_graph_id := "g"; g_graph_version := 1;
                                    start_node_execs := [] |};
                                 {| g_user_id := "u"; g_graph_exec_id := "run-b";
                                    g_graph_id := "g"; g_graph_version := 1;
                                    start_node_execs := [] |} ]) Demo.world0))
    ≫= RunService.dispatch = Some s2
    ∧ RunService.active_graph_runs (RunService.done_callback 0 s2) !! "run-a" = Some 0%nat
    ∧ RunService.active_graph_runs (RunService.done_callback 0 s2) !! "run-b" = None.
Proof.
  edestruct (done_callback_pops_the_latest_dispatch
               (RunService.init
                  (with_intake_queue (λ _, [ {| g_user_id := "u"; g_graph_exec_id := "run-a";
                                                g_graph_id := "g"; g_graph_version := 1;
                                                start_node_execs := [] |};
                                             {| g_user_id := "u"; g_graph_exec_id := "run-b";
                                                g_graph_id := "g"; g_graph_version := 1;
                                                start_node_execs := [] |} ]) Demo.world0)))
    as (s1 & s2 & H1 & H2 & _ & Ha & Hb).
  - reflexivity.
  - discriminate.
  - exists s2. rewrite H1. simpl. split; [exact H2|]. split; [exact Ha|exact Hb].
Defined.

(** Node [F] fails; the statistics of its execution carry the text of the
    failure. *)
Lemma pool_callback_never_counts_an_error_witness :
  ∃ w' stats,
    on_node_execution Demo.X (Demo.entry "e1" "F" "failing" ∅) (Demo.world_of "F" "failing" ∅)
    = (w', Ok stats)
    ∧ nes_error stats = ErrorString "nope"
    ∧ ∀ s, node_error_count
             (execution_stats (callback_on (Demo.entry "e1" "F" "failing" ∅) (Some stats) s))
           = node_error_count (execution_stats s).
Proof.
  destruct (on_node_execution Demo.X (Demo.entry "e1" "F" "failing" ∅)
              (Demo.world_of "F" "failing" ∅)) as [w' [stats|err]] eqn:Hrun;
    [|vm_compute in Hrun; discriminate].
  exists w', stats. split; [reflexivity|]. split.
  - vm_compute in Hrun. by injection Hrun as <- <-.
  - intros s. by destruct (pool_callback_never_counts_an_error Demo.X _ _ _ _ s Hrun)
                as (_ & _ & ?).
Defined.

